(** * The replay engine of solanastreaming-cli

    A shallow embedding of [cmd/simulate.go]: the subscription handling of
    [Execute], the replay driver [RunSimulation], the per-tick drain of the
    category streams, [streamFromFile] and [getStartingSlot].

    Modelling conventions.
    - [uint64] and [uint] values are integers of [Z]; the one place where the
      code does arithmetic on them ([slot++], [nextSubID++]) has its
      wrap-around written out ([uint64]).
    - A row ([[]byte]) is a list of bytes.  [json.Unmarshal] into a
      [DataFormat] belongs to the Go library, not to the repository: the
      development is parametric in it ([unmarshal]).
    - A channel fed by a producer goroutine is the list of the rows the
      producer still has to send, with a flag telling whether the producer
      closes the channel afterwards.  The consumer is sequential, so a
      receive pops the head of that list; a receive from a closed, empty
      channel yields the zero value (a nil row) without consuming anything;
      a receive from an empty channel nobody will ever close blocks.
    - [outputFeed] is a channel drained by the websocket writer; what the
      replay sends on it is collected in order in a list.
    - A file is read through a [bufio.Scanner]: the replay is stated on
      the lines the scanner returns, each below its limit of 64 KiB.  What
      [getStartingSlot] does at a longer line is stated apart
      ([scanStartingSlot]).
    - The server holds one [SimulateTask] for all its connections; they are
      taken one after the other, each leaving the task to the next. *)

From Stdlib Require Import Strings.Ascii Strings.String.
From Stdlib Require Import ZArith List Bool Lia Sorted Permutation.
From Stdlib Require Import Strings.Byte.
Import ListNotations.
Local Open Scope Z_scope.

Ltac inv H := inversion H; subst; clear H.

(** Tactics for statements about concrete archives. *)
Ltac sample_forall :=
  repeat first [apply Forall_nil | apply Forall_cons].

Ltac sample_in H :=
  simpl in H; repeat (destruct H as [<-|H]); try contradiction.

Ltac sample_le := apply Z.leb_le; vm_compute; reflexivity.


(** ** Data *)

(** [[]byte] *)
Definition row : Type := list byte.

(** [type DataFormat struct { Slot uint64; Pair *struct{}; Swap *struct{} }].
    A pointer to the empty struct is either nil ([None]) or not ([Some tt]). *)
Record DataFormat : Type := mkDataFormat {
  Slot : Z;
  Pair : option unit;
  Swap : option unit
}.

(** [type JSONRPC struct { ID int; SubscriptionID uint; Method string;
    Params json.RawMessage }] *)
Record JSONRPC : Type := mkJSONRPC {
  ID : Z;
  SubscriptionID : Z;
  Method : string;
  Params : row
}.

(** The fields of [SimulateTask] the replay reads and writes.  [outputFeed]
    is carried by the [run] monad below; [params] only locates the archive
    on disk. *)
Record SimulateTask : Type := mkSimulateTask {
  nextSubID : Z;
  pairsSubID : Z;
  swapsSubID : Z
}.

Definition MethodStartSimulation : string := "startSimulation".
Definition MethodNewPairSubscribe : string := "newPairSubscribe".
Definition MethodSwapSubscribe : string := "swapSubscribe".

(** Wrap-around of the 64-bit unsigned types ([uint] is 64 bits wide on
    every target of the Makefile). *)
Definition uint64 (z : Z) : Z := z mod 2 ^ 64.

(** [NewSimulateTask]: [nextSubID: 1], the other counters zero. *)
Definition NewSimulateTask : SimulateTask :=
  {| nextSubID := 1; pairsSubID := 0; swapsSubID := 0 |}.

(** [p != nil] for a pointer to the empty struct. *)
Definition notNil (p : option unit) : bool :=
  match p with
  | Some _ => true
  | None => false
  end.

(** The zero value [JSONRPC{}]. *)
Definition emptyJSONRPC : JSONRPC :=
  {| ID := 0; SubscriptionID := 0; Method := EmptyString; Params := [] |}.

(** A [chan []byte] seen from its only consumer. *)
Record chan : Type := mkChan {
  queued : list row;
  closes : bool
}.

(** The i-th entries of [dataChans], [buffers] and [dones], kept together:
    the three slices are created with the same length and only entry [i]
    of each is touched while stream [i] is drained. *)
Record stream : Type := mkStream {
  dataChan : chan;
  buffer : row;
  done : bool
}.

(** [streamFromFile]: the goroutine sends every scanned line, then closes
    the channel. *)
Definition streamFromFile (lines : list row) : chan :=
  {| queued := lines; closes := true |}.

(** An unzipped archive file is the list of its lines as [bufio.Scanner]
    returns them; a segment (one zip of the data directory) is the list of
    its files in archive order. *)
Definition logfile : Type := list row.
Definition segment : Type := list logfile.

(** ** Outcomes and the output feed *)

(** How a piece of the replay ends.  [CantUnmarshal] is the error
    [errors.Wrap(err, "cant unmarshal event")]; it records the value the
    local variable [slot] has when the function returns.  [Blocked] is a
    receive that never completes and [OutOfFuel] an exhausted iteration
    budget of the model. *)
Inductive outcome (A : Type) : Type :=
| Returned (a : A)
| CantUnmarshal (slot : Z)
| Blocked
| OutOfFuel.
Arguments Returned {A} a.
Arguments CantUnmarshal {A} slot.
Arguments Blocked {A}.
Arguments OutOfFuel {A}.

(** A computation that sends envelopes on [outputFeed] and then ends. *)
Definition run (A : Type) : Type := (list JSONRPC * outcome A)%type.

Definition ret {A} (a : A) : run A := ([], Returned a).
Definition send {A} (evs : list JSONRPC) (k : run A) : run A :=
  (evs ++ fst k, snd k).
Definition bind {A B} (m : run A) (f : A -> run B) : run B :=
  match snd m with
  | Returned a => send (fst m) (f a)
  | CantUnmarshal slot => (fst m, CantUnmarshal slot)
  | Blocked => (fst m, Blocked)
  | OutOfFuel => (fst m, OutOfFuel)
  end.

Declare Scope run_scope.
Delimit Scope run_scope with run.
Notation "x <- m ;; k" := (bind m (fun x => k))
  (at level 61, m at next level, right associativity) : run_scope.
Local Open Scope run_scope.

(** ** A decoder for sample lines

    Concrete inputs are written as the JSON text of archive lines.  The
    reader below accepts the lines [{"slot":N}], [{"slot":N,"pair":{}}],
    [{"slot":N,"swap":{}}] and [{"slot":N,"pair":{},"swap":{}}] with [N] a
    decimal [uint64] without leading zeros, on which it agrees with
    [json.Unmarshal], and rejects every other row. *)

(** JSON text with ['] standing for the double quote. *)
Definition json (s : string) : row :=
  map (fun b => match b with x27 => x22 | _ => b end) (list_byte_of_string s).

Definition isDigit (b : byte) : bool :=
  let n := Byte.to_N b in (48 <=? n)%N && (n <=? 57)%N.

Fixpoint readDigits (acc : Z) (l : row) : Z * row :=
  match l with
  | b :: rest =>
      if isDigit b
      then readDigits (acc * 10 + (Z.of_N (Byte.to_N b) - 48)) rest
      else (acc, l)
  | [] => (acc, [])
  end.

Fixpoint stripPrefix (p l : row) : option row :=
  match p, l with
  | [], _ => Some l
  | a :: p', b :: l' => if Byte.eqb a b then stripPrefix p' l' else None
  | _ :: _, [] => None
  end.

Definition rowEqb (a b : row) : bool :=
  match stripPrefix a b with
  | Some [] => true
  | _ => false
  end.

Definition sampleUnmarshal (dataRow : row) : option DataFormat :=
  match stripPrefix (json "{'slot':") dataRow with
  | None => None
  | Some rest =>
      match rest with
      | [] => None
      | d :: more =>
          if isDigit d && negb (Byte.eqb d x30 && existsb isDigit (firstn 1 more))
          then
            let (n, tail) := readDigits 0 rest in
            if 2 ^ 64 <=? n then None
            else if rowEqb (json "}") tail
              then Some {| Slot := n; Pair := None; Swap := None |}
            else if rowEqb (json ",'pair':{}}") tail
              then Some {| Slot := n; Pair := Some tt; Swap := None |}
            else if rowEqb (json ",'swap':{}}") tail
              then Some {| Slot := n; Pair := None; Swap := Some tt |}
            else if rowEqb (json ",'pair':{},'swap':{}}") tail
              then Some {| Slot := n; Pair := Some tt; Swap := Some tt |}
            else None
          else None
      end
  end.

(** ** Subscriptions: the message loop of [Execute] *)

(** The reply [{"id":%d,"result":{"subscription_id":%d}}]. *)
Record Reply : Type := mkReply {
  replyID : Z;
  subscription_id : Z
}.

(** One pass through the [switch] for a subscribe or unknown method
    (lines 125-143).  [written] tells whether [c.WriteMessage] succeeded:
    when it fails the [break] leaves the switch before [nextSubID++]. *)
Definition handle (o : SimulateTask) (jsonrpc : JSONRPC) (written : bool)
  : SimulateTask * list Reply :=
  if String.eqb (Method jsonrpc) MethodNewPairSubscribe then
    let o1 := {| nextSubID := nextSubID o; pairsSubID := nextSubID o;
                 swapsSubID := swapsSubID o |} in
    if written
    then ({| nextSubID := uint64 (nextSubID o1 + 1);
             pairsSubID := pairsSubID o1; swapsSubID := swapsSubID o1 |},
          [ {| replyID := ID jsonrpc; subscription_id := pairsSubID o1 |} ])
    else (o1, [])
  else if String.eqb (Method jsonrpc) MethodSwapSubscribe then
    let o1 := {| nextSubID := nextSubID o; pairsSubID := pairsSubID o;
                 swapsSubID := nextSubID o |} in
    if written
    then ({| nextSubID := uint64 (nextSubID o1 + 1);
             pairsSubID := pairsSubID o1; swapsSubID := swapsSubID o1 |},
          [ {| replyID := ID jsonrpc; subscription_id := swapsSubID o1 |} ])
    else (o1, [])
  else (o, []).

(** The read loop of the websocket handler (lines 86-144) on one
    connection, over the messages that were read and parsed, each with the
    outcome of the write it triggers: the replies sent, whether
    [startSimulation] arrived (the messages behind it are never read), and
    the task as the handler leaves it.  The task [o] is the one value
    [NewSimulateTask] built in [main]; the handler closes over it, so it is
    shared by all the connections of the server and nothing resets it. *)
Fixpoint session (o : SimulateTask) (messages : list (JSONRPC * bool))
  : list Reply * bool * SimulateTask :=
  match messages with
  | [] => ([], false, o)
  | (jsonrpc, written) :: rest =>
      if String.eqb (Method jsonrpc) MethodStartSimulation
      then ([], true, o)
      else
        let (o', replies) := handle o jsonrpc written in
        let '(more, started, final) := session o' rest in
        (replies ++ more, started, final)
  end.

(** The messages the read loop of a connection gets to: those in front of
    the first [startSimulation]. *)
Fixpoint beforeStart (messages : list (JSONRPC * bool))
  : list (JSONRPC * bool) :=
  match messages with
  | [] => []
  | m :: rest =>
      if String.eqb (Method (fst m)) MethodStartSimulation then []
      else m :: beforeStart rest
  end.

(** A subscribe request whose reply the transport accepts, and the
    requests of that kind the read loop gets to. *)
Definition subscribeRequest (m : JSONRPC * bool) : bool :=
  (String.eqb (Method (fst m)) MethodNewPairSubscribe
   || String.eqb (Method (fst m)) MethodSwapSubscribe) && snd m.

Definition answered (messages : list (JSONRPC * bool))
  : list (JSONRPC * bool) :=
  filter subscribeRequest (beforeStart messages).

(** ** Sample inputs *)

(** A task with both categories subscribed, and one with none. *)
Definition bothSubscribed : SimulateTask :=
  {| nextSubID := 3; pairsSubID := 1; swapsSubID := 2 |}.

(** Two segments that overlap in time: the pair log holds key 1 in the
    first segment and key 2 in the second, the swap log key 4 in the first
    segment and key 5 in the second. *)
Definition overlappingArchive : list segment :=
  [ [ [ json "{'slot':1,'pair':{}}" ]; [ json "{'slot':4,'swap':{}}" ] ];
    [ [ json "{'slot':2,'pair':{}}" ]; [ json "{'slot':5,'swap':{}}" ] ] ].

(** Two segments in temporal order; the first has three logs, one of them
    empty. *)
Definition orderedArchive : list segment :=
  [ [ [ json "{'slot':1,'pair':{}}"; json "{'slot':3,'pair':{}}" ];
      [ json "{'slot':2,'swap':{}}"; json "{'slot':2,'swap':{}}";
        json "{'slot':4,'swap':{}}" ];
      [] ];
    [ [ json "{'slot':5,'pair':{}}" ];
      [ json "{'slot':4,'swap':{}}" ] ] ].

(** A stream whose first line is cut short, and a stream whose producer
    has sent nothing and will never close the channel. *)
Definition corruptStream : stream :=
  {| dataChan := streamFromFile [ json "{'slot':" ];
     buffer := []; done := false |}.

Definition stalledStream : stream :=
  {| dataChan := {| queued := []; closes := false |};
     buffer := []; done := false |}.

(** A stream whose producer sends one record and then stalls. *)
Definition stallingStream : stream :=
  {| dataChan := {| queued := [ json "{'slot':2,'swap':{}}" ]; closes := false |};
     buffer := []; done := false |}.

(** An archive with a line cut short in its first log. *)
Definition corruptArchive : list segment :=
  [ [ [ json "{'slot':1,'pair':{}}"; json "{'slot':3,'pa";
        json "{'slot':4,'pair':{}}" ];
      [ json "{'slot':1,'swap':{}}"; json "{'slot':2,'swap':{}}";
        json "{'slot':5,'swap':{}}" ] ] ].

(** A segment whose first log starts at key 0. *)
Definition zeroStartSegment : segment :=
  [ [ json "{'slot':0,'pair':{}}"; json "{'slot':2,'pair':{}}" ];
    [ json "{'slot':5,'swap':{}}" ] ].

(** A record with both discriminators set. *)
Definition bothLine : row := json "{'slot':7,'pair':{},'swap':{}}".

(** A segment whose first log has an empty line between two records. *)
Definition emptyLineSegment : segment :=
  [ [ json "{'slot':1,'pair':{}}"; []; json "{'slot':3,'pair':{}}" ];
    [ json "{'slot':1,'swap':{}}"; json "{'slot':3,'swap':{}}" ] ].

(** ** Directory listings: [getDataFiles] *)

(** What the code reads of an [os.DirEntry]. *)
Record DirEntry : Type := mkDirEntry {
  Name : string;
  IsDir : bool
}.

(** [len(v.Name()) < 4 || v.Name()[len(v.Name())-4:] != ".zip"] *)
Definition notZip (name : string) : bool :=
  (String.length name <? 4)%nat
  || negb (String.eqb (substring (String.length name - 4) 4 name) ".zip").

(** [getDataFiles], of [SimulateTask] and of [ReduceTask] alike (the two
    bodies are the same), over the entries [os.ReadDir] returned. *)
Fixpoint getDataFiles (files : list DirEntry) : list string :=
  match files with
  | [] => []
  | v :: rest =>
      if IsDir v then getDataFiles rest
      else if notZip (Name v) then getDataFiles rest
      else Name v :: getDataFiles rest
  end.

(** ** The download task *)

Module Download.

(** [getCurrentFiles]: the names of the archives already in the output
    directory, without their extension. *)
Fixpoint getCurrentFiles (files : list DirEntry) : list string :=
  match files with
  | [] => []
  | v :: rest =>
      if IsDir v then getCurrentFiles rest
      else if notZip (Name v) then getCurrentFiles rest
      else substring 0 (String.length (Name v) - 4) (Name v)
           :: getCurrentFiles rest
  end.

(** [inSlice] *)
Fixpoint inSlice (slice : list string) (item : string) : bool :=
  match slice with
  | [] => false
  | v :: rest => if String.eqb v item then true else inSlice rest item
  end.

(** Lines 110-117 of [Execute]: the files left to download. *)
Fixpoint filesToDownload (currentFiles files : list string) : list string :=
  match files with
  | [] => []
  | file :: rest =>
      if inSlice currentFiles file then filesToDownload currentFiles rest
      else file :: filesToDownload currentFiles rest
  end.

(** The path [downloadFile] writes an archive to, inside the output
    directory: [fileName+".zip"]. *)
Definition downloadedName (fileName : string) : string :=
  (fileName ++ ".zip")%string.

(** [time.Hour], in nanoseconds.  An instant ([time.Time]) is the number
    of nanoseconds since an epoch; [Before] is [<] and [Add] is [+]. *)
Definition Hour : Z := 3600 * 1000000000.

(** The loop of [generateListOfArchiveFiles] from instant [t];
    [format t] is [t.Format(archiveZipFileTimeFormat)]. *)
Fixpoint generateLoop (fuel : nat) (format : Z -> string) (t to : Z)
  : list string :=
  match fuel with
  | O => []
  | S fuel' =>
      if t <? to then format t :: generateLoop fuel' format (t + Hour) to
      else []
  end.

(** [generateListOfArchiveFiles], with a budget of iterations the loop does
    not exhaust. *)
Definition generateListOfArchiveFiles (format : Z -> string) (from to : Z)
  : list string :=
  generateLoop (Z.to_nat ((to - from) / Hour + 1)) format from to.

(** The number of hours begun between two instants. *)
Definition hoursBegun (from to : Z) : nat :=
  Z.to_nat ((to - from + Hour - 1) / Hour).

(** [DownloadTask.params] *)
Record params : Type := mkParams {
  apiKey : string;
  apiEndpoint : string;
  orderID : Z;
  fileName : string;
  concurrency : Z;
  outputDir : string;
  isLocalEndpoint : bool
}.

(** [validateParams]: the parameters as it leaves them, and the error it
    returns, if any. *)
Definition validateParams (p : params) : params * option string :=
  if String.eqb (apiKey p) EmptyString then (p, Some "missing API key"%string)
  else if (orderID p =? 0) && String.eqb (fileName p) EmptyString
  then (p, Some "missing order ID or file name"%string)
  else
    let outputDir1 :=
      if String.eqb (outputDir p) EmptyString then "."%string
      else outputDir p in
    let apiEndpoint1 :=
      if isLocalEndpoint p then "http://localhost:8000"%string
      else "https://api.solanastreaming.com"%string in
    let concurrency1 := if concurrency p =? 0 then 1 else concurrency p in
    let p1 := {| apiKey := apiKey p; apiEndpoint := apiEndpoint1;
                 orderID := orderID p; fileName := fileName p;
                 concurrency := concurrency1; outputDir := outputDir1;
                 isLocalEndpoint := isLocalEndpoint p |} in
    if 10 <? concurrency1 then (p1, Some "concurrency limit is 10"%string)
    else (p1, None).

End Download.

(** ** The reduce task *)

Module Reduce.

(** [solana.PublicKey], an array of 32 bytes, and its zero value. *)
Definition PublicKey : Type := list byte.
Definition zeroKey : PublicKey := repeat x00 32.

(** [PublicKey.Equals] *)
Fixpoint Equals (a b : PublicKey) : bool :=
  match a, b with
  | [], [] => true
  | x :: a', y :: b' => Byte.eqb x y && Equals a' b'
  | _, _ => false
  end.

(** [EventRow] and the two structs it points to. *)
Record PairStruct : Type := mkPair {
  pairAmmAccount : string;
  pairBaseTokenAccount : string
}.

Record SwapStruct : Type := mkSwap {
  swapAmmAccount : string;
  swapBaseTokenMint : string;
  swapWalletAccount : string
}.

Record EventRow : Type := mkEventRow {
  Slot : Z;
  Sig : string;
  Pair : option PairStruct;
  Swap : option SwapStruct
}.

(** The address lists of [ReduceTask], and the three parameters they are
    read from. *)
Record ReduceTask : Type := mkReduceTask {
  amms : list PublicKey;
  baseTokenMints : list PublicKey;
  wallets : list PublicKey
}.

Record params : Type := mkParams {
  paramAmms : string;
  paramBaseTokenMints : string;
  paramWallets : string
}.

(** [NewReduceTask] *)
Definition NewReduceTask : ReduceTask :=
  {| amms := []; baseTokenMints := []; wallets := [] |}.

(** [strings.Split(s, ",")] *)
Fixpoint splitComma (s : string) : list string :=
  match s with
  | EmptyString => [EmptyString]
  | String a rest =>
      match splitComma rest with
      | cur :: more =>
          if Ascii.eqb a ","%char then EmptyString :: cur :: more
          else String a cur :: more
      | [] => []
      end
  end.

Section Task.

(** [solana.PublicKeyFromBase58]: the key it returns, also when it
    returns an error (which the filter only logs). *)
Variable PublicKeyFromBase58 : string -> PublicKey.

(** [solana.MustPublicKeyFromBase58]: [None] when it panics. *)
Variable MustPublicKeyFromBase58 : string -> option PublicKey.

(** [json.Unmarshal(row, &eventRow)] with [eventRow := EventRow{}]. *)
Variable unmarshalEvent : row -> option EventRow.

(** One of the three loops of [processParams] over the fields of a
    parameter. *)
Fixpoint appendKeys (keys : list PublicKey) (fields : list string)
  : option (list PublicKey) :=
  match fields with
  | [] => Some keys
  | v :: rest =>
      if String.eqb v EmptyString then appendKeys keys rest
      else match MustPublicKeyFromBase58 v with
           | None => None
           | Some k => appendKeys (keys ++ [k]) rest
           end
  end.

(** [processParams]; [None] when [MustPublicKeyFromBase58] panics. *)
Definition processParams (p : params) (o : ReduceTask) : option ReduceTask :=
  match appendKeys (amms o) (splitComma (paramAmms p)) with
  | None => None
  | Some amms1 =>
      match appendKeys (baseTokenMints o) (splitComma (paramBaseTokenMints p)) with
      | None => None
      | Some mints1 =>
          match appendKeys (wallets o) (splitComma (paramWallets p)) with
          | None => None
          | Some wallets1 =>
              Some {| amms := amms1; baseTokenMints := mints1;
                      wallets := wallets1 |}
          end
      end
  end.

(** The keys the filter reads off a row: [amm], [wallet], [baseTokenMint]
    (lines 256-280). *)
Definition rowKeys (eventRow : EventRow) : PublicKey * PublicKey * PublicKey :=
  match Pair eventRow with
  | Some pairRow =>
      (PublicKeyFromBase58 (pairAmmAccount pairRow), zeroKey,
       PublicKeyFromBase58 (pairBaseTokenAccount pairRow))
  | None =>
      match Swap eventRow with
      | Some swapRow =>
          (PublicKeyFromBase58 (swapAmmAccount swapRow),
           PublicKeyFromBase58 (swapWalletAccount swapRow),
           PublicKeyFromBase58 (swapBaseTokenMint swapRow))
      | None => (zeroKey, zeroKey, zeroKey)
      end
  end.

(** [for _, v := range keys { if v.Equals(k) { return true } }] *)
Fixpoint anyEquals (keys : list PublicKey) (k : PublicKey) : bool :=
  match keys with
  | [] => false
  | v :: rest => if Equals v k then true else anyEquals rest k
  end.

(** The function [makeFilterFunc] returns. *)
Definition filterFunc (o : ReduceTask) (eventRow : EventRow) : bool :=
  let '(amm, wallet, baseTokenMint) := rowKeys eventRow in
  if negb (Nat.eqb (length (amms o)) 0) && anyEquals (amms o) amm then true
  else if negb (Nat.eqb (length (baseTokenMints o)) 0)
          && anyEquals (baseTokenMints o) baseTokenMint then true
  else if negb (Nat.eqb (length (wallets o)) 0)
          && anyEquals (wallets o) wallet then true
  else false.

(** Lines 189-205 of [processFile]: the lines of one unzipped file that
    are written to the filtered file, each followed by a newline; [None]
    is the error "cant unmarshal event". *)
Fixpoint filterLines (o : ReduceTask) (lines : logfile) : option logfile :=
  match lines with
  | [] => Some []
  | dataRow :: rest =>
      match unmarshalEvent dataRow with
      | None => None
      | Some eventRow =>
          match filterLines o rest with
          | None => None
          | Some kept =>
              Some (if filterFunc o eventRow then dataRow :: kept else kept)
          end
      end
  end.

(** [processFile] on the unzipped files of one archive: the files of the
    filtered archive, under the same names and in the same order. *)
Fixpoint processFile (o : ReduceTask) (unzippedFiles : segment)
  : option segment :=
  match unzippedFiles with
  | [] => Some []
  | lines :: rest =>
      match filterLines o lines with
      | None => None
      | Some kept =>
          match processFile o rest with
          | None => None
          | Some more => Some (kept :: more)
          end
      end
  end.

(** The lines of a log the filter keeps. *)
Definition keeps (o : ReduceTask) (dataRow : row) : bool :=
  match unmarshalEvent dataRow with
  | Some eventRow => filterFunc o eventRow
  | None => false
  end.

End Task.

End Reduce.

(** ** Subscriptions between two messages *)

(** The state of the subscriptions between two messages of a session
    whose replies, so far, carried the ids [seen]: the ids in use are
    below the next one, differ from one category to the other, and were
    sent in a reply. *)
Definition announced (o : SimulateTask) (seen : list Z) : Prop :=
  0 < nextSubID o /\
  0 <= pairsSubID o < nextSubID o /\ 0 <= swapsSubID o < nextSubID o /\
  (pairsSubID o <> 0 -> pairsSubID o <> swapsSubID o) /\
  (pairsSubID o <> 0 -> In (pairsSubID o) seen) /\
  (swapsSubID o <> 0 -> In (swapsSubID o) seen).

(** ** Sample inputs of the reduce task *)

(** A reader of base58 text for sample addresses: the value of the text in
    base 58 and the bytes it stands for, most significant first, with one
    zero byte for each leading [1].  A text that is not base58, or not of
    32 bytes, is no key: [PublicKeyFromBase58] then returns the zero key
    with its error. *)
Definition base58Alphabet : string :=
  "123456789ABCDEFGHJKLMNPQRSTUVWXYZabcdefghijkmnopqrstuvwxyz".

Fixpoint base58Value (acc : Z) (s : string) : option Z :=
  match s with
  | EmptyString => Some acc
  | String a rest =>
      match index 0 (String a EmptyString) base58Alphabet with
      | Some i => base58Value (acc * 58 + Z.of_nat i) rest
      | None => None
      end
  end.

Fixpoint leadingOnes (s : string) : nat :=
  match s with
  | String a rest => if Ascii.eqb a "1"%char then S (leadingOnes rest) else 0
  | EmptyString => 0
  end.

Fixpoint littleEndian (n : nat) (z : Z) : list byte :=
  match n with
  | O => []
  | S n' =>
      match Byte.of_N (Z.to_N (z mod 256)) with
      | Some b => b
      | None => x00
      end :: littleEndian n' (z / 256)
  end.

Definition byteLength (z : Z) : nat :=
  if z =? 0 then 0%nat else S (Z.to_nat (Z.log2 z / 8)).

Definition sampleMustPublicKeyFromBase58 (s : string)
  : option Reduce.PublicKey :=
  match base58Value 0 s with
  | Some v =>
      if Nat.eqb (leadingOnes s + byteLength v) 32
      then Some (rev (littleEndian 32 v))
      else None
  | None => None
  end.

Definition samplePublicKeyFromBase58 (s : string) : Reduce.PublicKey :=
  match sampleMustPublicKeyFromBase58 s with
  | Some k => k
  | None => Reduce.zeroKey
  end.

(** A decoder for sample event lines.  It accepts the lines
    [{"slot":N,"pair":{"ammAccount":"A","baseToken":{"account":"B"}}}] and
    [{"slot":N,"swap":{"ammAccount":"A","baseTokenMint":"B","walletAccount":"W"}}]
    with [N] a decimal [uint64] without leading zeros and [A], [B], [W]
    text without quotes or escapes, on which it agrees with
    [json.Unmarshal], and rejects every other row. *)
Fixpoint readText (l : row) : option (string * row) :=
  match l with
  | [] => None
  | b :: rest =>
      if Byte.eqb b x22 then Some (EmptyString, rest)
      else match readText rest with
           | Some (s, tail) => Some (String (ascii_of_byte b) s, tail)
           | None => None
           end
  end.

Definition readField (name : string) (l : row) : option (string * row) :=
  match stripPrefix (json name) l with
  | Some rest => readText rest
  | None => None
  end.

Definition readSlot (dataRow : row) : option (Z * row) :=
  match stripPrefix (json "{'slot':") dataRow with
  | Some (d :: more) =>
      if isDigit d && negb (Byte.eqb d x30 && existsb isDigit (firstn 1 more))
      then
        let (n, tail) := readDigits 0 (d :: more) in
        if 2 ^ 64 <=? n then None else Some (n, tail)
      else None
  | _ => None
  end.

Definition readPair (l : row) : option Reduce.PairStruct :=
  match readField ",'pair':{'ammAccount':'" l with
  | Some (amm, l1) =>
      match readField ",'baseToken':{'account':'" l1 with
      | Some (base, l2) =>
          if rowEqb (json "}}}") l2 then Some (Reduce.mkPair amm base)
          else None
      | None => None
      end
  | None => None
  end.

Definition readSwap (l : row) : option Reduce.SwapStruct :=
  match readField ",'swap':{'ammAccount':'" l with
  | Some (amm, l1) =>
      match readField ",'baseTokenMint':'" l1 with
      | Some (mint, l2) =>
          match readField ",'walletAccount':'" l2 with
          | Some (wallet, l3) =>
              if rowEqb (json "}}") l3
              then Some (Reduce.mkSwap amm mint wallet)
              else None
          | None => None
          end
      | None => None
      end
  | None => None
  end.

Definition sampleEvent (dataRow : row) : option Reduce.EventRow :=
  match readSlot dataRow with
  | Some (n, tail) =>
      match readPair tail with
      | Some pairRow =>
          Some (Reduce.mkEventRow n EmptyString (Some pairRow) None)
      | None =>
          match readSwap tail with
          | Some swapRow =>
              Some (Reduce.mkEventRow n EmptyString None (Some swapRow))
          | None => None
          end
      end
  | None => None
  end.

(** The same lines as the replay decodes them, into a [DataFormat]: the
    fields of the pair and of the swap are ignored. *)
Definition sampleEventFormat (dataRow : row) : option DataFormat :=
  match sampleEvent dataRow with
  | Some eventRow =>
      Some {| Slot := Reduce.Slot eventRow;
              Pair := match Reduce.Pair eventRow with
                      | Some _ => Some tt
                      | None => None
                      end;
              Swap := match Reduce.Swap eventRow with
                      | Some _ => Some tt
                      | None => None
                      end |}
  | None => None
  end.

(** An archive of two files, each with a log of pairs and a log of swaps,
    and the task that keeps the events of one AMM. *)
Definition pairLine (slot amm base : string) : row :=
  json ("{'slot':" ++ slot ++ ",'pair':{'ammAccount':'" ++ amm
        ++ "','baseToken':{'account':'" ++ base ++ "'}}}").

Definition swapLine (slot amm mint wallet : string) : row :=
  json ("{'slot':" ++ slot ++ ",'swap':{'ammAccount':'" ++ amm
        ++ "','baseTokenMint':'" ++ mint ++ "','walletAccount':'" ++ wallet
        ++ "'}}").

Definition raydiumAmm : string := "675kPX9MHTjS2zt1qfr1NYHuzeLXfQM9H24wFSUt1Mp8".
Definition otherAmm : string := "TokenkegQfeZyiNwAJbNbGKPFXCWuBvf9Ss623VQ5DA".
Definition wrappedSol : string := "So11111111111111111111111111111111111111112".
Definition usdcMint : string := "EPjFWdd5AufqSSqeM2qN1xzybapC8G4wEGGkZwyTDt1v".
Definition systemProgram : string := "11111111111111111111111111111111".

Definition accountArchive : list segment :=
  [ [ [ pairLine "1" raydiumAmm wrappedSol; pairLine "3" otherAmm usdcMint ];
      [ swapLine "2" otherAmm usdcMint systemProgram;
        swapLine "2" raydiumAmm wrappedSol systemProgram;
        swapLine "4" raydiumAmm usdcMint systemProgram ] ];
    [ [ pairLine "5" otherAmm wrappedSol ];
      [ swapLine "4" raydiumAmm wrappedSol systemProgram;
        swapLine "6" otherAmm wrappedSol systemProgram ] ] ].

Definition raydiumOnly : Reduce.ReduceTask :=
  {| Reduce.amms := [ samplePublicKeyFromBase58 raydiumAmm ];
     Reduce.baseTokenMints := []; Reduce.wallets := [] |}.

Definition raydiumArchive : list segment :=
  [ [ [ pairLine "1" raydiumAmm wrappedSol ];
      [ swapLine "2" raydiumAmm wrappedSol systemProgram;
        swapLine "4" raydiumAmm usdcMint systemProgram ] ];
    [ [];
      [ swapLine "4" raydiumAmm wrappedSol systemProgram ] ] ].

(** ** The replay *)

Section Replay.

(** [json.Unmarshal(dataRow, &data)] with [data := DataFormat{}]: the
    decoded value, or [None] when it returns an error. *)
Variable unmarshal : row -> option DataFormat.

(** The temporal key of a row (0 for a row that does not decode). *)
Definition key (dataRow : row) : Z :=
  match unmarshal dataRow with
  | Some data => Slot data
  | None => 0
  end.

(** Lines 245-257 of [RunSimulation]: the envelopes posted for a decoded
    row.  The variable [ev] is shared by the two branches. *)
Definition post (o : SimulateTask) (dataRow : row) (data : DataFormat)
  : list JSONRPC :=
  let ev := emptyJSONRPC in
  let '(ev, sent1) :=
    if negb (pairsSubID o =? 0) && notNil (Pair data) then
      let ev' := {| ID := ID ev; SubscriptionID := pairsSubID o;
                    Method := "newPairNotification"; Params := dataRow |} in
      (ev', [ev'])
    else (ev, []) in
  let '(_, sent2) :=
    if negb (swapsSubID o =? 0) && notNil (Swap data) then
      let ev' := {| ID := ID ev; SubscriptionID := swapsSubID o;
                    Method := "swapNotification"; Params := dataRow |} in
      (ev', [ev'])
    else (ev, []) in
  sent1 ++ sent2.

(** What one iteration of the inner loop (lines 225-241) decides about the
    row it looks at. *)
Inductive verdict : Type :=
| Sentinel                   (* len(dataRow) == 0 *)
| Corrupt                    (* json.Unmarshal returned an error *)
| Future                     (* data.Slot > slot *)
| Due (data : DataFormat).   (* the row is posted *)

Definition classify (slot : Z) (dataRow : row) : verdict :=
  match dataRow with
  | [] => Sentinel
  | _ :: _ =>
      match unmarshal dataRow with
      | None => Corrupt
      | Some data => if slot <? Slot data then Future else Due data
      end
  end.

(** The inner [for] of stream [i] once [buffers[i]] is empty: every
    iteration receives from the channel. *)
Fixpoint drainChan (o : SimulateTask) (slot : Z)
    (pending : list row) (closing : bool) (isDone : bool) : run stream :=
  match pending with
  | [] =>
      if closing
      then ret {| dataChan := {| queued := []; closes := closing |};
                  buffer := []; done := true |}
      else ([], Blocked)
  | dataRow :: rest =>
      match classify slot dataRow with
      | Sentinel =>
          ret {| dataChan := {| queued := rest; closes := closing |};
                 buffer := []; done := true |}
      | Corrupt => ([], CantUnmarshal slot)
      | Future =>
          ret {| dataChan := {| queued := rest; closes := closing |};
                 buffer := dataRow; done := isDone |}
      | Due data =>
          send (post o dataRow data) (drainChan o slot rest closing isDone)
      end
  end.

(** The inner [for] of stream [i] (lines 217-259): the buffered row is
    used before the channel.  (A buffered row is not empty, so its verdict
    is never [Sentinel].) *)
Definition drain (o : SimulateTask) (slot : Z) (s : stream) : run stream :=
  match buffer s with
  | [] =>
      drainChan o slot (queued (dataChan s)) (closes (dataChan s)) (done s)
  | _ :: _ =>
      match classify slot (buffer s) with
      | Sentinel =>
          ret {| dataChan := dataChan s; buffer := buffer s; done := true |}
      | Corrupt => ([], CantUnmarshal slot)
      | Future =>
          ret {| dataChan := dataChan s; buffer := buffer s; done := done s |}
      | Due data =>
          send (post o (buffer s) data)
               (drainChan o slot (queued (dataChan s)) (closes (dataChan s))
                          (done s))
      end
  end.

(** One cursor tick: [for i, dataChan := range dataChans] (lines 216-260). *)
Fixpoint tick (o : SimulateTask) (slot : Z) (streams : list stream)
  : run (list stream) :=
  match streams with
  | [] => ret []
  | s :: rest =>
      s' <- drain o slot s ;;
      rest' <- tick o slot rest ;;
      ret (s' :: rest')
  end.

(** Lines 263-266: [done := true; for _, v := range dones { done = done && v }]. *)
Definition allDone (streams : list stream) : bool :=
  fold_left (fun acc v => acc && v) (map done streams) true.

(** The outer [for] of a segment (lines 215-271); it returns the cursor
    and the streams with which it exits. *)
Fixpoint mergeLoop (fuel : nat) (o : SimulateTask) (slot : Z)
    (streams : list stream) : run (Z * list stream) :=
  match fuel with
  | O => ([], OutOfFuel)
  | S fuel' =>
      streams' <- tick o slot streams ;;
      if allDone streams' then ret (slot, streams')
      else mergeLoop fuel' o (uint64 (slot + 1)) streams'
  end.

(** [getStartingSlot]: the loop over the unzipped files, reading the first
    line of each, on files the scanner reads without error
    ([scanner.Err()] is nil, lines 368-370); [scanStartingSlotFrom] below
    has the other case. *)
Fixpoint getStartingSlotFrom (startingSlot : Z) (unzippedFiles : segment)
  : option Z :=
  match unzippedFiles with
  | [] => Some startingSlot
  | file :: rest =>
      match file with
      | [] => getStartingSlotFrom startingSlot rest
      | dataRow :: _ =>
          match unmarshal dataRow with
          | None => None
          | Some data =>
              getStartingSlotFrom
                (if (Slot data <? startingSlot) || (startingSlot =? 0)
                 then Slot data else startingSlot)
                rest
          end
      end
  end.

Definition getStartingSlot (unzippedFiles : segment) : option Z :=
  getStartingSlotFrom 0 unzippedFiles.

(** Lines 204-214: a channel per unzipped file, empty buffers, no stream
    done. *)
Definition openStreams (unzippedFiles : segment) : list stream :=
  map (fun lines => {| dataChan := streamFromFile lines;
                       buffer := []; done := false |}) unzippedFiles.

(** The loop [for dataFileNum, v := range dataFiles] of [RunSimulation];
    [fuel] bounds the number of ticks of each segment. *)
Fixpoint runSegments (fuel : nat) (o : SimulateTask) (dataFileNum : nat)
    (slot : Z) (dataFiles : list segment) : run Z :=
  match dataFiles with
  | [] => ret slot
  | unzippedFiles :: rest =>
      slot1 <- (if Nat.eqb dataFileNum 0
                then match getStartingSlot unzippedFiles with
                     | Some s => ret s
                     | None => ([], CantUnmarshal 0)
                     end
                else ret slot) ;;
      r <- mergeLoop fuel o slot1 (openStreams unzippedFiles) ;;
      runSegments fuel o (S dataFileNum) (fst r) rest
  end.

(** [RunSimulation]: [slot := uint64(0)], then the segments in order.  The
    result is the final value of [slot] (the code logs [slot-1] and
    returns nil). *)
Definition RunSimulation (fuel : nat) (o : SimulateTask)
    (dataFiles : list segment) : run Z :=
  runSegments fuel o 0 0 dataFiles.

(** [Execute]: the connections the server accepts, served one after the
    other by the handler, each from the task as the connection before left
    it.  A connection yields the replies to its subscribe requests and,
    when the client starts the simulation, the run of [RunSimulation] with
    the subscriptions the task holds at that moment. *)
Fixpoint serve (fuel : nat) (dataFiles : list segment) (o : SimulateTask)
    (connections : list (list (JSONRPC * bool)))
  : list (list Reply * option (run Z)) :=
  match connections with
  | [] => []
  | messages :: rest =>
      let '(replies, started, o') := session o messages in
      (replies,
       if started then Some (RunSimulation fuel o' dataFiles) else None)
      :: serve fuel dataFiles o' rest
  end.

Definition Execute (fuel : nat) (dataFiles : list segment)
    (connections : list (list (JSONRPC * bool)))
  : list (list Reply * option (run Z)) :=
  serve fuel dataFiles NewSimulateTask connections.

(** ** Vocabulary of the statements *)

(** Every decoded [Slot] is a [uint64]. *)
Definition uint64Decoder : Prop :=
  forall dataRow data, unmarshal dataRow = Some data -> 0 <= Slot data < 2 ^ 64.

(** A line that is a record: not empty, and it decodes. *)
Definition isRecord (dataRow : row) : Prop :=
  dataRow <> [] /\ unmarshal dataRow <> None.

(** A line [json.Unmarshal] rejects although it is not empty. *)
Definition isMalformed (dataRow : row) : Prop :=
  dataRow <> [] /\ unmarshal dataRow = None.

(** The rows a stream still holds: its lookahead buffer, then what its
    channel will deliver. *)
Definition rowsOf (s : stream) : list row :=
  match buffer s with
  | [] => queued (dataChan s)
  | _ :: _ => buffer s :: queued (dataChan s)
  end.

(** The largest temporal key among rows, not below [c]. *)
Definition lastSlot (c : Z) (rows : list row) : Z :=
  fold_left Z.max (map key rows) c.

(** The envelopes posted for a list of rows read in that order. *)
Definition postAll (o : SimulateTask) (rows : list row) : list JSONRPC :=
  flat_map (fun dataRow =>
              match unmarshal dataRow with
              | Some data => post o dataRow data
              | None => []
              end) rows.

(** The temporal key of the record an envelope carries. *)
Definition envelopeKey (ev : JSONRPC) : Z := key (Params ev).

(** The order of emission as the specification words it: cursor values in
    increasing order; at one cursor value the streams in their declared
    order; within a stream the records with that key in their original
    order. *)
Definition due (k : Z) (log : logfile) : list row :=
  filter (fun dataRow => key dataRow =? k) log.

Definition emittedAt (k : Z) (logs : segment) : list row :=
  flat_map (due k) logs.

Definition slotRange (c : Z) (n : nat) : list Z :=
  map (fun i => c + Z.of_nat i) (seq 0 n).

Definition replayOrder (c : Z) (n : nat) (logs : segment) : list row :=
  flat_map (fun k => emittedAt k logs) (slotRange c n).

(** The number of ticks of a segment entered at cursor [c], and the order
    of emission of a whole archive: segment after segment, each entered at
    the cursor the one before was left at. *)
Definition ticksOf (c : Z) (logs : segment) : nat :=
  S (Z.to_nat (lastSlot c (concat logs) - c)).

Fixpoint archiveOrder (c : Z) (dataFiles : list segment) : list row :=
  match dataFiles with
  | [] => []
  | logs :: rest =>
      replayOrder c (ticksOf c logs) logs
      ++ archiveOrder (lastSlot c (concat logs)) rest
  end.

(** What a stream is left as once the rows [rest] remain of it. *)
Definition resume (rest : list row) (isDone : bool) : stream :=
  match rest with
  | [] => {| dataChan := {| queued := []; closes := true |};
             buffer := []; done := true |}
  | dataRow :: q => {| dataChan := {| queued := q; closes := true |};
                       buffer := dataRow; done := isDone |}
  end.

(** Hypotheses on archives. *)
Definition recordsOnly (logs : segment) : Prop :=
  Forall (Forall isRecord) logs.

Definition sortedLogs (logs : segment) : Prop :=
  Forall (fun log => Sorted Z.le (map key log)) logs.

(** The first line of every log that has one, and the least of their
    keys (0 when every log is empty). *)
Definition firstRows (logs : segment) : list row :=
  flat_map (firstn 1) logs.

Definition leastKey (rows : list row) : Z :=
  match rows with
  | [] => 0
  | dataRow :: more => fold_left Z.min (map key more) (key dataRow)
  end.

Definition initialSlot (dataFiles : list segment) : Z :=
  match dataFiles with
  | [] => 0
  | logs :: _ => leastKey (firstRows logs)
  end.

(** No log begins with a record of key 0. *)
Definition noZeroStart (logs : segment) : Prop :=
  Forall (fun dataRow => key dataRow <> 0) (firstRows logs).

(** The cursor after the segments, entered at [c]. *)
Definition endSlot (c : Z) (dataFiles : list segment) : Z :=
  fold_left (fun slot logs => lastSlot slot (concat logs)) dataFiles c.

(** Segments in temporal order: no key of a segment exceeds a key of a
    later segment. *)
Fixpoint temporalOrder (dataFiles : list segment) : Prop :=
  match dataFiles with
  | [] => True
  | logs :: rest =>
      (forall a b, In a (concat logs) -> In b (concat (concat rest)) ->
                   key a <= key b)
      /\ temporalOrder rest
  end.

(** A stream that never yields a zero-length row: its producer neither
    closes the channel nor sends an empty line, and it is not done. *)
Definition neverYields (s : stream) : Prop :=
  closes (dataChan s) = false /\ done s = false /\ ~ In [] (rowsOf s).

(** An envelope a subscription of the task can get for a row: the method
    of a category, the id of the live subscription to that category, and a
    row whose discriminator for that category is not nil. *)
Definition envelopeFor (o : SimulateTask) (ev : JSONRPC) : Prop :=
  exists data,
    unmarshal (Params ev) = Some data /\
    ((Method ev = "newPairNotification"%string /\ SubscriptionID ev = pairsSubID o
      /\ pairsSubID o <> 0 /\ Pair data <> None)
     \/
     (Method ev = "swapNotification"%string /\ SubscriptionID ev = swapsSubID o
      /\ swapsSubID o <> 0 /\ Swap data <> None)).

(** A row the drain posts at cursor [c], and a row it keeps for later. *)
Definition dueRow (c : Z) (dataRow : row) : Prop :=
  dataRow <> [] /\
  exists data, unmarshal dataRow = Some data /\ Slot data <= c.

Definition futureRow (c : Z) (dataRow : row) : Prop :=
  dataRow <> [] /\
  exists data, unmarshal dataRow = Some data /\ c < Slot data.

(** The ways the drain of a stream stops without an error, with the rows
    it has not posted in front of it. *)
Inductive stopsAt (c : Z) (closing isDone : bool) : list row -> stream -> Prop :=
| stopClosed :
    closing = true ->
    stopsAt c closing isDone []
      {| dataChan := {| queued := []; closes := closing |};
         buffer := []; done := true |}
| stopSentinel rest :
    stopsAt c closing isDone ([] :: rest)
      {| dataChan := {| queued := rest; closes := closing |};
         buffer := []; done := true |}
| stopFuture dataRow rest :
    futureRow c dataRow ->
    stopsAt c closing isDone (dataRow :: rest)
      {| dataChan := {| queued := rest; closes := closing |};
         buffer := dataRow; done := isDone |}.


(** The largest temporal key the streams still hold (0 if they hold none). *)
Definition horizon (streams : list stream) : Z :=
  lastSlot 0 (flat_map rowsOf streams).

Definition closing (s : stream) : Prop := closes (dataChan s) = true.


(** The rows of a log beyond cursor [c], and a stream after a tick at [c]
    that ended without an error. *)
Definition later (c : Z) (rows : list row) : list row :=
  filter (fun dataRow => c <? key dataRow) rows.

Definition advance (c : Z) (s : stream) : stream :=
  resume (later c (rowsOf s)) (done s).

(** A stream of a well-formed segment when the cursor is [c]: its channel
    will be closed, it holds records only, in non-decreasing key order and
    none below the cursor, and it is done only when it holds nothing. *)
Definition healthy (c : Z) (s : stream) : Prop :=
  closing s /\ Forall isRecord (rowsOf s) /\
  StronglySorted Z.le (map key (rowsOf s)) /\
  Forall (fun dataRow => c <= key dataRow) (rowsOf s) /\
  (done s = true -> rowsOf s = []).




Definition holdsMalformed (rows : list row) : Prop :=
  exists bad, In bad rows /\ isMalformed bad.


(** A stream with nothing to post at cursor [c]: its lookahead buffer
    holds a record beyond the cursor, or it is exhausted (nothing held,
    channel closed, done). *)
Definition idleAt (c : Z) (s : stream) : Prop :=
  futureRow c (buffer s) \/
  (rowsOf s = [] /\ closes (dataChan s) = true /\ done s = true).

(** ** [getStartingSlot] and the line limit of the scanner

    [bufio.Scanner] returns a line only if the line and its newline fit
    its buffer, whose limit is [bufio.MaxScanTokenSize] (64 KiB); at a
    longer line [Scan] returns false and [scanner.Err()] is
    [bufio.ErrTooLong].  The replay above takes a file as the lines the
    scanner returns.  Here a file is the text of its lines as they stand
    between the newlines, of any length, and the verdict of the scanner is
    part of the function: lines 355 ([Scan]), 356 ([Bytes], the line
    without a trailing carriage return) and 368-370 ([Err]). *)
Definition MaxScanTokenSize : Z := 64 * 1024.

Definition tooLong (line : row) : bool :=
  MaxScanTokenSize <=? Z.of_nat (length line).

Definition dropCR (line : row) : row :=
  match rev line with
  | x0d :: front => rev front
  | _ => line
  end.

Inductive startingSlot : Type :=
| StartAt (slot : Z)      (* return startingSlot, nil *)
| StartCantUnmarshal      (* errors.Wrap(err, "cant unmarshal event") *)
| StartScanError.         (* return 0, err with err := scanner.Err() *)

Fixpoint scanStartingSlotFrom (slot : Z) (files : list (list row))
  : startingSlot :=
  match files with
  | [] => StartAt slot
  | file :: rest =>
      match file with
      | [] => scanStartingSlotFrom slot rest
      | line :: _ =>
          if tooLong line then StartScanError
          else
            match unmarshal (dropCR line) with
            | None => StartCantUnmarshal
            | Some data =>
                scanStartingSlotFrom
                  (if (Slot data <? slot) || (slot =? 0)
                   then Slot data else slot)
                  rest
            end
      end
  end.

Definition scanStartingSlot (files : list (list row)) : startingSlot :=
  scanStartingSlotFrom 0 files.

(** A first line the scanner returns and [json.Unmarshal] accepts. *)
Definition readable (line : row) : Prop :=
  tooLong line = false /\ unmarshal (dropCR line) <> None.

(** ** The output monad *)

Lemma send_pair {A} (evs l : list JSONRPC) (r : outcome A) :
  send evs (l, r) = (evs ++ l, r).
Proof. reflexivity. Qed.

Lemma send_nil {A} (k : run A) : send [] k = k.
Proof. destruct k; reflexivity. Qed.



(** ** The drain of one stream *)

Lemma allDone_forallb streams : allDone streams = forallb done streams.
Proof.
  unfold allDone.
  assert (G : forall l acc, fold_left (fun a v => a && v) (map done l) acc
                            = acc && forallb done l).
  { induction l as [|s l IH]; intros acc; simpl.
    - now rewrite andb_true_r.
    - rewrite IH. now rewrite andb_assoc. }
  now rewrite G.
Qed.

Lemma classify_nonempty c dataRow :
  dataRow <> [] ->
  classify c dataRow =
  match unmarshal dataRow with
  | None => Corrupt
  | Some data => if c <? Slot data then Future else Due data
  end.
Proof. destruct dataRow; [congruence | reflexivity]. Qed.

(** With a row in the buffer, the stream is drained as if the buffered
    row were at the head of its channel. *)
Lemma drain_rowsOf o c s :
  drain o c s = drainChan o c (rowsOf s) (closes (dataChan s)) (done s).
Proof.
  destruct s as [[q cl] b d]. unfold drain, rowsOf. simpl.
  destruct b as [|x b]; [reflexivity|].
  cbn [drainChan]. destruct (classify c (x :: b)) eqn:E; try reflexivity.
  unfold classify in E. destruct (unmarshal (x :: b)) as [data|]; [|discriminate].
  destruct (c <? Slot data); discriminate.
Qed.

Lemma postAll_app o l1 l2 : postAll o (l1 ++ l2) = postAll o l1 ++ postAll o l2.
Proof. unfold postAll. now rewrite flat_map_app. Qed.

Lemma classify_due c dataRow :
  dueRow c dataRow ->
  exists data, unmarshal dataRow = Some data /\ classify c dataRow = Due data.
Proof.
  intros [Hne (data & Hu & Hle)]. exists data. split; [assumption|].
  rewrite classify_nonempty by assumption. rewrite Hu.
  destruct (Z.ltb_spec c (Slot data)); [lia | reflexivity].
Qed.

Lemma classify_future c dataRow :
  futureRow c dataRow -> classify c dataRow = Future.
Proof.
  intros [Hne (data & Hu & Hlt)].
  rewrite classify_nonempty by assumption. rewrite Hu.
  destruct (Z.ltb_spec c (Slot data)); [reflexivity | lia].
Qed.

Lemma classify_cases c dataRow :
  match classify c dataRow with
  | Sentinel => dataRow = []
  | Corrupt => isMalformed dataRow
  | Future => futureRow c dataRow
  | Due data => dueRow c dataRow /\ unmarshal dataRow = Some data
  end.
Proof.
  destruct dataRow as [|b l]; [reflexivity|].
  assert (Hne : b :: l <> []) by discriminate.
  rewrite classify_nonempty by assumption.
  destruct (unmarshal (b :: l)) as [data|] eqn:Hu.
  - destruct (Z.ltb_spec c (Slot data)).
    + split; [assumption|]. exists data. auto.
    + split; [|reflexivity]. split; [assumption|]. exists data. auto.
  - split; assumption.
Qed.

(** The drain posts a prefix of due rows and then goes on with the rest. *)
Lemma drainChan_due_prefix o c closing isDone taken rest :
  Forall (dueRow c) taken ->
  drainChan o c (taken ++ rest) closing isDone
  = send (postAll o taken) (drainChan o c rest closing isDone).
Proof.
  induction 1 as [|dataRow taken Hd _ IH]; simpl.
  - now rewrite send_nil.
  - destruct (classify_due _ _ Hd) as (data & Hu & Hc). rewrite Hc, IH.
    unfold postAll at 1. simpl. rewrite Hu. fold (postAll o taken).
    unfold send. simpl. now rewrite app_assoc.
Qed.

(** Every way the drain of a channel can end. *)
Lemma drainChan_inv o c closing isDone pending out r :
  drainChan o c pending closing isDone = (out, r) ->
  exists taken rest,
    pending = taken ++ rest /\ Forall (dueRow c) taken /\
    out = postAll o taken /\
    match r with
    | Returned s' => stopsAt c closing isDone rest s'
    | CantUnmarshal c' =>
        c' = c /\ exists bad rest', rest = bad :: rest' /\ isMalformed bad
    | Blocked => closing = false /\ rest = []
    | OutOfFuel => False
    end.
Proof.
  revert out r. induction pending as [|dataRow pending IH]; intros out r H.
  - simpl in H. exists [], []. destruct closing; inv H; repeat split; auto.
    now constructor.
  - simpl in H. pose proof (classify_cases c dataRow) as Hc.
    destruct (classify c dataRow) as [| | |data].
    + inv H. exists [], ([] :: pending). repeat split; auto. constructor.
    + inv H. exists [], (dataRow :: pending). repeat split; auto.
      exists dataRow, pending. auto.
    + inv H. exists [], (dataRow :: pending). repeat split; auto.
      now constructor.
    + destruct Hc as [Hd Hu].
      destruct (drainChan o c pending closing isDone) as [out1 r1] eqn:E.
      rewrite send_pair in H. inv H.
      destruct (IH _ _ eq_refl) as (taken & rest & -> & Ht & -> & Hr).
      exists (dataRow :: taken), rest. repeat split; auto.
      unfold postAll at 2. simpl. now rewrite Hu.
Qed.

Lemma In_post o dataRow data ev :
  In ev (post o dataRow data) ->
  Params ev = dataRow /\
  ((Method ev = "newPairNotification"%string /\ SubscriptionID ev = pairsSubID o
    /\ pairsSubID o <> 0 /\ Pair data <> None)
   \/
   (Method ev = "swapNotification"%string /\ SubscriptionID ev = swapsSubID o
    /\ swapsSubID o <> 0 /\ Swap data <> None)).
Proof.
  unfold post.
  destruct (Z.eqb_spec (pairsSubID o) 0) as [Hp|Hp];
    destruct (Z.eqb_spec (swapsSubID o) 0) as [Hs|Hs];
    destruct (Pair data) as [[]|] eqn:EP; destruct (Swap data) as [[]|] eqn:ES;
    simpl; intros H; repeat (destruct H as [H|H]); try contradiction; subst ev;
    simpl; (split; [reflexivity|]);
    solve [ left; repeat split; congruence | right; repeat split; congruence ].
Qed.

Lemma In_postAll o rows ev :
  In ev (postAll o rows) ->
  exists dataRow data,
    In dataRow rows /\ unmarshal dataRow = Some data /\ In ev (post o dataRow data).
Proof.
  unfold postAll. rewrite in_flat_map. intros (dataRow & Hin & Hev).
  destruct (unmarshal dataRow) as [data|] eqn:Hu; [|contradiction].
  exists dataRow, data. auto.
Qed.

(** *** The largest key *)

Lemma lastSlot_cons c dataRow rows :
  lastSlot c (dataRow :: rows) = lastSlot (Z.max c (key dataRow)) rows.
Proof. reflexivity. Qed.

Lemma lastSlot_ge_start rows : forall c, c <= lastSlot c rows.
Proof.
  induction rows as [|x rows IH]; intros c; [apply Z.le_refl|].
  rewrite lastSlot_cons. specialize (IH (Z.max c (key x))). lia.
Qed.

Lemma lastSlot_ge_key rows :
  forall c dataRow, In dataRow rows -> key dataRow <= lastSlot c rows.
Proof.
  induction rows as [|x rows IH]; intros c dataRow Hin; [contradiction|].
  rewrite lastSlot_cons. destruct Hin as [->|Hin].
  - pose proof (lastSlot_ge_start rows (Z.max c (key dataRow))). lia.
  - now apply IH.
Qed.

Lemma lastSlot_le rows :
  forall c m, c <= m -> (forall dataRow, In dataRow rows -> key dataRow <= m) ->
              lastSlot c rows <= m.
Proof.
  induction rows as [|x rows IH]; intros c m Hc Hall; [assumption|].
  rewrite lastSlot_cons. apply IH.
  - specialize (Hall x (or_introl eq_refl)). lia.
  - intros r Hr. apply Hall. now right.
Qed.

Lemma lastSlot_incl c rows rows' :
  incl rows' rows -> lastSlot c rows' <= lastSlot c rows.
Proof.
  intros Hi. apply lastSlot_le; [apply lastSlot_ge_start|].
  intros r Hr. apply lastSlot_ge_key. now apply Hi.
Qed.

Lemma lastSlot_same c rows :
  (forall dataRow, In dataRow rows -> key dataRow <= c) -> lastSlot c rows = c.
Proof.
  intros H. pose proof (lastSlot_ge_start rows c).
  pose proof (lastSlot_le rows c c (Z.le_refl c) H). lia.
Qed.

(** *** Consequences for a stream *)

Lemma rowsOf_stopsAt c cl isDone rest s' :
  stopsAt c cl isDone rest s' ->
  closes (dataChan s') = cl /\
  (rest = rowsOf s' \/ rest = [] :: rowsOf s') /\
  (done s' = true \/
   (done s' = isDone /\ futureRow c (buffer s') /\ In (buffer s') (rowsOf s'))).
Proof.
  destruct 1 as [Hcl|rest|dataRow rest Hf]; unfold rowsOf; simpl.
  - auto.
  - auto.
  - split; [reflexivity|]. destruct Hf as [Hne Hf].
    destruct dataRow as [|b l]; [congruence|].
    split; [now left|]. right.
    split; [reflexivity|]. split; [|now left].
    split; [discriminate | assumption].
Qed.

Lemma drain_returned o c s out s' :
  drain o c s = (out, Returned s') ->
  exists taken rest,
    rowsOf s = taken ++ rest /\ Forall (dueRow c) taken /\
    out = postAll o taken /\ stopsAt c (closes (dataChan s)) (done s) rest s'.
Proof.
  rewrite drain_rowsOf. intros H.
  destruct (drainChan_inv _ _ _ _ _ _ _ H) as (taken & rest & ? & ? & ? & ?).
  exists taken, rest. auto.
Qed.

Lemma drain_keeps o c s out s' :
  drain o c s = (out, Returned s') ->
  closes (dataChan s') = closes (dataChan s) /\
  incl (rowsOf s') (rowsOf s) /\
  (done s' = true \/
   (done s' = done s /\ futureRow c (buffer s') /\ In (buffer s') (rowsOf s'))).
Proof.
  intros H. destruct (drain_returned _ _ _ _ _ H) as (taken & rest & E & _ & _ & St).
  destruct (rowsOf_stopsAt _ _ _ _ _ St) as (Hcl & Hrest & Hd).
  repeat split; auto. rewrite E.
  destruct Hrest as [->| ->]; intros x Hx; apply in_or_app; right; auto.
  now right.
Qed.

(** The envelopes a drain sends carry due rows of the stream. *)
Lemma drain_sends o c s out r ev :
  drain o c s = (out, r) -> In ev out ->
  exists data,
    In (Params ev) (rowsOf s) /\ unmarshal (Params ev) = Some data /\
    Slot data <= c /\ In ev (post o (Params ev) data).
Proof.
  rewrite drain_rowsOf. intros H Hev.
  destruct (drainChan_inv _ _ _ _ _ _ _ H) as (taken & rest & E & Ht & -> & _).
  destruct (In_postAll _ _ _ Hev) as (dataRow & data & Hin & Hu & Hp).
  destruct (In_post _ _ _ _ Hp) as [HP _]. subst dataRow.
  exists data. rewrite E. repeat split; auto.
  - apply in_or_app. now left.
  - rewrite Forall_forall in Ht. destruct (Ht _ Hin) as [_ (d & Hd & Hle)].
    congruence.
Qed.

(** *** One tick *)

Lemma tick_cons o c s rest :
  tick o c (s :: rest) =
  match drain o c s with
  | (e1, Returned s') =>
      match tick o c rest with
      | (e2, Returned rest') => (e1 ++ e2, Returned (s' :: rest'))
      | (e2, CantUnmarshal k) => (e1 ++ e2, CantUnmarshal k)
      | (e2, Blocked) => (e1 ++ e2, Blocked)
      | (e2, OutOfFuel) => (e1 ++ e2, OutOfFuel)
      end
  | (e1, CantUnmarshal k) => (e1, CantUnmarshal k)
  | (e1, Blocked) => (e1, Blocked)
  | (e1, OutOfFuel) => (e1, OutOfFuel)
  end.
Proof.
  cbn [tick]. destruct (drain o c s) as [e1 [s'| k | | ]]; try reflexivity.
  unfold bind at 1. cbn [fst snd].
  destruct (tick o c rest) as [e2 [rest'| k | | ]]; unfold bind, send, ret;
    cbn [fst snd]; rewrite ?app_nil_r; reflexivity.
Qed.

Lemma mergeLoop_S fuel o c streams :
  mergeLoop (S fuel) o c streams =
  match tick o c streams with
  | (e, Returned streams') =>
      if allDone streams' then (e, Returned (c, streams'))
      else send e (mergeLoop fuel o (uint64 (c + 1)) streams')
  | (e, CantUnmarshal k) => (e, CantUnmarshal k)
  | (e, Blocked) => (e, Blocked)
  | (e, OutOfFuel) => (e, OutOfFuel)
  end.
Proof.
  cbn [mergeLoop]. destruct (tick o c streams) as [e [streams'| k | | ]];
    try reflexivity.
  unfold bind. cbn [fst snd]. destruct (allDone streams'); [|reflexivity].
  unfold send, ret. cbn [fst snd]. now rewrite app_nil_r.
Qed.

Lemma tick_returned o c streams out streams' :
  tick o c streams = (out, Returned streams') ->
  Forall2 (fun s s' => exists e, drain o c s = (e, Returned s')) streams streams'.
Proof.
  revert out streams'. induction streams as [|s rest IH]; intros out streams' H.
  - inv H. constructor.
  - rewrite tick_cons in H.
    destruct (drain o c s) as [e1 [s'| k | | ]] eqn:E1; try discriminate.
    destruct (tick o c rest) as [e2 [rest'| k | | ]] eqn:E2; try discriminate.
    inv H. constructor; eauto.
Qed.

Lemma tick_sends o c streams out r ev :
  tick o c streams = (out, r) -> In ev out ->
  exists s data,
    In s streams /\ In (Params ev) (rowsOf s) /\
    unmarshal (Params ev) = Some data /\ Slot data <= c /\
    In ev (post o (Params ev) data).
Proof.
  revert out r. induction streams as [|s rest IH]; intros out r H Hev.
  - inv H. contradiction.
  - rewrite tick_cons in H.
    assert (Hhead : forall e1 r1, drain o c s = (e1, r1) -> In ev e1 ->
              exists s0 data, In s0 (s :: rest) /\ In (Params ev) (rowsOf s0) /\
                unmarshal (Params ev) = Some data /\ Slot data <= c /\
                In ev (post o (Params ev) data)).
    { intros e1 r1 E Hin. destruct (drain_sends _ _ _ _ _ _ E Hin) as (d & ? & ? & ? & ?).
      exists s, d. repeat split; auto. now left. }
    assert (Htail : forall e2 r2, tick o c rest = (e2, r2) -> In ev e2 ->
              exists s0 data, In s0 (s :: rest) /\ In (Params ev) (rowsOf s0) /\
                unmarshal (Params ev) = Some data /\ Slot data <= c /\
                In ev (post o (Params ev) data)).
    { intros e2 r2 E Hin. destruct (IH _ _ E Hin) as (s0 & d & ? & ? & ? & ? & ?).
      exists s0, d. repeat split; auto. now right. }
    destruct (drain o c s) as [e1 [s'| k | | ]] eqn:E1;
      try (inv H; eapply Hhead; eauto; fail).
    destruct (tick o c rest) as [e2 [rest'| k | | ]] eqn:E2; inv H;
      apply in_app_or in Hev; destruct Hev; eauto.
Qed.

(** A tick stops without a result only on a malformed row or on a channel
    that will not be closed. *)
Lemma tick_outcome o c streams out r :
  tick o c streams = (out, r) ->
  match r with
  | Returned _ => True
  | CantUnmarshal k =>
      k = c /\ exists s bad, In s streams /\ In bad (rowsOf s) /\ isMalformed bad
  | Blocked => exists s, In s streams /\ closes (dataChan s) = false
  | OutOfFuel => False
  end.
Proof.
  revert out r. induction streams as [|s rest IH]; intros out r H.
  - inv H. exact I.
  - rewrite tick_cons in H.
    destruct (drain o c s) as [e1 r1] eqn:E1.
    rewrite drain_rowsOf in E1.
    destruct (drainChan_inv _ _ _ _ _ _ _ E1) as (taken & rst & E & _ & _ & Hr).
    destruct r1 as [s'| k | | ].
    + destruct (tick o c rest) as [e2 r2] eqn:E2. specialize (IH _ _ eq_refl).
      destruct r2 as [rest'| k | | ]; inv H; auto; try contradiction.
      * destruct IH as (-> & s0 & bad & ? & ? & ?). split; [reflexivity|].
        exists s0, bad. split; [now right | split; assumption].
      * destruct IH as (s0 & ? & ?). exists s0. split; auto. now right.
    + inv H. destruct Hr as (-> & bad & rest' & -> & Hbad). split; [reflexivity|].
      exists s, bad. split; [now left|]. split; [|assumption].
      rewrite E. apply in_or_app. right. now left.
    + inv H. destruct Hr as [Hcl _]. exists s. split; [now left | assumption].
    + contradiction.
Qed.

(** *** The merge loop of a segment *)

Lemma mergeLoop_exit fuel o : forall c streams out c' streams',
  mergeLoop fuel o c streams = (out, Returned (c', streams')) ->
  allDone streams' = true.
Proof.
  induction fuel as [|fuel IH]; intros c streams out c' streams' H;
    [discriminate|].
  rewrite mergeLoop_S in H.
  destruct (tick o c streams) as [e [s1| k | | ]]; try discriminate.
  destruct (allDone s1) eqn:D.
  - now inv H.
  - destruct (mergeLoop fuel o (uint64 (c + 1)) s1) as [e2 r2] eqn:E.
    rewrite send_pair in H. inv H. eauto.
Qed.

Lemma tick_keeps o c streams out streams' :
  tick o c streams = (out, Returned streams') ->
  incl (flat_map rowsOf streams') (flat_map rowsOf streams) /\
  (Forall closing streams -> Forall closing streams') /\
  (allDone streams' = false ->
   exists s', In s' streams' /\ futureRow c (buffer s') /\ In (buffer s') (rowsOf s')).
Proof.
  intros H. apply tick_returned in H.
  induction H as [|s s' rest rest' [e Hd] _ IH].
  - repeat split; auto. + apply incl_refl. + discriminate.
  - destruct IH as (IH1 & IH2 & IH3).
    destruct (drain_keeps _ _ _ _ _ Hd) as (Hcl & Hincl & Hdone).
    split; [|split].
    + simpl. apply incl_app_app; assumption.
    + intros HF. inv HF. constructor; [|auto]. unfold closing in *. congruence.
    + rewrite allDone_forallb. simpl. rewrite <- allDone_forallb. intros HA.
      destruct Hdone as [Hdone|(_ & Hf & Hin)].
      * rewrite Hdone in HA. simpl in HA.
        destruct (IH3 HA) as (s0 & ? & ? & ?). exists s0. split; [now right|auto].
      * exists s'. split; [now left|auto].
Qed.

Lemma key_future c dataRow : futureRow c dataRow -> c < key dataRow.
Proof. intros [_ (data & Hu & Hlt)]. unfold key. now rewrite Hu. Qed.

Lemma key_range dataRow : uint64Decoder -> 0 <= key dataRow < 2 ^ 64.
Proof.
  intros HU. unfold key. destruct (unmarshal dataRow) as [data|] eqn:E.
  - eauto.
  - lia.
Qed.

Lemma uint64_small z : 0 <= z < 2 ^ 64 -> uint64 z = z.
Proof. intros H. unfold uint64. now apply Z.mod_small. Qed.

(** When a tick leaves a stream that is not done, that stream holds a
    record beyond the cursor: [slot++] does not wrap around. *)
Lemma tick_next_slot o c streams out streams' :
  uint64Decoder -> 0 <= c ->
  tick o c streams = (out, Returned streams') ->
  allDone streams' = false ->
  uint64 (c + 1) = c + 1 /\ c + 1 <= horizon streams'.
Proof.
  intros HU Hc H HA.
  destruct (tick_keeps _ _ _ _ _ H) as (_ & _ & HF).
  destruct (HF HA) as (s' & Hin & Hfut & Hb).
  pose proof (key_future _ _ Hfut) as Hk.
  pose proof (key_range (buffer s') HU) as Hr.
  assert (key (buffer s') <= horizon streams').
  { apply lastSlot_ge_key. apply in_flat_map. exists s'. auto. }
  split; [apply uint64_small|]; lia.
Qed.

Lemma horizon_tick o c streams out streams' :
  tick o c streams = (out, Returned streams') ->
  horizon streams' <= horizon streams.
Proof.
  intros H. apply lastSlot_incl. now apply (tick_keeps _ _ _ _ _ H).
Qed.

(** More fuel does not change a run that ended. *)
Lemma mergeLoop_more_fuel o fuel : forall c streams out r fuel',
  mergeLoop fuel o c streams = (out, r) -> r <> OutOfFuel ->
  (fuel <= fuel')%nat ->
  mergeLoop fuel' o c streams = (out, r).
Proof.
  induction fuel as [|fuel IH]; intros c streams out r fuel' H Hr Hle.
  - inv H. congruence.
  - destruct fuel' as [|fuel']; [lia|].
    rewrite mergeLoop_S in *.
    destruct (tick o c streams) as [e [s1| k | | ]]; try assumption.
    destruct (allDone s1); [assumption|].
    destruct (mergeLoop fuel o (uint64 (c + 1)) s1) as [e2 r2] eqn:E.
    rewrite send_pair in H. inv H.
    rewrite (IH _ _ _ _ fuel' E Hr) by lia. reflexivity.
Qed.

(** The loop of a segment whose channels are all closed by their
    producers ends: it returns or reports a malformed row. *)
Lemma mergeLoop_terminates o :
  uint64Decoder ->
  forall fuel c streams,
    0 <= c -> Forall closing streams ->
    (Z.to_nat (horizon streams - c) < fuel)%nat ->
    exists out,
      (exists c' streams', mergeLoop fuel o c streams = (out, Returned (c', streams')))
      \/ (exists k, mergeLoop fuel o c streams = (out, CantUnmarshal k)).
Proof.
  intros HU. induction fuel as [|fuel IH]; intros c streams Hc Hcl Hfuel; [lia|].
  rewrite mergeLoop_S.
  destruct (tick o c streams) as [e r] eqn:T.
  pose proof (tick_outcome _ _ _ _ _ T) as Ho.
  destruct r as [s1| k | | ].
  - destruct (allDone s1) eqn:D.
    + exists e. left. eauto.
    + destruct (tick_next_slot _ _ _ _ _ HU Hc T D) as [Hw Hh].
      pose proof (horizon_tick _ _ _ _ _ T) as Hm.
      destruct (tick_keeps _ _ _ _ _ T) as (_ & Hk & _).
      rewrite Hw.
      destruct (IH (c + 1) s1) as (out & [(c' & s2 & E)|(k & E)]);
        try lia; auto; rewrite E, send_pair; eexists; [left|right]; eauto.
  - exists e. right. eauto.
  - destruct Ho as (s & Hin & Hf). rewrite Forall_forall in Hcl.
    specialize (Hcl _ Hin). unfold closing in Hcl. congruence.
  - contradiction.
Qed.

Lemma envelopeFor_post o ev data :
  unmarshal (Params ev) = Some data -> In ev (post o (Params ev) data) ->
  envelopeFor o ev.
Proof.
  intros Hu Hin. exists data. split; [assumption|].
  now destruct (In_post _ _ _ _ Hin) as [_ H].
Qed.

Lemma tick_envelopes o c streams out r :
  tick o c streams = (out, r) ->
  Forall (fun ev => envelopeFor o ev /\ envelopeKey ev <= c) out.
Proof.
  intros H. apply Forall_forall. intros ev Hev.
  destruct (tick_sends _ _ _ _ _ _ H Hev) as (s & data & _ & _ & Hu & Hle & Hp).
  split; [eapply envelopeFor_post; eauto|].
  unfold envelopeKey, key. now rewrite Hu.
Qed.

(** What a merge loop sends, and where its cursor ends. *)
Lemma mergeLoop_sends o :
  uint64Decoder ->
  forall fuel c streams out r,
    0 <= c ->
    mergeLoop fuel o c streams = (out, r) ->
    Forall (envelopeFor o) out /\
    match r with
    | Returned (c', _) =>
        c <= c' <= Z.max c (horizon streams) /\
        Forall (fun ev => envelopeKey ev <= c') out
    | CantUnmarshal k => c <= k /\ Forall (fun ev => envelopeKey ev <= k) out
    | _ => True
    end.
Proof.
  intros HU. induction fuel as [|fuel IH]; intros c streams out r Hc H.
  - inv H. split; [constructor | exact I].
  - rewrite mergeLoop_S in H.
    destruct (tick o c streams) as [e r1] eqn:T.
    pose proof (tick_envelopes _ _ _ _ _ T) as He.
    assert (He1 : Forall (envelopeFor o) e)
      by (eapply Forall_impl; [|exact He]; now intros ev [? _]).
    assert (He2 : forall k, c <= k -> Forall (fun ev => envelopeKey ev <= k) e)
      by (intros k Hk; eapply Forall_impl; [|exact He]; intros ev [_ ?];
          simpl in *; lia).
    pose proof (tick_outcome _ _ _ _ _ T) as Ho.
    destruct r1 as [s1| k | | ].
    + destruct (allDone s1) eqn:D.
      * inv H. split; [assumption|]. split; [lia|]. apply He2. lia.
      * destruct (tick_next_slot _ _ _ _ _ HU Hc T D) as [Hw Hh].
        pose proof (horizon_tick _ _ _ _ _ T) as Hm.
        rewrite Hw in H.
        destruct (mergeLoop fuel o (c + 1) s1) as [e2 r2] eqn:E.
        rewrite send_pair in H. inv H.
        destruct (IH (c + 1) s1 e2 r ltac:(lia) E) as [IH1 IH2].
        split; [apply Forall_app; auto|].
        destruct r as [[c' s2]| k | | ]; auto.
        -- destruct IH2 as [Hb Hk]. split; [lia|].
           apply Forall_app. split; [apply He2; lia | assumption].
        -- destruct IH2 as [Hb Hk]. split; [lia|].
           apply Forall_app. split; [apply He2; lia | assumption].
    + inv H. destruct Ho as [-> _]. split; [assumption|].
      split; [lia|]. apply He2. lia.
    + inv H. auto.
    + inv H. auto.
Qed.

(** ** Well-formed segments: the order of emission *)

Lemma due_none c rows :
  Forall (fun dataRow => c < key dataRow) rows -> due c rows = [].
Proof.
  induction 1 as [|x rows Hx _ IH]; [reflexivity|].
  unfold due in *. simpl. rewrite IH.
  destruct (Z.eqb_spec (key x) c); [lia | reflexivity].
Qed.

Lemma later_all c rows :
  Forall (fun dataRow => c < key dataRow) rows -> later c rows = rows.
Proof.
  induction 1 as [|x rows Hx _ IH]; [reflexivity|].
  unfold later in *. simpl. rewrite IH.
  destruct (Z.ltb_spec c (key x)); [reflexivity | lia].
Qed.

Lemma later_none c rows :
  later c rows = [] <-> (forall dataRow, In dataRow rows -> key dataRow <= c).
Proof.
  unfold later. induction rows as [|x rows IH]; simpl.
  - split; [intros _ r [] | reflexivity].
  - destruct (Z.ltb_spec c (key x)).
    + split; [discriminate|]. intros G. specialize (G x (or_introl eq_refl)). lia.
    + rewrite IH. split.
      * intros G r [<-|Hr]; auto.
      * intros G r Hr. apply G. now right.
Qed.

Lemma due_later k c rows : c < k -> due k (later c rows) = due k rows.
Proof.
  intros Hk. unfold due, later. induction rows as [|x rows IH]; [reflexivity|].
  simpl. destruct (Z.ltb_spec c (key x)); simpl; rewrite IH; [reflexivity|].
  destruct (Z.eqb_spec (key x) k); [lia | reflexivity].
Qed.

Lemma postAll_cons o dataRow data rows :
  unmarshal dataRow = Some data ->
  postAll o (dataRow :: rows) = post o dataRow data ++ postAll o rows.
Proof. intros Hu. unfold postAll. simpl. now rewrite Hu. Qed.

Lemma key_record dataRow :
  isRecord dataRow -> exists data, unmarshal dataRow = Some data /\ key dataRow = Slot data.
Proof.
  intros [_ Hu]. unfold key. destruct (unmarshal dataRow) as [data|]; [|congruence].
  exists data. auto.
Qed.

(** The drain of a sorted channel of records none of which is below the
    cursor: the records at the cursor are posted, the others stay. *)
Lemma drainChan_sorted o c isDone pending :
  Forall isRecord pending ->
  StronglySorted Z.le (map key pending) ->
  Forall (fun dataRow => c <= key dataRow) pending ->
  drainChan o c pending true isDone
  = (postAll o (due c pending), Returned (resume (later c pending) isDone)).
Proof.
  induction pending as [|x pending IH]; intros Hrec Hs Hge; [reflexivity|].
  inv Hrec. inv Hge. simpl in Hs. apply StronglySorted_inv in Hs.
  destruct Hs as [Hs Hhd].
  destruct (key_record x H1) as (data & Hu & Hk).
  cbn [drainChan]. rewrite classify_nonempty by apply H1. rewrite Hu.
  destruct (Z.ltb_spec c (Slot data)) as [Hlt|Hle].
  - assert (HF : Forall (fun dataRow => c < key dataRow) (x :: pending)).
    { constructor; [lia|]. rewrite Forall_map in Hhd.
      eapply Forall_impl; [|exact Hhd]. simpl. intros; lia. }
    rewrite due_none, later_all by assumption. reflexivity.
  - assert (Hc : key x = c) by lia.
    rewrite IH by assumption. rewrite send_pair.
    unfold due, later. simpl. fold (due c pending) (later c pending).
    rewrite Hc, Z.eqb_refl, Z.ltb_irrefl.
    now rewrite (postAll_cons _ _ data).
Qed.

Lemma rowsOf_resume rest isDone :
  Forall isRecord rest -> rowsOf (resume rest isDone) = rest.
Proof.
  destruct rest as [|x rest]; [reflexivity|]. intros H. inv H.
  unfold rowsOf. simpl. destruct x; [now destruct H2 | reflexivity].
Qed.

Lemma StronglySorted_map_filter {A} (f : A -> Z) (p : A -> bool) l :
  StronglySorted Z.le (map f l) -> StronglySorted Z.le (map f (filter p l)).
Proof.
  induction l as [|x l IH]; simpl; intros H; [constructor|].
  apply StronglySorted_inv in H. destruct H as [H Hx].
  destruct (p x); simpl; [|auto]. constructor; [auto|].
  rewrite Forall_map in *. rewrite Forall_forall in *.
  intros y Hy. apply Hx. apply filter_In in Hy. tauto.
Qed.

Lemma drain_healthy o c s :
  healthy c s ->
  drain o c s = (postAll o (due c (rowsOf s)), Returned (advance c s)) /\
  rowsOf (advance c s) = later c (rowsOf s) /\
  healthy (c + 1) (advance c s).
Proof.
  intros (Hcl & Hrec & Hs & Hge & Hdone).
  assert (Hl : Forall isRecord (later c (rowsOf s))).
  { rewrite Forall_forall in *. intros x Hx. apply Hrec.
    unfold later in Hx. apply filter_In in Hx. tauto. }
  assert (Hr : rowsOf (advance c s) = later c (rowsOf s))
    by (apply rowsOf_resume; assumption).
  split; [|split; [assumption|]].
  - rewrite drain_rowsOf. unfold closing in Hcl. rewrite Hcl.
    now apply drainChan_sorted.
  - unfold healthy. rewrite Hr. repeat split.
    + unfold closing, advance, resume. now destruct (later c (rowsOf s)).
    + assumption.
    + now apply StronglySorted_map_filter.
    + apply Forall_forall. intros x Hx. unfold later in Hx.
      apply filter_In in Hx. destruct Hx as [_ Hx].
      apply Z.ltb_lt in Hx. lia.
    + unfold advance, resume.
      destruct (later c (rowsOf s)) as [|x rest] eqn:E; [reflexivity|].
      simpl. intros Hd. rewrite (Hdone Hd) in E. discriminate.
Qed.

Lemma tick_healthy o c streams :
  Forall (healthy c) streams ->
  tick o c streams
  = (postAll o (emittedAt c (map rowsOf streams)),
     Returned (map (advance c) streams)).
Proof.
  induction 1 as [|s rest Hs _ IH]; [reflexivity|].
  rewrite tick_cons. destruct (drain_healthy o c s Hs) as (-> & _ & _).
  rewrite IH. unfold emittedAt. simpl. now rewrite postAll_app.
Qed.

Lemma slotRange_S c n : slotRange c (S n) = c :: slotRange (c + 1) n.
Proof.
  unfold slotRange. cbn [seq map]. rewrite <- seq_shift, map_map.
  f_equal; [lia|]. apply map_ext. intros i. lia.
Qed.

Lemma replayOrder_S c n logs :
  replayOrder c (S n) logs = emittedAt c logs ++ replayOrder (c + 1) n logs.
Proof. unfold replayOrder. now rewrite slotRange_S. Qed.

Lemma emittedAt_later k c logs :
  c < k -> emittedAt k (map (later c) logs) = emittedAt k logs.
Proof.
  intros Hk. unfold emittedAt. induction logs as [|l logs IH]; [reflexivity|].
  simpl. now rewrite IH, due_later.
Qed.

Lemma replayOrder_later c n logs : forall c',
  c < c' -> replayOrder c' n (map (later c) logs) = replayOrder c' n logs.
Proof.
  induction n as [|n IH]; intros c' Hc; [reflexivity|].
  rewrite !replayOrder_S, emittedAt_later by assumption.
  rewrite IH by lia. reflexivity.
Qed.

Lemma lastSlot_later c rows :
  (exists dataRow, In dataRow rows /\ c < key dataRow) ->
  lastSlot (c + 1) (later c rows) = lastSlot c rows.
Proof.
  intros (x & Hx & Hk).
  pose proof (lastSlot_ge_key rows c x Hx) as Hm.
  apply Z.le_antisymm.
  - apply lastSlot_le; [lia|]. intros r Hr. apply lastSlot_ge_key.
    unfold later in Hr. apply filter_In in Hr. tauto.
  - apply lastSlot_le.
    + pose proof (lastSlot_ge_start (later c rows) (c + 1)). lia.
    + intros r Hr. destruct (Z.ltb_spec c (key r)) as [Hlt|Hle].
      * apply lastSlot_ge_key. unfold later. apply filter_In.
        split; [assumption|]. now apply Z.ltb_lt.
      * pose proof (lastSlot_ge_start (later c rows) (c + 1)). lia.
Qed.

Lemma rows_advance c streams :
  Forall (healthy c) streams ->
  map rowsOf (map (advance c) streams) = map (later c) (map rowsOf streams)
  /\ Forall (healthy (c + 1)) (map (advance c) streams).
Proof.
  induction 1 as [|s rest Hs _ [IH1 IH2]]; [split; [reflexivity|constructor]|].
  destruct (drain_healthy NewSimulateTask c s Hs) as (_ & Hr & Hh).
  simpl. rewrite Hr, IH1. split; [reflexivity|]. now constructor.
Qed.

Lemma allDone_advance c streams :
  Forall (healthy c) streams ->
  if allDone (map (advance c) streams)
  then forall dataRow, In dataRow (concat (map rowsOf streams)) -> key dataRow <= c
  else exists dataRow, In dataRow (concat (map rowsOf streams)) /\ c < key dataRow.
Proof.
  intros H. rewrite allDone_forallb.
  induction H as [|s rest Hs _ IH]; simpl; [intros r []|].
  destruct (drain_healthy NewSimulateTask c s Hs) as (_ & Hr & (_ & _ & _ & _ & Hd)).
  destruct (done (advance c s)) eqn:D; simpl.
  - rewrite Hr in Hd. specialize (Hd eq_refl). rewrite later_none in Hd.
    destruct (forallb done (map (advance c) rest)).
    + intros r Hin. apply in_app_or in Hin. destruct Hin; auto.
    + destruct IH as (r & Hin & Hk). exists r. split; [|assumption].
      apply in_or_app. now right.
  - unfold advance, resume in D.
    destruct (later c (rowsOf s)) as [|x l] eqn:E; [discriminate|].
    exists x. assert (Hx : In x (later c (rowsOf s))) by (rewrite E; now left).
    unfold later in Hx. apply filter_In in Hx. destruct Hx as [Hx Hk].
    apply Z.ltb_lt in Hk. split; [|assumption]. apply in_or_app. now left.
Qed.

Lemma allDone_drained c streams :
  Forall (healthy c) streams -> allDone streams = true ->
  Forall (fun s => rowsOf s = []) streams.
Proof.
  rewrite allDone_forallb, forallb_forall. intros H Hd.
  rewrite Forall_forall in *. intros s Hs.
  destruct (H s Hs) as (_ & _ & _ & _ & G). apply G. now apply Hd.
Qed.

(** The merge loop on a well-formed segment: it runs one tick per cursor
    value from [c] to the largest key held, and posts the rows in the
    order [replayOrder]. *)
Lemma mergeLoop_healthy o :
  uint64Decoder ->
  forall n c streams fuel,
    0 <= c -> Forall (healthy c) streams ->
    n = Z.to_nat (lastSlot c (concat (map rowsOf streams)) - c) ->
    (n < fuel)%nat ->
    exists final,
      mergeLoop fuel o c streams
      = (postAll o (replayOrder c (S n) (map rowsOf streams)),
         Returned (lastSlot c (concat (map rowsOf streams)), final))
      /\ Forall (fun s => rowsOf s = []) final.
Proof.
  intros HU. induction n as [|n IH]; intros c streams fuel Hc Hh Hn Hfuel;
    (destruct fuel as [|fuel]; [lia|]);
    rewrite mergeLoop_S, tick_healthy by assumption;
    pose proof (allDone_advance c streams Hh) as HA;
    destruct (rows_advance c streams Hh) as [Hrows Hh'];
    destruct (allDone (map (advance c) streams)) eqn:D.
  - exists (map (advance c) streams). rewrite lastSlot_same by assumption.
    rewrite replayOrder_S. simpl. rewrite app_nil_r.
    split; [reflexivity|]. eapply allDone_drained; eauto.
  - destruct HA as (x & Hx & Hk).
    pose proof (lastSlot_ge_key _ c x Hx). lia.
  - rewrite lastSlot_same in Hn by assumption. lia.
  - pose proof HA as (x & Hx & Hk).
    pose proof (key_range x HU) as Hr.
    rewrite uint64_small by lia.
    assert (HL : lastSlot (c + 1) (concat (map rowsOf (map (advance c) streams)))
                 = lastSlot c (concat (map rowsOf streams))).
    { rewrite Hrows. unfold later at 1. rewrite concat_filter_map.
      now apply lastSlot_later. }
    destruct (IH (c + 1) (map (advance c) streams) fuel) as (final & E & Hf);
      try lia; try assumption.
    exists final. split; [|assumption].
    rewrite E, send_pair, HL, Hrows, replayOrder_later by lia.
    rewrite (replayOrder_S c (S n)), postAll_app. reflexivity.
Qed.

(** ** The initial cursor *)

Lemma getStartingSlotFrom_spec :
  uint64Decoder ->
  forall logs acc,
    0 <= acc -> Forall isRecord (firstRows logs) -> noZeroStart logs ->
    exists c0,
      getStartingSlotFrom acc logs = Some c0 /\
      0 <= c0 /\
      (forall dataRow, In dataRow (firstRows logs) -> c0 <= key dataRow) /\
      (acc <> 0 -> c0 <= acc) /\
      (acc <> 0 \/ firstRows logs <> [] -> c0 <> 0) /\
      (c0 = acc \/ exists dataRow, In dataRow (firstRows logs) /\ key dataRow = c0).
Proof.
  intros HU. induction logs as [|log logs IH]; intros acc Hacc Hrec Hnz.
  - exists acc. simpl. repeat split; auto; try lia. intros [?|?]; congruence.
  - destruct log as [|x log].
    + simpl. apply IH; assumption.
    + unfold noZeroStart, firstRows in *. simpl in Hrec, Hnz. inv Hrec. inv Hnz.
      destruct (key_record x H1) as (data & Hu & Hk).
      pose proof (key_range x HU) as Hr.
      cbn [getStartingSlotFrom]. rewrite Hu.
      set (acc' := if (Slot data <? acc) || (acc =? 0) then Slot data else acc).
      assert (Hacc' : 0 < acc' <= key x /\ (acc <> 0 -> acc' <= acc) /\
                      (acc' = acc \/ acc' = key x)).
      { subst acc'. destruct (Z.ltb_spec (Slot data) acc);
          destruct (Z.eqb_spec acc 0); simpl; lia. }
      destruct (IH acc') as (c0 & E & H0 & Hle & Hb1 & Hb2 & Hin);
        try assumption; [lia|].
      specialize (Hb1 ltac:(lia)). specialize (Hb2 ltac:(left; lia)).
      exists c0. split; [assumption|]. split; [assumption|].
      split; [|split; [|split]].
      * simpl. intros r [<-|Hr']; [lia | auto].
      * intros Ha. lia.
      * intros _. assumption.
      * destruct Hin as [->|(r & Hr' & Hkr)].
        -- destruct Hacc' as (_ & _ & [->| ->]); [now left|].
           right. exists x. split; [now left | reflexivity].
        -- right. exists r. split; [now right | assumption].
Qed.

Lemma leastKey_spec rows c0 :
  rows <> [] ->
  (forall dataRow, In dataRow rows -> c0 <= key dataRow) ->
  (exists dataRow, In dataRow rows /\ key dataRow = c0) ->
  leastKey rows = c0.
Proof.
  destruct rows as [|x rows]; [congruence|]. intros _ Hle Hin. unfold leastKey.
  assert (G : forall l m,
             fold_left Z.min (map key l) m <= m /\
             (forall r, In r l -> fold_left Z.min (map key l) m <= key r) /\
             (fold_left Z.min (map key l) m = m \/
              exists r, In r l /\ key r = fold_left Z.min (map key l) m)).
  { induction l as [|y l IH]; intros m; simpl.
    - split; [lia|]. split; [intros r []|now left].
    - destruct (IH (Z.min m (key y))) as (I1 & I2 & I3).
      split; [lia|]. split.
      + intros r [<-|Hr]; [lia | auto].
      + destruct I3 as [I3|(r & Hr & Hk)].
        * destruct (Z.min_spec m (key y)) as [[_ E]|[_ E]].
          -- left. congruence.
          -- right. exists y. split; [now left | congruence].
        * right. exists r. split; [now right | assumption]. }
  destruct (G rows (key x)) as (G1 & G2 & G3).
  set (m := fold_left Z.min (map key rows) (key x)) in *.
  destruct Hin as (r & Hr & Hkr).
  assert (m <= c0).
  { destruct Hr as [<-|Hr]; [lia|]. rewrite <- Hkr. now apply G2. }
  assert (c0 <= m).
  { destruct G3 as [->|(r' & Hr' & <-)]; apply Hle; [now left | now right]. }
  lia.
Qed.

(** When no log begins with key 0, [getStartingSlot] returns the least
    key among the first records of the logs. *)
Lemma getStartingSlot_least logs :
  uint64Decoder -> Forall isRecord (firstRows logs) -> noZeroStart logs ->
  getStartingSlot logs = Some (leastKey (firstRows logs)) /\
  0 <= leastKey (firstRows logs) /\
  (forall dataRow, In dataRow (firstRows logs) ->
                   leastKey (firstRows logs) <= key dataRow).
Proof.
  intros HU Hrec Hnz.
  destruct (getStartingSlotFrom_spec HU logs 0 (Z.le_refl 0) Hrec Hnz)
    as (c0 & E & H0 & Hle & _ & Hz & Hin).
  assert (leastKey (firstRows logs) = c0).
  { destruct Hin as [->|Hin].
    - destruct (firstRows logs) as [|x l] eqn:F; [reflexivity|].
      exfalso. apply Hz; [right; discriminate | reflexivity].
    - apply leastKey_spec; try assumption.
      destruct Hin as (r & Hr & _). intros F. rewrite F in Hr. contradiction. }
  subst c0. auto.
Qed.

(** ** Sortedness of the order of emission *)

Lemma StronglySorted_app_le (l1 l2 : list Z) :
  StronglySorted Z.le l1 -> StronglySorted Z.le l2 ->
  (forall a b, In a l1 -> In b l2 -> a <= b) ->
  StronglySorted Z.le (l1 ++ l2).
Proof.
  induction 1 as [|a l1 H1 IH Ha]; intros H2 Hc; [assumption|].
  simpl. constructor.
  - apply IH; [assumption|]. intros x y Hx Hy. apply Hc; [now right | assumption].
  - apply Forall_app. split; [assumption|].
    apply Forall_forall. intros y Hy. apply Hc; [now left | assumption].
Qed.

Lemma StronglySorted_constant (k : Z) (l : list Z) :
  Forall (fun a => a = k) l -> StronglySorted Z.le l.
Proof.
  induction 1 as [|a l Ha Hl IH]; constructor; [assumption|].
  eapply Forall_impl; [|exact Hl]. simpl. intros; lia.
Qed.

Lemma In_emittedAt k logs dataRow :
  In dataRow (emittedAt k logs) <-> In dataRow (concat logs) /\ key dataRow = k.
Proof.
  unfold emittedAt, due. rewrite in_flat_map, in_concat. split.
  - intros (l & Hl & Hr). apply filter_In in Hr. destruct Hr as [Hr Hk].
    apply Z.eqb_eq in Hk. split; [|assumption]. exists l. auto.
  - intros [(l & Hl & Hr) Hk]. exists l. split; [assumption|].
    apply filter_In. split; [assumption|]. now apply Z.eqb_eq.
Qed.

Lemma In_replayOrder n logs dataRow : forall c,
  In dataRow (replayOrder c n logs) <->
  In dataRow (concat logs) /\ c <= key dataRow < c + Z.of_nat n.
Proof.
  induction n as [|n IH]; intros c.
  - simpl. split; [intros [] | lia].
  - rewrite replayOrder_S, in_app_iff, IH, In_emittedAt. split.
    + intros [[? ?]|[? ?]]; split; auto; lia.
    + intros [? ?]. destruct (Z.eq_dec (key dataRow) c); [left | right];
        split; auto; lia.
Qed.

(** Every row at or beyond the cursor is in the order of emission. *)
Lemma replayOrder_complete c logs dataRow :
  In dataRow (concat logs) -> c <= key dataRow ->
  In dataRow (replayOrder c (ticksOf c logs) logs).
Proof.
  intros Hin Hc. apply In_replayOrder. split; [assumption|].
  pose proof (lastSlot_ge_key (concat logs) c dataRow Hin).
  unfold ticksOf. lia.
Qed.

Lemma replayOrder_sorted n logs : forall c,
  StronglySorted Z.le (map key (replayOrder c n logs)).
Proof.
  induction n as [|n IH]; intros c; [constructor|].
  rewrite replayOrder_S, map_app. apply StronglySorted_app_le.
  - apply (StronglySorted_constant c). rewrite Forall_map.
    apply Forall_forall. intros r Hr. now apply In_emittedAt in Hr.
  - apply IH.
  - intros a b Ha Hb. apply in_map_iff in Ha. apply in_map_iff in Hb.
    destruct Ha as (x & <- & Hx). destruct Hb as (y & <- & Hy).
    apply In_emittedAt in Hx. apply In_replayOrder in Hy. lia.
Qed.

Lemma In_archiveOrder dataFiles dataRow : forall c,
  In dataRow (archiveOrder c dataFiles) -> In dataRow (concat (concat dataFiles)).
Proof.
  induction dataFiles as [|logs rest IH]; intros c H; [contradiction|].
  simpl in H. apply in_app_or in H. simpl. rewrite concat_app.
  apply in_or_app. destruct H as [H|H].
  - left. now apply In_replayOrder in H.
  - right. eauto.
Qed.

(** Segments in temporal order are emitted in non-decreasing key order. *)
Lemma archiveOrder_sorted dataFiles : forall c,
  temporalOrder dataFiles ->
  StronglySorted Z.le (map key (archiveOrder c dataFiles)).
Proof.
  induction dataFiles as [|logs rest IH]; intros c H; [constructor|].
  destruct H as [Hcross Hrest]. simpl. rewrite map_app.
  apply StronglySorted_app_le.
  - apply replayOrder_sorted.
  - now apply IH.
  - intros a b Ha Hb. apply in_map_iff in Ha. apply in_map_iff in Hb.
    destruct Ha as (x & <- & Hx). destruct Hb as (y & <- & Hy).
    apply In_replayOrder in Hx. apply In_archiveOrder in Hy.
    apply Hcross; tauto.
Qed.

(** The envelopes of a row carry its key. *)
Lemma postAll_sorted o rows :
  StronglySorted Z.le (map key rows) ->
  StronglySorted Z.le (map envelopeKey (postAll o rows)).
Proof.
  induction rows as [|x rows IH]; intros H; [constructor|].
  simpl in H. apply StronglySorted_inv in H. destruct H as [H Hx].
  change (x :: rows) with ([x] ++ rows). rewrite postAll_app, map_app.
  assert (Hkey : forall l ev, In ev (postAll o l) ->
                   exists r, In r l /\ envelopeKey ev = key r).
  { intros l ev Hev. destruct (In_postAll _ _ _ Hev) as (r & d & Hr & _ & Hp).
    destruct (In_post _ _ _ _ Hp) as [HP _]. exists r. unfold envelopeKey.
    now rewrite HP. }
  apply StronglySorted_app_le.
  - apply (StronglySorted_constant (key x)). rewrite Forall_map.
    apply Forall_forall. intros ev Hev.
    destruct (Hkey _ _ Hev) as (r & [<-|[]] & E). assumption.
  - now apply IH.
  - intros a b Ha Hb. apply in_map_iff in Ha. apply in_map_iff in Hb.
    destruct Ha as (e1 & <- & H1). destruct Hb as (e2 & <- & H2).
    destruct (Hkey _ _ H1) as (r1 & [<-|[]] & ->).
    destruct (Hkey _ _ H2) as (r2 & Hr2 & ->).
    rewrite Forall_map, Forall_forall in Hx. now apply Hx.
Qed.

(** ** Streams without empty lines *)





Lemma rowsOf_openStreams logs : map rowsOf (openStreams logs) = logs.
Proof.
  unfold openStreams. rewrite map_map. unfold rowsOf. simpl. apply map_id.
Qed.

Lemma flat_map_rowsOf_openStreams logs :
  flat_map rowsOf (openStreams logs) = concat logs.
Proof. now rewrite flat_map_concat_map, rowsOf_openStreams. Qed.

Lemma openStreams_closing logs : Forall closing (openStreams logs).
Proof.
  unfold openStreams. rewrite Forall_map. apply Forall_forall. reflexivity.
Qed.


(** ** The segments of an archive *)

Lemma send_send {A} e1 e2 (k : run A) : send e1 (send e2 k) = send (e1 ++ e2) k.
Proof. unfold send. simpl. now rewrite app_assoc. Qed.

Lemma bind_send {A B} e (m : run A) (f : A -> run B) :
  bind (send e m) f = send e (bind m f).
Proof.
  destruct m as [e1 [a| k | | ]]; unfold bind, send; simpl; try reflexivity.
  now rewrite app_assoc.
Qed.

Lemma bind_bind {A B C} (m : run A) (f : A -> run B) (g : B -> run C) :
  bind (bind m f) g = bind m (fun a => bind (f a) g).
Proof.
  destruct m as [e1 [a| k | | ]]; try reflexivity.
  change (bind (e1, Returned a) f) with (send e1 (f a)).
  change (bind (e1, Returned a) (fun a0 => bind (f a0) g))
    with (send e1 (bind (f a) g)).
  apply bind_send.
Qed.

Lemma bind_ext {A B} (m : run A) (f g : A -> run B) :
  (forall a, f a = g a) -> bind m f = bind m g.
Proof.
  intros H. destruct m as [e [a| k | | ]]; try reflexivity.
  unfold bind. cbn [fst snd]. now rewrite H.
Qed.

Lemma bind_ret {A B} (a : A) (f : A -> run B) : bind (ret a) f = f a.
Proof. unfold bind, ret. simpl. apply send_nil. Qed.

Lemma runSegments_next fuel o num slot logs rest :
  runSegments fuel o (S num) slot (logs :: rest) =
  (r <- mergeLoop fuel o slot (openStreams logs) ;;
   runSegments fuel o (S (S num)) (fst r) rest).
Proof. cbn [runSegments Nat.eqb]. now rewrite bind_ret. Qed.

Lemma runSegments_num fuel o dataFiles : forall a b slot,
  runSegments fuel o (S a) slot dataFiles = runSegments fuel o (S b) slot dataFiles.
Proof.
  induction dataFiles as [|logs rest IH]; intros a b slot; [reflexivity|].
  rewrite !runSegments_next.
  destruct (mergeLoop fuel o slot (openStreams logs)) as [e [r| k | | ]];
    try reflexivity.
  unfold bind. cbn [fst snd]. now rewrite (IH (S a) (S b)).
Qed.

Lemma runSegments_first fuel o slot logs rest :
  runSegments fuel o 0 slot (logs :: rest) =
  match getStartingSlot logs with
  | Some c0 => runSegments fuel o 1 c0 (logs :: rest)
  | None => ([], CantUnmarshal 0)
  end.
Proof.
  cbn [runSegments Nat.eqb].
  destruct (getStartingSlot logs); [rewrite !bind_ret | reflexivity].
  destruct (mergeLoop fuel o z (openStreams logs)) as [e [r| k | | ]];
    try reflexivity.
  unfold bind. cbn [fst snd]. now rewrite (runSegments_num _ _ _ 0%nat 1%nat).
Qed.

(** Running [before ++ after] is running [before] and going on with
    [after] from the cursor [before] ended with. *)
Lemma runSegments_app fuel o before after : forall num slot,
  runSegments fuel o (S num) slot (before ++ after) =
  (slot' <- runSegments fuel o (S num) slot before ;;
   runSegments fuel o (S (num + length before)) slot' after).
Proof.
  induction before as [|logs before IH]; intros num slot.
  - simpl. rewrite bind_ret. now rewrite Nat.add_0_r.
  - rewrite <- app_comm_cons, !runSegments_next, bind_bind.
    destruct (mergeLoop fuel o slot (openStreams logs)) as [e [r| k | | ]];
      try reflexivity.
    unfold bind at 1 3. cbn [fst snd]. rewrite IH. simpl length.
    now rewrite Nat.add_succ_r.
Qed.

Lemma getStartingSlotFrom_range :
  uint64Decoder ->
  forall logs acc c0, 0 <= acc -> getStartingSlotFrom acc logs = Some c0 -> 0 <= c0.
Proof.
  intros HU. induction logs as [|log logs IH]; intros acc c0 Hacc H.
  - inv H. assumption.
  - destruct log as [|x log]; simpl in H; [eauto|].
    destruct (unmarshal x) as [data|] eqn:Hu; [|discriminate].
    apply IH in H; [assumption|]. pose proof (HU _ _ Hu).
    destruct ((Slot data <? acc) || (acc =? 0)); lia.
Qed.

(** What a replay sends: envelopes of live subscriptions, none with a key
    beyond the cursor the replay stops at. *)
Lemma runSegments_sends o fuel :
  uint64Decoder ->
  forall dataFiles num slot out r,
    0 <= slot ->
    runSegments fuel o (S num) slot dataFiles = (out, r) ->
    Forall (envelopeFor o) out /\
    match r with
    | Returned c' | CantUnmarshal c' =>
        slot <= c' /\ Forall (fun ev => envelopeKey ev <= c') out
    | _ => True
    end.
Proof.
  intros HU. induction dataFiles as [|logs rest IH]; intros num slot out r Hs H.
  - inv H. split; [constructor|]. split; [lia | constructor].
  - rewrite runSegments_next in H.
    destruct (mergeLoop fuel o slot (openStreams logs)) as [e r1] eqn:M.
    destruct (mergeLoop_sends o HU _ _ _ _ _ Hs M) as [He Hr].
    destruct r1 as [[c1 s1]| k | | ]; try (inv H; auto; fail).
    unfold bind in H. cbn [fst snd] in H.
    destruct (runSegments fuel o (S (S num)) c1 rest) as [e2 r2] eqn:R.
    rewrite send_pair in H. inv H. destruct Hr as [Hc Hk].
    assert (H1 : 0 <= c1) by lia.
    destruct (IH _ _ _ _ H1 R) as [IH1 IH2].
    split; [apply Forall_app; auto|].
    assert (G : forall k, c1 <= k -> Forall (fun ev => envelopeKey ev <= k) e).
    { intros k Hle. eapply Forall_impl; [|exact Hk]. simpl. intros; lia. }
    destruct r as [c'| c' | | ]; auto; destruct IH2 as [Hle Hk2];
      (split; [lia|]); apply Forall_app; (split; [apply G; lia | assumption]).
Qed.

Lemma RunSimulation_sends o fuel dataFiles out r :
  uint64Decoder ->
  RunSimulation fuel o dataFiles = (out, r) ->
  Forall (envelopeFor o) out /\
  match r with
  | Returned c' | CantUnmarshal c' =>
      0 <= c' /\ Forall (fun ev => envelopeKey ev <= c') out
  | _ => True
  end.
Proof.
  intros HU H. unfold RunSimulation in H. destruct dataFiles as [|logs rest].
  - inv H. split; [constructor|]. split; [lia | constructor].
  - rewrite runSegments_first in H.
    destruct (getStartingSlot logs) as [c0|] eqn:G.
    + pose proof (getStartingSlotFrom_range HU _ _ _ (Z.le_refl 0) G) as H0.
      destruct (runSegments_sends o fuel HU _ _ _ _ _ H0 H) as [He Hr].
      split; [assumption|]. destruct r; auto; destruct Hr; split; auto; lia.
    + inv H. split; [constructor|]. split; [lia | constructor].
Qed.



Lemma getStartingSlotFrom_malformed logs : forall acc,
  getStartingSlotFrom acc logs = None -> holdsMalformed (concat logs) \/ In [] (concat logs).
Proof.
  induction logs as [|log logs IH]; intros acc H; [discriminate|].
  destruct log as [|x log]; simpl in H; [simpl; eauto|].
  destruct (unmarshal x) as [data|] eqn:Hu.
  - rewrite concat_cons.
    destruct (IH _ H) as [(bad & Hin & Hbad)|Hin].
    + left. exists bad. split; [|assumption]. apply in_or_app. now right.
    + right. apply in_or_app. now right.
  - destruct x as [|b l].
    + right. now left.
    + left. exists (b :: l). split; [now left|]. split; [discriminate|assumption].
Qed.



Lemma openStreams_healthy c logs :
  recordsOnly logs -> sortedLogs logs ->
  (forall dataRow, In dataRow (concat logs) -> c <= key dataRow) ->
  Forall (healthy c) (openStreams logs).
Proof.
  unfold recordsOnly, sortedLogs, openStreams. intros Hrec Hs Hge.
  rewrite Forall_map. rewrite Forall_forall in *. intros log Hlog.
  unfold healthy, closing, rowsOf. simpl. repeat split.
  - now apply Hrec.
  - apply Sorted_StronglySorted; [exact Z.le_trans | now apply Hs].
  - apply Forall_forall. intros r Hr. apply Hge. apply in_concat. eauto.
  - discriminate.
Qed.

(** The replay of well-formed segments in temporal order, entered at a
    cursor below all their keys. *)
Lemma runSegments_ordered o :
  uint64Decoder ->
  forall dataFiles num c,
    0 <= c ->
    Forall recordsOnly dataFiles -> Forall sortedLogs dataFiles ->
    temporalOrder dataFiles ->
    (forall dataRow, In dataRow (concat (concat dataFiles)) -> c <= key dataRow) ->
    exists fuel,
      forall fuel', (fuel <= fuel')%nat ->
        runSegments fuel' o (S num) c dataFiles
        = (postAll o (archiveOrder c dataFiles), Returned (endSlot c dataFiles)).
Proof.
  intros HU. induction dataFiles as [|logs rest IH];
    intros num c Hc Hrec Hs Ht Hge.
  - exists 0%nat. reflexivity.
  - inv Hrec. inv Hs. destruct Ht as [Hcross Ht].
    assert (Hge1 : forall r, In r (concat logs) -> c <= key r).
    { intros r Hr. apply Hge. simpl. rewrite concat_app. apply in_or_app. now left. }
    assert (Hge2 : forall r, In r (concat (concat rest)) ->
                             lastSlot c (concat logs) <= key r).
    { intros r Hr. apply lastSlot_le.
      - apply Hge. simpl. rewrite concat_app. apply in_or_app. now right.
      - intros a Ha. now apply Hcross. }
    pose proof (lastSlot_ge_start (concat logs) c) as Hl.
    destruct (IH (S num) (lastSlot c (concat logs)) ltac:(lia) H2 H4 Ht Hge2)
      as (fuel2 & R).
    exists (Nat.max (ticksOf c logs) fuel2). intros fuel' Hf.
    destruct (mergeLoop_healthy o HU
                (Z.to_nat (lastSlot c (concat logs) - c)) c (openStreams logs)
                fuel' Hc (openStreams_healthy c logs H1 H3 Hge1))
      as (final & M & _).
    { now rewrite rowsOf_openStreams. }
    { unfold ticksOf in Hf. lia. }
    rewrite rowsOf_openStreams in M.
    rewrite runSegments_next, M. unfold bind. cbn [fst snd].
    rewrite R by lia. rewrite send_pair. simpl archiveOrder.
    now rewrite postAll_app.
Qed.

(** ** Channels that are never closed *)

(** With enough fuel the loop of a segment settles: it returns, reports a
    malformed row, or blocks on a receive. *)
Lemma mergeLoop_settles o :
  uint64Decoder ->
  forall fuel c streams,
    0 <= c -> (Z.to_nat (horizon streams - c) < fuel)%nat ->
    exists out r, mergeLoop fuel o c streams = (out, r) /\ r <> OutOfFuel.
Proof.
  intros HU. induction fuel as [|fuel IH]; intros c streams Hc Hfuel; [lia|].
  rewrite mergeLoop_S.
  destruct (tick o c streams) as [e r] eqn:T.
  pose proof (tick_outcome _ _ _ _ _ T) as Ho.
  destruct r as [s1| k | | ];
    [|eexists; eexists; split; [reflexivity|congruence]..].
  destruct (allDone s1) eqn:D.
  - eexists; eexists; split; [reflexivity|congruence].
  - destruct (tick_next_slot _ _ _ _ _ HU Hc T D) as [Hw Hh].
    pose proof (horizon_tick _ _ _ _ _ T) as Hm. rewrite Hw.
    destruct (IH (c + 1) s1) as (out & r & E & Hr); try lia.
    rewrite E, send_pair. eauto.
Qed.

Lemma mergeLoop_failed o fuel : forall c streams out k,
  mergeLoop fuel o c streams = (out, CantUnmarshal k) ->
  holdsMalformed (flat_map rowsOf streams).
Proof.
  induction fuel as [|fuel IH]; intros c streams out k H; [discriminate|].
  rewrite mergeLoop_S in H.
  destruct (tick o c streams) as [e r] eqn:T.
  pose proof (tick_outcome _ _ _ _ _ T) as Ho.
  destruct r as [s1| k1 | | ]; try discriminate.
  - destruct (allDone s1); [discriminate|].
    destruct (mergeLoop fuel o (uint64 (c + 1)) s1) as [e2 r2] eqn:E.
    rewrite send_pair in H. inv H.
    destruct (IH _ _ _ _ E) as (bad & Hin & Hbad).
    exists bad. split; [|assumption]. now apply (tick_keeps _ _ _ _ _ T).
  - inv H. destruct Ho as (_ & s & bad & Hs & Hin & Hbad).
    exists bad. split; [|assumption]. apply in_flat_map. eauto.
Qed.

Lemma drain_neverYields o c s out s' :
  neverYields s -> drain o c s = (out, Returned s') -> neverYields s'.
Proof.
  intros (Hcl & Hd & Hne) H.
  destruct (drain_returned _ _ _ _ _ H) as (taken & rest & E & _ & _ & St).
  assert (Hrest : ~ In [] rest).
  { intros Hin. apply Hne. rewrite E. apply in_or_app. now right. }
  destruct St as [Hc|rest|dataRow rest [Hx Hf]].
  - congruence.
  - exfalso. apply Hrest. now left.
  - unfold neverYields, rowsOf. simpl. destruct dataRow as [|b l]; [congruence|].
    auto.
Qed.

Lemma tick_neverYields o c streams out streams' :
  Exists neverYields streams ->
  tick o c streams = (out, Returned streams') ->
  Exists neverYields streams' /\ allDone streams' = false.
Proof.
  intros Hex H. apply tick_returned in H.
  induction H as [|s s' rest rest' [e Hd] _ IH]; [inv Hex|].
  rewrite allDone_forallb. simpl. inv Hex.
  - pose proof (drain_neverYields _ _ _ _ _ H0 Hd) as Hn.
    split; [now left|]. destruct Hn as (_ & -> & _). reflexivity.
  - destruct (IH H0) as [IH1 IH2]. rewrite allDone_forallb in IH2.
    split; [now right|]. rewrite IH2. apply andb_false_r.
Qed.

(** While a stream never yields a zero-length row the loop does not
    return. *)
Lemma mergeLoop_neverYields o fuel : forall c streams out r,
  Exists neverYields streams ->
  mergeLoop fuel o c streams = (out, r) ->
  forall c' streams', r <> Returned (c', streams').
Proof.
  induction fuel as [|fuel IH]; intros c streams out r Hex H c' streams';
    [inv H; discriminate|].
  rewrite mergeLoop_S in H.
  destruct (tick o c streams) as [e [s1| k | | ]] eqn:T;
    try (inv H; discriminate).
  destruct (tick_neverYields _ _ _ _ _ Hex T) as [Hex1 D]. rewrite D in H.
  destruct (mergeLoop fuel o (uint64 (c + 1)) s1) as [e2 r2] eqn:E.
  rewrite send_pair in H. inv H. eapply IH; eauto.
Qed.

(** ** The properties of the specification *)

Lemma In_firstRows logs dataRow :
  In dataRow (firstRows logs) -> In dataRow (concat logs).
Proof.
  unfold firstRows. rewrite in_flat_map, in_concat.
  intros (log & Hlog & Hin). exists log. split; [assumption|].
  destruct log as [|x log]; [contradiction|]. destruct Hin as [<-|[]]. now left.
Qed.

Lemma firstRows_least logs c0 :
  sortedLogs logs ->
  (forall dataRow, In dataRow (firstRows logs) -> c0 <= key dataRow) ->
  forall dataRow, In dataRow (concat logs) -> c0 <= key dataRow.
Proof.
  intros Hs Hf r Hr. apply in_concat in Hr. destruct Hr as (log & Hlog & Hr).
  unfold sortedLogs in Hs. rewrite Forall_forall in Hs.
  pose proof (Sorted_StronglySorted Z.le_trans (Hs _ Hlog)) as Hsl.
  destruct log as [|x log]; [contradiction|].
  assert (Hx : c0 <= key x).
  { apply Hf. unfold firstRows. apply in_flat_map. exists (x :: log).
    split; [assumption | now left]. }
  destruct Hr as [<-|Hr]; [assumption|].
  simpl in Hsl. apply StronglySorted_inv in Hsl. destruct Hsl as [_ Hhd].
  rewrite Forall_map, Forall_forall in Hhd. specialize (Hhd _ Hr). lia.
Qed.

(** C1 (amended).  For every archive whose lines are all records, whose
    logs each have non-decreasing temporal keys, whose first segment has no
    log beginning with key 0, and whose segments are in temporal order (no
    key of a segment exceeds a key of a later segment), [RunSimulation]
    returns, and what it sends on the output feed is, segment after
    segment, the envelopes of the rows in the order [archiveOrder]: cursor
    values in increasing order, at one cursor value the streams in their
    declared order, within a stream the original order.  The temporal keys
    of the envelopes are non-decreasing across the whole output. *)
Theorem RunSimulation_ordered o dataFiles :
  uint64Decoder ->
  Forall recordsOnly dataFiles ->
  Forall sortedLogs dataFiles ->
  noZeroStart (hd [] dataFiles) ->
  temporalOrder dataFiles ->
  (exists fuel,
     forall fuel', (fuel <= fuel')%nat ->
       RunSimulation fuel' o dataFiles
       = (postAll o (archiveOrder (initialSlot dataFiles) dataFiles),
          Returned (endSlot (initialSlot dataFiles) dataFiles)))
  /\ StronglySorted Z.le
       (map envelopeKey
            (postAll o (archiveOrder (initialSlot dataFiles) dataFiles))).
Proof.
  intros HU Hrec Hs Hnz Ht.
  split; [|apply postAll_sorted, archiveOrder_sorted; assumption].
  unfold RunSimulation. destruct dataFiles as [|logs rest].
  - exists 0%nat. reflexivity.
  - simpl in Hnz. unfold initialSlot.
    assert (Hfr : Forall isRecord (firstRows logs)).
    { pose proof (Forall_inv Hrec) as Hr1.
      apply Forall_forall. intros r Hr. apply In_firstRows in Hr.
      unfold recordsOnly in Hr1. rewrite <- Forall_concat in Hr1.
      rewrite Forall_forall in Hr1. now apply Hr1. }
    destruct (getStartingSlot_least logs HU Hfr Hnz) as (G & H0 & Hle).
    set (c0 := leastKey (firstRows logs)) in *.
    assert (Hge : forall r, In r (concat (concat (logs :: rest))) -> c0 <= key r).
    { intros r Hr. simpl in Hr. rewrite concat_app in Hr. apply in_app_or in Hr.
      destruct Hr as [Hr|Hr].
      - now apply (firstRows_least logs c0 (Forall_inv Hs) Hle).
      - destruct (firstRows logs) as [|x l] eqn:F.
        + subst c0. simpl. apply (key_range r HU).
        + assert (Hx : In x (firstRows logs)) by (rewrite F; now left).
          destruct Ht as [Hcross _].
          pose proof (Hcross x r (In_firstRows _ _ Hx) Hr).
          specialize (Hle x ltac:(now left)). lia. }
    destruct (runSegments_ordered o HU (logs :: rest) 0%nat c0 H0 Hrec Hs Ht Hge)
      as (fuel & R).
    exists fuel. intros fuel' Hf. rewrite runSegments_first, G. now apply R.
Qed.

(** C2 (amended).  The merge loop of a segment returns only when every
    stream's done flag is set.  If the producer of every stream closes its
    channel, the loop ends: it returns, unless it meets a malformed row, in
    which case it stops with the decode error.  If some stream never yields
    a zero-length row, the loop never returns: it blocks on a receive, and
    sends nothing more, unless it meets a malformed row first and stops
    with the decode error. *)
Theorem mergeLoop_ends o c streams :
  uint64Decoder -> 0 <= c ->
  (forall fuel out c' streams',
     mergeLoop fuel o c streams = (out, Returned (c', streams')) ->
     allDone streams' = true)
  /\
  (Forall closing streams ->
   exists fuel out r,
     (forall fuel', (fuel <= fuel')%nat ->
                    mergeLoop fuel' o c streams = (out, r)) /\
     ((exists c' streams', r = Returned (c', streams')) \/
      (exists k, r = CantUnmarshal k /\
                 holdsMalformed (flat_map rowsOf streams))))
  /\
  (Exists neverYields streams ->
   (forall fuel out c' streams',
      mergeLoop fuel o c streams <> (out, Returned (c', streams'))) /\
   exists fuel out r,
     (forall fuel', (fuel <= fuel')%nat ->
                    mergeLoop fuel' o c streams = (out, r)) /\
     (r = Blocked \/
      (exists k, r = CantUnmarshal k /\
                 holdsMalformed (flat_map rowsOf streams)))).
Proof.
  intros HU Hc. set (fuel := S (Z.to_nat (horizon streams - c))).
  split; [|split].
  - intros f out c' streams' H. eapply mergeLoop_exit; eauto.
  - intros Hcl.
    destruct (mergeLoop_terminates o HU fuel c streams Hc Hcl ltac:(subst fuel; lia))
      as (out & [(c' & s' & M)|(k & M)]).
    + exists fuel, out, (Returned (c', s')). split; [|left; eauto].
      intros fuel' Hf. apply (mergeLoop_more_fuel o fuel); [assumption|congruence|lia].
    + exists fuel, out, (CantUnmarshal k). split.
      * intros fuel' Hf.
        apply (mergeLoop_more_fuel o fuel); [assumption|congruence|lia].
      * right. exists k. split; [reflexivity|]. eapply mergeLoop_failed; eauto.
  - intros Hex. split.
    + intros f out c' streams' H.
      now apply (mergeLoop_neverYields o f c streams out _ Hex H c' streams').
    + destruct (mergeLoop_settles o HU fuel c streams Hc ltac:(subst fuel; lia))
        as (out & r & M & Hr).
      exists fuel, out, r. split.
      * intros fuel' Hf. apply (mergeLoop_more_fuel o fuel); assumption.
      * destruct r as [[c' s']| k | | ].
        -- now destruct (mergeLoop_neverYields o fuel c streams out _ Hex M c' s').
        -- right. exists k. split; [reflexivity|]. eapply mergeLoop_failed; eauto.
        -- now left.
        -- congruence.
Qed.






(** C8.  The cursor is not reset between segments: in the replay of
    [before ++ logs :: after], with [before] not empty, the merge of
    [logs] starts at the cursor with which the replay of [before] ended,
    that is, the cursor at which the merge of the segment in front of
    [logs] finished; [getStartingSlot] is not consulted again.  The
    cursor with which a merge finishes is not below the one it started
    at. *)
Theorem cursor_continues fuel o before logs after :
  uint64Decoder ->
  before <> [] ->
  RunSimulation fuel o (before ++ logs :: after)
  = (slot <- RunSimulation fuel o before ;;
     r <- mergeLoop fuel o slot (openStreams logs) ;;
     runSegments fuel o (S (S (length before))) (fst r) after)
  /\
  (forall out slot,
     RunSimulation fuel o before = (out, Returned slot) ->
     0 <= slot /\
     forall out' c' streams',
       mergeLoop fuel o slot (openStreams logs) = (out', Returned (c', streams')) ->
       slot <= c').
Proof.
  intros HU Hne. destruct before as [|first before]; [congruence|]. clear Hne.
  split.
  - unfold RunSimulation. rewrite <- app_comm_cons, !runSegments_first.
    destruct (getStartingSlot first) as [c0|]; [|reflexivity].
    rewrite app_comm_cons.
    rewrite (runSegments_app fuel o (first :: before) (logs :: after) 0 c0).
    apply bind_ext. intros slot. cbn [length Nat.add]. apply runSegments_next.
  - intros out slot R.
    destruct (RunSimulation_sends o fuel _ _ _ HU R) as [_ [H0 _]].
    split; [assumption|]. intros out' c' streams' M.
    now destruct (mergeLoop_sends o HU _ _ _ _ _ H0 M) as [_ [[Hle _] _]].
Qed.

(** C5 (amended).  A record of which at most one discriminator is not nil
    yields at most one envelope, which carries the row and the method name
    and subscription id of that category; it yields one exactly when that
    category is subscribed.  A record with both discriminators set yields
    an envelope for each subscribed category, the pair one first: both
    when both are subscribed, one when one is, none when none is.  So rows
    of the first kind never yield more envelopes than there are rows. *)
Theorem post_one_category o dataRow data :
  (Pair data = None \/ Swap data = None ->
   (length (post o dataRow data) <= 1)%nat /\
   Forall (fun ev =>
             Params ev = dataRow /\
             ((Pair data <> None /\ Method ev = "newPairNotification"%string
               /\ SubscriptionID ev = pairsSubID o)
              \/
              (Swap data <> None /\ Method ev = "swapNotification"%string
               /\ SubscriptionID ev = swapsSubID o)))
          (post o dataRow data) /\
   (post o dataRow data <> [] <->
    (Pair data <> None /\ pairsSubID o <> 0) \/
    (Swap data <> None /\ swapsSubID o <> 0)))
  /\
  (Pair data <> None -> Swap data <> None ->
   post o dataRow data
   = filter (fun ev => negb (SubscriptionID ev =? 0))
       [ {| ID := 0; SubscriptionID := pairsSubID o;
            Method := "newPairNotification"; Params := dataRow |};
         {| ID := 0; SubscriptionID := swapsSubID o;
            Method := "swapNotification"; Params := dataRow |} ])
  /\
  (forall rows,
     (forall r d, In r rows -> unmarshal r = Some d ->
                  Pair d = None \/ Swap d = None) ->
     (length (postAll o rows) <= length rows)%nat).
Proof.
  assert (Hlen : forall r d, Pair d = None \/ Swap d = None ->
                             (length (post o r d) <= 1)%nat).
  { intros r d H. unfold post.
    destruct (Pair d) as [[]|], (Swap d) as [[]|];
      destruct (pairsSubID o =? 0), (swapsSubID o =? 0); simpl; try lia;
      destruct H; discriminate. }
  split; [|split].
  - intros Hone. split; [now apply Hlen|]. split.
    + apply Forall_forall. intros ev Hev.
      destruct (In_post _ _ _ _ Hev) as [HP H]. split; [assumption|].
      destruct H as [(? & ? & ? & ?)|(? & ? & ? & ?)]; [left | right]; auto.
    + unfold post.
      destruct (Pair data) as [[]|], (Swap data) as [[]|];
        destruct (Z.eqb_spec (pairsSubID o) 0), (Z.eqb_spec (swapsSubID o) 0);
        simpl; split; intros H; try congruence; try discriminate;
        try (left; split; congruence); try (right; split; congruence);
        destruct H as [[? ?]|[? ?]]; congruence.
  - intros HP HS. unfold post, emptyJSONRPC.
    destruct (Pair data) as [[]|]; [|congruence].
    destruct (Swap data) as [[]|]; [|congruence].
    cbn [notNil filter SubscriptionID ID].
    destruct (pairsSubID o =? 0), (swapsSubID o =? 0); reflexivity.
  - induction rows as [|r rows IH]; intros H; [simpl; lia|].
    change (r :: rows) with ([r] ++ rows). rewrite postAll_app, !length_app.
    assert (length (postAll o [r]) <= 1)%nat.
    { unfold postAll. simpl. rewrite app_nil_r.
      destruct (unmarshal r) as [d|] eqn:Hu; [|simpl; lia].
      apply Hlen. apply (H r d); [now left | assumption]. }
    assert (length (postAll o rows) <= length rows)%nat.
    { apply IH. intros r' d' Hin. apply H. now right. }
    change (length [r]) with 1%nat. lia.
Qed.

Lemma stream_eta (s : stream) :
  {| dataChan := {| queued := queued (dataChan s); closes := closes (dataChan s) |};
     buffer := buffer s; done := done s |} = s.
Proof. now destruct s as [[q cl] b d]. Qed.

(** C6.  After a tick that leaves some stream not done, the next tick runs
    at the cursor plus exactly one ([slot++] does not wrap around).  A
    tick at which no stream has a due record (every stream holds a record
    beyond the cursor in its buffer, or is exhausted) is executed all the
    same: it sends nothing and leaves the streams as they are.  A row whose
    temporal key exceeds the cursor is not posted in that tick: it becomes
    the lookahead buffer of its stream, whose drain stops there. *)
Theorem tick_advances o c streams out streams' :
  uint64Decoder -> 0 <= c ->
  tick o c streams = (out, Returned streams') ->
  allDone streams' = false ->
  (forall fuel,
     mergeLoop (S fuel) o c streams
     = send out (mergeLoop fuel o (c + 1) streams'))
  /\ c + 1 < 2 ^ 64
  /\ (Forall (idleAt c) streams -> out = [] /\ streams' = streams)
  /\ (forall s taken dataRow rest,
        rowsOf s = taken ++ dataRow :: rest ->
        Forall (dueRow c) taken -> futureRow c dataRow ->
        drain o c s
        = (postAll o taken,
           Returned {| dataChan := {| queued := rest;
                                      closes := closes (dataChan s) |};
                       buffer := dataRow; done := done s |})).
Proof.
  intros HU Hc T D.
  destruct (tick_next_slot _ _ _ _ _ HU Hc T D) as [Hw Hh].
  split; [|split; [|split]].
  - intros fuel. now rewrite mergeLoop_S, T, D, Hw.
  - unfold uint64 in Hw. pose proof (Z.mod_pos_bound (c + 1) (2 ^ 64)).
    rewrite Hw in H. lia.
  - intros Hf. clear D Hw Hh. revert out streams' T.
    induction Hf as [|s rest Hs _ IH]; intros out streams' T.
    + now inv T.
    + rewrite tick_cons in T.
      assert (E : drain o c s = ([], Returned s)).
      { destruct Hs as [[Hx Hs']|(Hr & Hcl & Hd)].
        - unfold drain. destruct (buffer s) as [|b l] eqn:B; [congruence|].
          rewrite (classify_future c (b :: l))
            by (split; [discriminate|assumption]).
          unfold ret. rewrite <- B. f_equal. f_equal. now destruct s.
        - rewrite drain_rowsOf, Hr, Hcl. cbn [drainChan]. unfold ret.
          f_equal. f_equal. destruct s as [[q cl] b d]. unfold rowsOf in Hr.
          simpl in *. destruct b; [|discriminate]. now subst. }
      rewrite E in T.
      destruct (tick o c rest) as [e2 [rest'| k | | ]]; try discriminate.
      inv T. destruct (IH _ _ eq_refl) as [-> ->]. auto.
  - intros s taken dataRow rest E Ht Hf.
    rewrite drain_rowsOf, E, drainChan_due_prefix by assumption.
    cbn [drainChan]. rewrite (classify_future _ _ Hf).
    unfold send, ret. simpl. now rewrite app_nil_r.
Qed.

Lemma drain_latch o c s out s' :
  done s = true -> drain o c s = (out, Returned s') -> done s' = true.
Proof.
  intros Hd H. destruct (drain_returned _ _ _ _ _ H) as (_ & rest & _ & _ & _ & St).
  destruct St; simpl; auto.
Qed.

(** C10 (amended).  A zero-length line is the end-of-stream sentinel of
    the tick in which it is read: the drain of the stream stops there
    without an error, with the done flag set, having posted the due rows
    in front of the empty line and none of the rows behind it; a done flag
    that is set stays set.  If every stream is done at the end of that
    tick, the merge loop returns and the rows behind the empty line are
    left in the channel, never posted. *)
Theorem empty_line_is_sentinel o c s taken rest :
  rowsOf s = taken ++ [] :: rest ->
  Forall (dueRow c) taken ->
  let s1 := {| dataChan := {| queued := rest; closes := closes (dataChan s) |};
               buffer := []; done := true |} in
  drain o c s = (postAll o taken, Returned s1)
  /\ (forall t out t',
        done t = true -> drain o c t = (out, Returned t') -> done t' = true)
  /\ (forall fuel before after out streams',
        tick o c (before ++ s :: after) = (out, Returned streams') ->
        allDone streams' = true ->
        mergeLoop (S fuel) o c (before ++ s :: after)
        = (out, Returned (c, streams'))
        /\ nth_error streams' (length before) = Some s1).
Proof.
  intros E Ht s1.
  assert (D : drain o c s = (postAll o taken, Returned s1)).
  { rewrite drain_rowsOf, E, drainChan_due_prefix by assumption.
    cbn [drainChan classify]. unfold send, ret. simpl. now rewrite app_nil_r. }
  split; [assumption|]. split; [intros t out t'; apply drain_latch|].
  intros fuel before after out streams' T A. split.
  - now rewrite mergeLoop_S, T, A.
  - apply tick_returned in T. apply Forall2_app_inv_l in T.
    destruct T as (l1 & l2 & F1 & F2 & ->). inv F2.
    destruct H1 as [e H1]. rewrite D in H1. inv H1.
    rewrite nth_error_app2 by (rewrite (Forall2_length F1); lia).
    rewrite (Forall2_length F1), Nat.sub_diag. reflexivity.
Qed.

(** ** Further properties of the replay *)

Lemma post_ID o dataRow data ev : In ev (post o dataRow data) -> ID ev = 0.
Proof.
  unfold post.
  destruct (negb (pairsSubID o =? 0) && notNil (Pair data));
    destruct (negb (swapsSubID o =? 0) && notNil (Swap data));
    simpl; intros H; repeat (destruct H as [H|H]); try contradiction;
    subst ev; reflexivity.
Qed.

(** What a merge loop sends comes from the rows its streams hold. *)
Lemma mergeLoop_posts o fuel : forall c streams out r ev,
  mergeLoop fuel o c streams = (out, r) -> In ev out ->
  exists data,
    In (Params ev) (flat_map rowsOf streams) /\
    unmarshal (Params ev) = Some data /\ In ev (post o (Params ev) data).
Proof.
  induction fuel as [|fuel IH]; intros c streams out r ev H Hev;
    [inv H; contradiction|].
  rewrite mergeLoop_S in H.
  destruct (tick o c streams) as [e r1] eqn:T.
  assert (Hhead : In ev e -> exists data,
             In (Params ev) (flat_map rowsOf streams) /\
             unmarshal (Params ev) = Some data /\ In ev (post o (Params ev) data)).
  { intros Hin.
    destruct (tick_sends _ _ _ _ _ _ T Hin) as (s & data & Hs & Hp & Hu & _ & Hpost).
    exists data. split; [|auto]. apply in_flat_map. eauto. }
  destruct r1 as [s1| k | | ]; try (inv H; auto; fail).
  destruct (allDone s1); [inv H; auto|].
  destruct (mergeLoop fuel o (uint64 (c + 1)) s1) as [e2 r2] eqn:E.
  rewrite send_pair in H. inv H. apply in_app_or in Hev.
  destruct Hev as [Hev|Hev]; [auto|].
  destruct (IH _ _ _ _ _ E Hev) as (data & Hin & Hu & Hp).
  exists data. split; [|auto]. now apply (tick_keeps _ _ _ _ _ T).
Qed.

Lemma runSegments_posts o fuel : forall dataFiles num slot out r ev,
  runSegments fuel o (S num) slot dataFiles = (out, r) -> In ev out ->
  exists data,
    In (Params ev) (concat (concat dataFiles)) /\
    unmarshal (Params ev) = Some data /\ In ev (post o (Params ev) data).
Proof.
  induction dataFiles as [|logs rest IH]; intros num slot out r ev H Hev;
    [inv H; contradiction|].
  rewrite runSegments_next in H.
  destruct (mergeLoop fuel o slot (openStreams logs)) as [e r1] eqn:M.
  assert (Hhead : In ev e -> exists data,
             In (Params ev) (concat (concat (logs :: rest))) /\
             unmarshal (Params ev) = Some data /\ In ev (post o (Params ev) data)).
  { intros Hin. destruct (mergeLoop_posts _ _ _ _ _ _ _ M Hin) as (data & Hp & Hu & Hpost).
    exists data. split; [|auto]. rewrite flat_map_rowsOf_openStreams in Hp.
    simpl. rewrite concat_app. apply in_or_app. now left. }
  destruct r1 as [[c1 s1]| k | | ]; try (inv H; auto; fail).
  unfold bind in H. cbn [fst snd] in H.
  destruct (runSegments fuel o (S (S num)) c1 rest) as [e2 r2] eqn:R.
  rewrite send_pair in H. inv H. apply in_app_or in Hev.
  destruct Hev as [Hev|Hev]; [auto|].
  destruct (IH _ _ _ _ _ R Hev) as (data & Hin & Hu & Hp).
  exists data. split; [|auto]. simpl. rewrite concat_app. apply in_or_app.
  now right.
Qed.

Lemma RunSimulation_posts o fuel dataFiles ev :
  In ev (fst (RunSimulation fuel o dataFiles)) ->
  exists data,
    In (Params ev) (concat (concat dataFiles)) /\
    unmarshal (Params ev) = Some data /\ In ev (post o (Params ev) data).
Proof.
  unfold RunSimulation. destruct dataFiles as [|logs rest]; [intros []|].
  rewrite runSegments_first. destruct (getStartingSlot logs) as [c0|];
    [|intros []].
  destruct (runSegments fuel o 1 c0 (logs :: rest)) as [out r] eqn:R.
  intros Hev. eapply runSegments_posts; eauto.
Qed.

(** X2.  Whatever the archive and however the replay ends, each envelope
    on the output feed carries, unchanged, a line of the archive that
    decodes; its [ID] field is never set, and its method is one of the two
    notification names. *)
Theorem envelopes_carry_archive_lines o fuel dataFiles ev :
  In ev (fst (RunSimulation fuel o dataFiles)) ->
  In (Params ev) (concat (concat dataFiles)) /\
  unmarshal (Params ev) <> None /\
  ID ev = 0 /\
  (Method ev = "newPairNotification"%string \/
   Method ev = "swapNotification"%string).
Proof.
  intros Hev. destruct (RunSimulation_posts _ _ _ _ Hev) as (data & Hin & Hu & Hp).
  split; [assumption|]. split; [congruence|]. split; [eapply post_ID; eauto|].
  destruct (In_post _ _ _ _ Hp) as [_ [(H & _)|(H & _)]]; auto.
Qed.









Lemma getStartingSlotFrom_none logs : forall acc,
  getStartingSlotFrom acc logs = None <->
  exists dataRow, In dataRow (firstRows logs) /\ unmarshal dataRow = None.
Proof.
  induction logs as [|log logs IH]; intros acc.
  - simpl. split; [discriminate | intros (r & [] & _)].
  - destruct log as [|x log]; [apply IH|].
    cbn [getStartingSlotFrom]. unfold firstRows. cbn [flat_map firstn app].
    fold (firstRows logs). destruct (unmarshal x) as [data|] eqn:Hu.
    + rewrite IH. split; intros (r & Hin & Hr); exists r.
      * split; [now right | assumption].
      * destruct Hin as [<-|Hin]; [congruence | auto].
    + split; [|reflexivity]. intros _. exists x. split; [now left | assumption].
Qed.

Lemma getStartingSlotFrom_some logs : forall acc c,
  getStartingSlotFrom acc logs = Some c ->
  c = acc \/ exists dataRow, In dataRow (firstRows logs) /\ key dataRow = c.
Proof.
  induction logs as [|log logs IH]; intros acc c H.
  - inv H. now left.
  - destruct log as [|x log]; [now apply IH|].
    cbn [getStartingSlotFrom] in H. unfold firstRows. cbn [flat_map firstn app].
    fold (firstRows logs). destruct (unmarshal x) as [data|] eqn:Hu;
      [|discriminate].
    destruct (IH _ _ H) as [->|(r & Hin & Hr)].
    + destruct ((Slot data <? acc) || (acc =? 0)); [|now left].
      right. exists x. split; [now left|]. unfold key. now rewrite Hu.
    + right. exists r. split; [now right | assumption].
Qed.

Lemma first_unreadable (P : row -> Prop) front : forall line back front' line' back',
  front ++ line :: back = front' ++ line' :: back' ->
  Forall P front -> ~ P line -> Forall P front' -> ~ P line' ->
  front = front' /\ line = line'.
Proof.
  induction front as [|x front IH]; intros line back front' line' back' E F N F' N'.
  - destruct front' as [|y front']; simpl in E; inv E; [auto|].
    now destruct (N (Forall_inv F')).
  - destruct front' as [|y front']; simpl in E; inv E.
    + now destruct (N' (Forall_inv F)).
    + destruct (IH _ _ _ _ _ H1 (Forall_inv_tail F) N (Forall_inv_tail F') N')
        as [-> ->]. auto.
Qed.

Lemma scanStartingSlotFrom_cases files : forall acc,
  match scanStartingSlotFrom acc files with
  | StartScanError =>
      exists front line back,
        firstRows files = front ++ line :: back /\ Forall readable front /\
        tooLong line = true
  | StartCantUnmarshal =>
      exists front line back,
        firstRows files = front ++ line :: back /\ Forall readable front /\
        tooLong line = false /\ unmarshal (dropCR line) = None
  | StartAt c =>
      Forall readable (firstRows files) /\
      (c = acc \/
       exists line, In line (firstRows files) /\ key (dropCR line) = c)
  end.
Proof.
  induction files as [|file files IH]; intros acc.
  - simpl. split; [constructor | now left].
  - destruct file as [|line file]; [apply IH|].
    cbn [scanStartingSlotFrom].
    change (firstRows ((line :: file) :: files)) with (line :: firstRows files).
    destruct (tooLong line) eqn:T.
    + exists [], line, (firstRows files). auto.
    + destruct (unmarshal (dropCR line)) as [data|] eqn:Hu.
      * assert (R : readable line) by (split; [assumption | congruence]).
        specialize (IH (if (Slot data <? acc) || (acc =? 0)
                        then Slot data else acc)).
        destruct (scanStartingSlotFrom _ files) as [c| | ].
        -- destruct IH as [F H]. split; [now constructor|].
           destruct H as [->|(l & Hin & Hl)].
           ++ destruct ((Slot data <? acc) || (acc =? 0)); [|now left].
              right. exists line. split; [now left|]. unfold key. now rewrite Hu.
           ++ right. exists l. split; [now right | assumption].
        -- destruct IH as (front & l & back & E & F & H).
           exists (line :: front), l, back. rewrite E. split; [reflexivity|].
           split; [now constructor | assumption].
        -- destruct IH as (front & l & back & E & F & H).
           exists (line :: front), l, back. rewrite E. split; [reflexivity|].
           split; [now constructor | assumption].
      * exists [], line, (firstRows files). auto.
Qed.

Lemma scanStartingSlotFrom_short files : forall acc,
  Forall (fun line => tooLong line = false) (firstRows files) ->
  scanStartingSlotFrom acc files
  = match getStartingSlotFrom acc (map (map dropCR) files) with
    | Some c => StartAt c
    | None => StartCantUnmarshal
    end.
Proof.
  induction files as [|file files IH]; intros acc H; [reflexivity|].
  destruct file as [|line file]; [now apply IH|].
  change (firstRows ((line :: file) :: files)) with (line :: firstRows files) in H.
  cbn [scanStartingSlotFrom map getStartingSlotFrom].
  rewrite (Forall_inv H). destruct (unmarshal (dropCR line)); [|reflexivity].
  apply IH. exact (Forall_inv_tail H).
Qed.

(** X3.  [getStartingSlot] looks at the first line of every file, in
    order, and at nothing else; files without lines are passed over.  It
    returns the scanner's error exactly when the first of these lines that
    is not readable is too long for the scanner (64 KiB or more), and the
    decode error exactly when that line is short enough and does not
    decode.  It succeeds exactly when every first line is readable; the
    cursor is then the temporal key of one of them, or 0, and it is 0 when
    no file has a line.  On files whose first lines are below the limit it
    is the function the replay is stated with. *)
Theorem getStartingSlot_first_lines files :
  (scanStartingSlot files = StartScanError <->
   exists front line back,
     firstRows files = front ++ line :: back /\ Forall readable front /\
     tooLong line = true)
  /\
  (scanStartingSlot files = StartCantUnmarshal <->
   exists front line back,
     firstRows files = front ++ line :: back /\ Forall readable front /\
     tooLong line = false /\ unmarshal (dropCR line) = None)
  /\
  ((exists c, scanStartingSlot files = StartAt c) <->
   Forall readable (firstRows files))
  /\
  (forall c, scanStartingSlot files = StartAt c ->
             c = 0 \/
             exists line, In line (firstRows files) /\ key (dropCR line) = c)
  /\
  (firstRows files = [] -> scanStartingSlot files = StartAt 0)
  /\
  (Forall (fun line => tooLong line = false) (firstRows files) ->
   scanStartingSlot files
   = match getStartingSlot (map (map dropCR) files) with
     | Some c => StartAt c
     | None => StartCantUnmarshal
     end).
Proof.
  unfold scanStartingSlot.
  pose proof (scanStartingSlotFrom_cases files 0) as C.
  assert (NL : forall line, tooLong line = true -> ~ readable line)
    by (intros line T [T' _]; congruence).
  assert (ND : forall line, unmarshal (dropCR line) = None -> ~ readable line)
    by (intros line U [_ U']; congruence).
  assert (In_mid : forall (front : list row) line back,
             In line (front ++ line :: back))
    by (intros; apply in_or_app; right; now left).
  split; [|split; [|split; [|split; [|split]]]].
  - split.
    + intros E. now rewrite E in C.
    + intros (front & line & back & E & F & T).
      destruct (scanStartingSlotFrom 0 files) as [c| | ]; [| |reflexivity];
        exfalso.
      * destruct C as [Fa _]. rewrite E, Forall_forall in Fa.
        exact (NL line T (Fa line (In_mid _ _ _))).
      * destruct C as (front' & line' & back' & E' & F' & T' & U').
        rewrite E in E'.
        destruct (first_unreadable readable _ _ _ _ _ _ E' F (NL _ T) F'
                    (ND _ U')) as [_ ->].
        congruence.
  - split.
    + intros E. now rewrite E in C.
    + intros (front & line & back & E & F & T & U).
      destruct (scanStartingSlotFrom 0 files) as [c| | ]; [|reflexivity|];
        exfalso.
      * destruct C as [Fa _]. rewrite E, Forall_forall in Fa.
        exact (ND line U (Fa line (In_mid _ _ _))).
      * destruct C as (front' & line' & back' & E' & F' & T').
        rewrite E in E'.
        destruct (first_unreadable readable _ _ _ _ _ _ E' F (ND _ U) F'
                    (NL _ T')) as [_ ->].
        congruence.
  - split.
    + intros (c & E). rewrite E in C. tauto.
    + intros Fa. destruct (scanStartingSlotFrom 0 files) as [c| | ]; [eauto| |];
        exfalso.
      * destruct C as (front & line & back & E & _ & _ & U).
        rewrite E, Forall_forall in Fa.
        exact (ND line U (Fa line (In_mid _ _ _))).
      * destruct C as (front & line & back & E & _ & T).
        rewrite E, Forall_forall in Fa.
        exact (NL line T (Fa line (In_mid _ _ _))).
  - intros c E. rewrite E in C. tauto.
  - intros E. destruct (scanStartingSlotFrom 0 files) as [c| | ].
    + destruct C as [_ [->|(line & Hin & _)]]; [reflexivity|].
      rewrite E in Hin. contradiction.
    + destruct C as (front & line & back & E' & _). rewrite E in E'.
      now destruct front.
    + destruct C as (front & line & back & E' & _). rewrite E in E'.
      now destruct front.
  - intros H. unfold getStartingSlot. now apply scanStartingSlotFrom_short.
Qed.

Lemma mergeLoop_healthy_short o :
  uint64Decoder ->
  forall fuel c streams,
    0 <= c -> Forall (healthy c) streams ->
    (fuel <= Z.to_nat (lastSlot c (concat (map rowsOf streams)) - c))%nat ->
    snd (mergeLoop fuel o c streams) = OutOfFuel.
Proof.
  intros HU. induction fuel as [|fuel IH]; intros c streams Hc Hh Hf;
    [reflexivity|].
  rewrite mergeLoop_S, tick_healthy by assumption.
  pose proof (allDone_advance c streams Hh) as HA.
  destruct (rows_advance c streams Hh) as [Hrows Hh'].
  destruct (allDone (map (advance c) streams)).
  - rewrite lastSlot_same in Hf by assumption. lia.
  - destruct HA as (x & Hx & Hk). pose proof (key_range x HU) as Hr.
    rewrite uint64_small by lia. unfold send. cbn [snd].
    assert (HL : lastSlot (c + 1) (concat (map rowsOf (map (advance c) streams)))
                 = lastSlot c (concat (map rowsOf streams))).
    { rewrite Hrows. unfold later at 1. rewrite concat_filter_map.
      apply lastSlot_later. eauto. }
    apply IH; [lia | assumption|]. rewrite HL. lia.
Qed.

(** X4.  The merge loop of a well-formed segment entered at cursor [c]
    runs exactly one tick for every cursor value from [c] to the largest
    key of the segment, whether or not a record is due at that value: a
    budget of fewer ticks does not let it finish, that many do. *)
Theorem merge_ticks_span_keys o c logs fuel :
  uint64Decoder -> 0 <= c ->
  recordsOnly logs -> sortedLogs logs ->
  (forall dataRow, In dataRow (concat logs) -> c <= key dataRow) ->
  (snd (mergeLoop fuel o c (openStreams logs)) = OutOfFuel <->
   (fuel < S (Z.to_nat (lastSlot c (concat logs) - c)))%nat)
  /\
  ((S (Z.to_nat (lastSlot c (concat logs) - c)) <= fuel)%nat ->
   exists out streams',
     mergeLoop fuel o c (openStreams logs)
     = (out, Returned (lastSlot c (concat logs), streams'))).
Proof.
  intros HU Hc Hrec Hs Hge.
  pose proof (openStreams_healthy c logs Hrec Hs Hge) as Hh.
  assert (Hdone : (S (Z.to_nat (lastSlot c (concat logs) - c)) <= fuel)%nat ->
            exists out streams',
              mergeLoop fuel o c (openStreams logs)
              = (out, Returned (lastSlot c (concat logs), streams'))).
  { intros Hf.
    destruct (mergeLoop_healthy o HU _ c (openStreams logs) fuel Hc Hh eq_refl)
      as (final & M & _).
    - rewrite rowsOf_openStreams. lia.
    - rewrite rowsOf_openStreams in M. eauto. }
  split; [|assumption]. split.
  - intros Hout.
    destruct (Nat.lt_ge_cases fuel (S (Z.to_nat (lastSlot c (concat logs) - c))))
      as [Hlt|Hge']; [assumption|].
    destruct (Hdone Hge') as (out & s' & M). rewrite M in Hout. discriminate.
  - intros Hlt. apply mergeLoop_healthy_short; try assumption.
    rewrite rowsOf_openStreams. lia.
Qed.

(** *** The reads of a replay do not depend on the subscriptions *)









(** *** Replaying an archive from which lines were removed *)

Lemma filter_comm {A} (p q : A -> bool) l :
  filter p (filter q l) = filter q (filter p l).
Proof.
  induction l as [|x l IH]; simpl; [reflexivity|].
  destruct (q x) eqn:Q; destruct (p x) eqn:P; simpl; rewrite ?P, ?Q, ?IH;
    reflexivity.
Qed.

Lemma filter_flat_map {A B} (f : A -> list B) (p : B -> bool) l :
  filter p (flat_map f l) = flat_map (fun x => filter p (f x)) l.
Proof.
  induction l as [|x l IH]; simpl; [reflexivity|]. now rewrite filter_app, IH.
Qed.

Lemma concat_filter_logs (p : row -> bool) (logs : segment) :
  concat (map (filter p) logs) = filter p (concat logs).
Proof.
  induction logs as [|l logs IH]; simpl; [reflexivity|].
  now rewrite filter_app, IH.
Qed.

Lemma concat_filter_archive (p : row -> bool) (dataFiles : list segment) :
  concat (concat (map (map (filter p)) dataFiles)) =
  filter p (concat (concat dataFiles)).
Proof. now rewrite <- concat_map, concat_filter_logs. Qed.

Lemma emittedAt_filter p k logs :
  emittedAt k (map (filter p) logs) = filter p (emittedAt k logs).
Proof.
  unfold emittedAt. rewrite filter_flat_map.
  induction logs as [|l logs IH]; simpl; [reflexivity|].
  rewrite IH. f_equal. unfold due. apply filter_comm.
Qed.

Lemma replayOrder_filter p n logs : forall c,
  replayOrder c n (map (filter p) logs) = filter p (replayOrder c n logs).
Proof.
  induction n as [|n IH]; intros c; [reflexivity|].
  now rewrite !replayOrder_S, filter_app, emittedAt_filter, IH.
Qed.

Lemma replayOrder_app n m logs : forall c,
  replayOrder c (n + m) logs =
  replayOrder c n logs ++ replayOrder (c + Z.of_nat n) m logs.
Proof.
  induction n as [|n IH]; intros c.
  - change (Z.of_nat 0) with 0. now rewrite Z.add_0_r.
  - change (S n + m)%nat with (S (n + m)).
    rewrite !replayOrder_S, IH, <- app_assoc.
    replace (c + 1 + Z.of_nat n) with (c + Z.of_nat (S n)) by lia. reflexivity.
Qed.

Lemma replayOrder_absent n logs c :
  (forall dataRow, In dataRow (concat logs) ->
                   key dataRow < c \/ c + Z.of_nat n <= key dataRow) ->
  replayOrder c n logs = [].
Proof.
  intros H. destruct (replayOrder c n logs) as [|r l] eqn:E; [reflexivity|].
  assert (Hin : In r (replayOrder c n logs)) by (rewrite E; now left).
  apply In_replayOrder in Hin. destruct Hin as [Hin Hk].
  destruct (H _ Hin); lia.
Qed.

Lemma replayOrder_shrink c n lo m logs :
  c <= lo -> lo + Z.of_nat m <= c + Z.of_nat n ->
  (forall dataRow, In dataRow (concat logs) ->
                   lo <= key dataRow < lo + Z.of_nat m) ->
  replayOrder c n logs = replayOrder lo m logs.
Proof.
  intros H1 H2 H.
  replace n with (Z.to_nat (lo - c)
                  + (m + Z.to_nat (c + Z.of_nat n - (lo + Z.of_nat m))))%nat
    by lia.
  rewrite !replayOrder_app.
  replace (c + Z.of_nat (Z.to_nat (lo - c))) with lo by lia.
  rewrite (replayOrder_absent (Z.to_nat (lo - c)) logs c),
          (replayOrder_absent _ logs (lo + Z.of_nat m)).
  - now rewrite app_nil_r.
  - intros r Hr. specialize (H _ Hr). lia.
  - intros r Hr. specialize (H _ Hr). lia.
Qed.

(** The rows of a segment come out in the same order from any range of
    cursor values that covers all their keys. *)
Lemma replayOrder_window c n c' n' logs :
  (forall dataRow, In dataRow (concat logs) ->
     c <= key dataRow < c + Z.of_nat n /\
     c' <= key dataRow < c' + Z.of_nat n') ->
  replayOrder c n logs = replayOrder c' n' logs.
Proof.
  intros H.
  assert (E : concat logs = [] \/ exists r, In r (concat logs)).
  { destruct (concat logs) as [|r l]; [now left | right; exists r; now left]. }
  destruct E as [E|(r & Hr)].
  - rewrite !replayOrder_absent; [reflexivity| |];
      intros x Hx; rewrite E in Hx; contradiction.
  - pose proof (H _ Hr) as Hk.
    set (lo := Z.max c c').
    set (m := Z.to_nat (Z.min (c + Z.of_nat n) (c' + Z.of_nat n') - lo)).
    rewrite (replayOrder_shrink c n lo m), (replayOrder_shrink c' n' lo m);
      [reflexivity|..]; subst lo m; try lia;
      intros x Hx; specialize (H _ Hx); lia.
Qed.

Lemma archiveOrder_filter p dataFiles : forall c c',
  temporalOrder dataFiles ->
  (forall dataRow, In dataRow (concat (concat dataFiles)) -> c <= key dataRow) ->
  (forall dataRow,
     In dataRow (concat (concat (map (map (filter p)) dataFiles))) ->
     c' <= key dataRow) ->
  archiveOrder c' (map (map (filter p)) dataFiles) =
  filter p (archiveOrder c dataFiles).
Proof.
  induction dataFiles as [|logs rest IH]; intros c c' Ht Hc Hc'; [reflexivity|].
  cbn [map archiveOrder]. rewrite filter_app. destruct Ht as [Hcross Ht].
  assert (Hsub : forall r, In r (concat (map (filter p) logs)) ->
                           In r (concat logs)).
  { intros r Hr. rewrite concat_filter_logs in Hr. now apply filter_In in Hr. }
  assert (Hsub' : forall r,
             In r (concat (concat (map (map (filter p)) rest))) ->
             In r (concat (concat rest))).
  { intros r Hr. rewrite concat_filter_archive in Hr. now apply filter_In in Hr. }
  assert (Hc1 : forall r, In r (concat logs) -> c <= key r).
  { intros r Hr. apply Hc. simpl. rewrite concat_app. apply in_or_app. now left. }
  assert (Hc2 : forall r, In r (concat (concat rest)) -> c <= key r).
  { intros r Hr. apply Hc. simpl. rewrite concat_app. apply in_or_app. now right. }
  assert (Hc1' : forall r, In r (concat (map (filter p) logs)) -> c' <= key r).
  { intros r Hr. apply Hc'. simpl. rewrite concat_app. apply in_or_app. now left. }
  assert (Hc2' : forall r,
             In r (concat (concat (map (map (filter p)) rest))) -> c' <= key r).
  { intros r Hr. apply Hc'. simpl. rewrite concat_app. apply in_or_app. now right. }
  f_equal.
  - rewrite <- replayOrder_filter. apply replayOrder_window. intros r Hr.
    unfold ticksOf.
    pose proof (lastSlot_ge_key (concat (map (filter p) logs)) c' r Hr).
    pose proof (lastSlot_ge_key (concat logs) c r (Hsub _ Hr)).
    pose proof (Hc1 _ (Hsub _ Hr)). pose proof (Hc1' _ Hr). lia.
  - apply IH; [assumption| |].
    + intros r Hr. apply lastSlot_le; [now apply Hc2|].
      intros x Hx. now apply Hcross.
    + intros r Hr. apply lastSlot_le; [now apply Hc2'|].
      intros x Hx. apply Hcross; [now apply Hsub | now apply Hsub'].
Qed.

Lemma recordsOnly_filter p logs :
  recordsOnly logs -> recordsOnly (map (filter p) logs).
Proof.
  unfold recordsOnly. rewrite Forall_map. apply Forall_impl.
  intros l Hl. apply Forall_forall. intros r Hr. apply filter_In in Hr.
  rewrite Forall_forall in Hl. now apply Hl.
Qed.

Lemma sortedLogs_filter p logs :
  sortedLogs logs -> sortedLogs (map (filter p) logs).
Proof.
  unfold sortedLogs. rewrite Forall_map. apply Forall_impl.
  intros l Hl. apply StronglySorted_Sorted, StronglySorted_map_filter.
  apply Sorted_StronglySorted; [exact Z.le_trans | assumption].
Qed.

Lemma temporalOrder_filter p dataFiles :
  temporalOrder dataFiles -> temporalOrder (map (map (filter p)) dataFiles).
Proof.
  induction dataFiles as [|logs rest IH]; [trivial|].
  intros [Hcross Ht]. cbn [map temporalOrder]. split; [|now apply IH].
  intros a b Ha Hb. rewrite concat_filter_logs in Ha.
  rewrite concat_filter_archive in Hb.
  apply filter_In in Ha. apply filter_In in Hb. apply Hcross; tauto.
Qed.

Lemma noZeroStart_filter p logs :
  uint64Decoder -> sortedLogs logs -> noZeroStart logs ->
  noZeroStart (map (filter p) logs).
Proof.
  intros HU Hs Hnz. unfold noZeroStart in *. apply Forall_forall.
  intros r Hr. apply In_firstRows in Hr. rewrite concat_filter_logs in Hr.
  apply filter_In in Hr. destruct Hr as [Hr _].
  assert (H1 : 1 <= key r).
  { apply (firstRows_least logs 1 Hs); [|assumption].
    intros x Hx. rewrite Forall_forall in Hnz. specialize (Hnz _ Hx).
    pose proof (key_range x HU). lia. }
  lia.
Qed.

(** The replay of a well-formed archive, and the cursor it starts at. *)
Lemma RunSimulation_wellformed o dataFiles :
  uint64Decoder ->
  Forall recordsOnly dataFiles -> Forall sortedLogs dataFiles ->
  noZeroStart (hd [] dataFiles) -> temporalOrder dataFiles ->
  (forall dataRow, In dataRow (concat (concat dataFiles)) ->
                   initialSlot dataFiles <= key dataRow) /\
  exists fuel,
    forall fuel', (fuel <= fuel')%nat ->
      RunSimulation fuel' o dataFiles
      = (postAll o (archiveOrder (initialSlot dataFiles) dataFiles),
         Returned (endSlot (initialSlot dataFiles) dataFiles)).
Proof.
  intros HU Hrec Hs Hnz Ht.
  unfold RunSimulation. destruct dataFiles as [|logs rest].
  - split; [intros r []|]. exists 0%nat. reflexivity.
  - simpl in Hnz. unfold initialSlot.
    assert (Hfr : Forall isRecord (firstRows logs)).
    { pose proof (Forall_inv Hrec) as Hr1.
      apply Forall_forall. intros r Hr. apply In_firstRows in Hr.
      unfold recordsOnly in Hr1. rewrite <- Forall_concat in Hr1.
      rewrite Forall_forall in Hr1. now apply Hr1. }
    destruct (getStartingSlot_least logs HU Hfr Hnz) as (G & H0 & Hle).
    set (c0 := leastKey (firstRows logs)) in *.
    assert (Hge : forall r, In r (concat (concat (logs :: rest))) -> c0 <= key r).
    { intros r Hr. simpl in Hr. rewrite concat_app in Hr. apply in_app_or in Hr.
      destruct Hr as [Hr|Hr].
      - now apply (firstRows_least logs c0 (Forall_inv Hs) Hle).
      - destruct (firstRows logs) as [|x l] eqn:F.
        + subst c0. simpl. apply (key_range r HU).
        + assert (Hx : In x (firstRows logs)) by (rewrite F; now left).
          destruct Ht as [Hcross _].
          pose proof (Hcross x r (In_firstRows _ _ Hx) Hr).
          specialize (Hle x ltac:(now left)). lia. }
    split; [exact Hge|].
    destruct (runSegments_ordered o HU (logs :: rest) 0%nat c0 H0 Hrec Hs Ht Hge)
      as (fuel & R).
    exists fuel. intros fuel' Hf. rewrite runSegments_first, G. now apply R.
Qed.

Lemma filter_same_row (p : row -> bool) dataRow (out : list JSONRPC) :
  (forall ev, In ev out -> Params ev = dataRow) ->
  filter (fun ev => p (Params ev)) out = if p dataRow then out else [].
Proof.
  induction out as [|ev out IH]; intros H; [now destruct (p dataRow)|].
  simpl. rewrite (H ev (or_introl eq_refl)), IH by (intros; apply H; now right).
  now destruct (p dataRow).
Qed.

Lemma postAll_filter o p rows :
  filter (fun ev => p (Params ev)) (postAll o rows) = postAll o (filter p rows).
Proof.
  induction rows as [|r rows IH]; [reflexivity|].
  change (r :: rows) with ([r] ++ rows). rewrite postAll_app, filter_app, IH.
  change (filter p ([r] ++ rows)) with (filter p (r :: rows)). simpl.
  unfold postAll at 1. simpl. rewrite app_nil_r.
  destruct (unmarshal r) as [data|] eqn:U.
  - rewrite (filter_same_row p r) by (intros ev Hev; now apply In_post in Hev).
    destruct (p r); [|reflexivity].
    change (r :: filter p rows) with ([r] ++ filter p rows).
    rewrite postAll_app. unfold postAll at 1. simpl. now rewrite app_nil_r, U.
  - simpl. destruct (p r); [|reflexivity].
    change (r :: filter p rows) with ([r] ++ filter p rows).
    rewrite postAll_app. unfold postAll at 1. simpl. now rewrite U.
Qed.

(** Removing lines from the logs of a well-formed archive removes their
    envelopes from the replay and changes nothing else. *)
Lemma RunSimulation_filter o p dataFiles :
  uint64Decoder ->
  Forall recordsOnly dataFiles -> Forall sortedLogs dataFiles ->
  noZeroStart (hd [] dataFiles) -> temporalOrder dataFiles ->
  exists fuel out c c',
    forall fuel', (fuel <= fuel')%nat ->
      RunSimulation fuel' o dataFiles = (out, Returned c) /\
      RunSimulation fuel' o (map (map (filter p)) dataFiles) =
      (filter (fun ev => p (Params ev)) out, Returned c').
Proof.
  intros HU Hrec Hs Hnz Ht.
  destruct (RunSimulation_wellformed o dataFiles HU Hrec Hs Hnz Ht)
    as (Hge & fuel1 & R1).
  assert (Hrec' : Forall recordsOnly (map (map (filter p)) dataFiles)).
  { rewrite Forall_map. eapply Forall_impl; [|exact Hrec].
    intros l. apply recordsOnly_filter. }
  assert (Hs' : Forall sortedLogs (map (map (filter p)) dataFiles)).
  { rewrite Forall_map. eapply Forall_impl; [|exact Hs].
    intros l. apply sortedLogs_filter. }
  assert (Hnz' : noZeroStart (hd [] (map (map (filter p)) dataFiles))).
  { destruct dataFiles as [|logs rest]; [constructor|].
    simpl. apply noZeroStart_filter; [assumption | exact (Forall_inv Hs) | exact Hnz]. }
  pose proof (temporalOrder_filter p dataFiles Ht) as Ht'.
  destruct (RunSimulation_wellformed o _ HU Hrec' Hs' Hnz' Ht')
    as (Hge' & fuel2 & R2).
  exists (Nat.max fuel1 fuel2). do 3 eexists. intros fuel' Hf. split.
  - apply R1. lia.
  - rewrite R2 by lia.
    rewrite (archiveOrder_filter p dataFiles (initialSlot dataFiles) _ Ht Hge Hge').
    rewrite postAll_filter. reflexivity.
Qed.

End Replay.

(** ** The sample decoder *)

Lemma readDigits_nonneg l : forall acc, 0 <= acc -> 0 <= fst (readDigits acc l).
Proof.
  induction l as [|b l IH]; intros acc Hacc; [assumption|].
  simpl. destruct (isDigit b) eqn:D; [|assumption].
  apply IH. unfold isDigit in D. apply andb_prop in D. destruct D as [D _].
  apply N.leb_le in D. lia.
Qed.

Lemma sampleUnmarshal_uint64 : uint64Decoder sampleUnmarshal.
Proof.
  intros dataRow data. unfold sampleUnmarshal.
  destruct (stripPrefix _ dataRow) as [rest|]; [|discriminate].
  destruct rest as [|d more]; [discriminate|].
  destruct (isDigit d && _); [|discriminate].
  pose proof (readDigits_nonneg (d :: more) 0 (Z.le_refl 0)) as Hn.
  destruct (readDigits 0 (d :: more)) as [n tail]. simpl in Hn.
  destruct (Z.leb_spec (2 ^ 64) n); [discriminate|].
  repeat match goal with
         | |- (if ?b then _ else _) = _ -> _ => destruct b
         end;
    intros E; inv E; simpl; lia.
Qed.

Example sample_line_pair :
  sampleUnmarshal (json "{'slot':5,'pair':{}}")
  = Some {| Slot := 5; Pair := Some tt; Swap := None |}.
Proof. reflexivity. Qed.

Example sample_line_cut : sampleUnmarshal (json "{'slot':3,'pa") = None.
Proof. reflexivity. Qed.

Example sample_line_empty : sampleUnmarshal [] = None.
Proof. reflexivity. Qed.

(** ** Subscriber ids *)

(** What one message does to the counter: a subscribe request whose reply
    is written gets the next id, and nothing else gets a reply. *)
Lemma handle_reply o jsonrpc written :
  (subscribeRequest (jsonrpc, written) = true /\
   snd (handle o jsonrpc written)
   = [ {| replyID := ID jsonrpc; subscription_id := nextSubID o |} ] /\
   nextSubID (fst (handle o jsonrpc written)) = uint64 (nextSubID o + 1))
  \/
  (subscribeRequest (jsonrpc, written) = false /\
   snd (handle o jsonrpc written) = [] /\
   nextSubID (fst (handle o jsonrpc written)) = nextSubID o).
Proof.
  unfold handle, subscribeRequest. cbn [fst snd].
  destruct (String.eqb (Method jsonrpc) MethodNewPairSubscribe);
    [|destruct (String.eqb (Method jsonrpc) MethodSwapSubscribe)];
    destruct written; cbn; auto.
Qed.

Lemma session_cons o jsonrpc written rest :
  String.eqb (Method jsonrpc) MethodStartSimulation = false ->
  session o ((jsonrpc, written) :: rest)
  = (snd (handle o jsonrpc written)
       ++ fst (fst (session (fst (handle o jsonrpc written)) rest)),
     snd (fst (session (fst (handle o jsonrpc written)) rest)),
     snd (session (fst (handle o jsonrpc written)) rest)).
Proof.
  intros H. cbn [session]. rewrite H.
  destruct (handle o jsonrpc written) as [o' replies]. cbn [fst snd].
  now destruct (session o' rest) as [[more started] final].
Qed.

Lemma session_ids messages : forall o,
  0 <= nextSubID o ->
  nextSubID o + Z.of_nat (length messages) < 2 ^ 64 ->
  map subscription_id (fst (fst (session o messages)))
  = map (fun i => nextSubID o + Z.of_nat i)
        (seq 0 (length (fst (fst (session o messages)))))
  /\ nextSubID (snd (session o messages))
     = nextSubID o + Z.of_nat (length (fst (fst (session o messages))))
  /\ (length (fst (fst (session o messages))) <= length messages)%nat.
Proof.
  induction messages as [|[jsonrpc written] rest IH]; intros o H0 Hb.
  - cbn. repeat split; lia.
  - destruct (String.eqb (Method jsonrpc) MethodStartSimulation) eqn:St.
    + cbn [session]. rewrite St. cbn. repeat split; lia.
    + rewrite (session_cons _ _ _ _ St). cbn [fst snd]. cbn [length] in Hb.
      set (o1 := fst (handle o jsonrpc written)).
      destruct (handle_reply o jsonrpc written) as [(_ & -> & Hn)|(_ & -> & Hn)];
        fold o1 in Hn.
      * rewrite uint64_small in Hn by lia.
        destruct (IH o1) as (E & N & L); [lia | lia |].
        rewrite N, Hn. cbn [app map length seq subscription_id].
        split; [|split; lia].
        rewrite Z.add_0_r. f_equal. rewrite E, Hn, <- seq_shift, map_map.
        apply map_ext. intros i. lia.
      * destruct (IH o1) as (E & N & L); [lia | lia |].
        rewrite N, Hn. cbn [app length]. split; [|split; lia]. now rewrite E, Hn.
Qed.

Lemma session_answers messages : forall o,
  map replyID (fst (fst (session o messages)))
  = map (fun m => ID (fst m)) (answered messages).
Proof.
  unfold answered.
  induction messages as [|[jsonrpc written] rest IH]; intros o; [reflexivity|].
  cbn [beforeStart fst].
  destruct (String.eqb (Method jsonrpc) MethodStartSimulation) eqn:St.
  - cbn [session]. now rewrite St.
  - rewrite (session_cons _ _ _ _ St). cbn [fst snd filter].
    rewrite map_app, IH.
    destruct (handle_reply o jsonrpc written) as [(-> & -> & _)|(-> & -> & _)];
      reflexivity.
Qed.

Lemma progression_sorted k n : forall j,
  StronglySorted Z.lt (map (fun i => k + Z.of_nat i) (seq j n)).
Proof.
  induction n as [|n IH]; intros j; cbn [seq map]; constructor; [apply IH|].
  rewrite Forall_map. apply Forall_forall. intros i Hi.
  apply in_seq in Hi. lia.
Qed.

Lemma progression_shift k m : forall n,
  map (fun i => k + Z.of_nat i) (seq n m)
  = map (fun i => k + Z.of_nat n + Z.of_nat i) (seq 0 m).
Proof.
  induction m as [|m IH]; intros n; cbn [seq map]; [reflexivity|].
  f_equal; [lia|]. rewrite IH, <- seq_shift, map_map. apply map_ext.
  intros i. lia.
Qed.

Lemma sorted_NoDup (l : list Z) : StronglySorted Z.lt l -> NoDup l.
Proof.
  induction 1 as [|a l Hl IH Ha]; constructor; [|assumption].
  intros Hin. rewrite Forall_forall in Ha. specialize (Ha _ Hin). lia.
Qed.

(** The ids of the replies of successive connections continue one
    another. *)
Lemma serve_ids unmarshal fuel dataFiles connections : forall o,
  0 <= nextSubID o ->
  nextSubID o + Z.of_nat (length (concat connections)) < 2 ^ 64 ->
  let ids := map (fun s => map subscription_id (fst s))
                 (serve unmarshal fuel dataFiles o connections) in
  concat ids
  = map (fun i => nextSubID o + Z.of_nat i) (seq 0 (length (concat ids)))
  /\ Forall (fun l => StronglySorted Z.lt l) ids.
Proof.
  induction connections as [|messages rest IH]; intros o H0 Hb; cbn zeta.
  - split; [reflexivity | constructor].
  - cbn [serve]. cbn [concat] in Hb. rewrite length_app in Hb.
    destruct (session_ids messages o H0 ltac:(lia)) as (E & N & L).
    destruct (session o messages) as [[replies started] o1].
    cbn [fst snd] in E, N, L. cbn [map fst concat].
    destruct (IH o1) as (E1 & F1); [lia | lia |]. cbn zeta in E1, F1.
    split.
    + rewrite length_app, length_map, seq_app, map_app, E. f_equal.
      rewrite E1 at 1. rewrite N.
      rewrite (progression_shift (nextSubID o) _ (0 + length replies)).
      reflexivity.
    + constructor; [|exact F1]. rewrite E. apply progression_sorted.
Qed.

Lemma serve_answers unmarshal fuel dataFiles connections : forall o,
  map (fun s => map replyID (fst s)) (serve unmarshal fuel dataFiles o connections)
  = map (fun messages => map (fun m => ID (fst m)) (answered messages))
        connections.
Proof.
  induction connections as [|messages rest IH]; intros o; [reflexivity|].
  cbn [serve]. pose proof (session_answers messages o) as A.
  destruct (session o messages) as [[replies started] o1]. cbn [fst] in A.
  cbn [map fst]. now rewrite A, IH.
Qed.

(** C9.  The subscriber ids the server hands out are 1, 2, 3, ... in the
    order of the replies, through all the connections it serves one after
    the other (the id counter belongs to the one task of the command and is
    a 64-bit unsigned integer, so the sessions together must have fewer
    than 2^64 - 1 messages): within each session, and from one session to
    the next, the ids are strictly increasing and none is handed out
    twice, whichever the categories subscribed.  In every session the
    replies answer, in order and under the id of the request, exactly the
    subscribe requests that arrive before [startSimulation] and whose reply
    the transport accepts; messages with another method get no reply and
    do not end the session. *)
Theorem subscriber_ids unmarshal fuel dataFiles connections :
  Z.of_nat (length (concat connections)) < 2 ^ 64 - 1 ->
  let served := Execute unmarshal fuel dataFiles connections in
  let ids := map (fun s => map subscription_id (fst s)) served in
  concat ids = map (fun i => 1 + Z.of_nat i) (seq 0 (length (concat ids)))
  /\ Forall (fun l => StronglySorted Z.lt l /\ NoDup l) ids
  /\ StronglySorted Z.lt (concat ids)
  /\ NoDup (concat ids)
  /\ map (fun s => map replyID (fst s)) served
     = map (fun messages => map (fun m => ID (fst m)) (answered messages))
           connections.
Proof.
  intros Hb served ids. subst ids served. unfold Execute.
  destruct (serve_ids unmarshal fuel dataFiles connections NewSimulateTask)
    as (E & F); [unfold NewSimulateTask; cbn; lia
                | unfold NewSimulateTask; cbn [nextSubID]; lia |].
  cbn zeta in E, F. change (nextSubID NewSimulateTask) with 1 in E.
  split; [exact E|]. split; [|split; [|split]].
  - eapply Forall_impl; [|exact F]. intros l Hl.
    split; [assumption | now apply sorted_NoDup].
  - rewrite E. apply progression_sorted.
  - apply sorted_NoDup. rewrite E. apply progression_sorted.
  - apply serve_answers.
Qed.

(** ** The properties on sample inputs *)

Lemma orderedArchive_records : Forall (recordsOnly sampleUnmarshal) orderedArchive.
Proof.
  sample_forall; split; solve [discriminate | vm_compute; discriminate].
Qed.

Lemma orderedArchive_sorted : Forall (sortedLogs sampleUnmarshal) orderedArchive.
Proof.
  sample_forall; repeat constructor; sample_le.
Qed.

Lemma orderedArchive_temporal : temporalOrder sampleUnmarshal orderedArchive.
Proof.
  split; [|split; [|exact I]]; intros a b Ha Hb; sample_in Ha; sample_in Hb;
    sample_le.
Qed.

(** On [overlappingArchive] every line is a record and every log has
    non-decreasing keys, also when the logs of a category are read one
    segment after the other; yet the replay emits key 4 before key 2. *)
Lemma overlapping_segments_unsorted :
  Forall (recordsOnly sampleUnmarshal) overlappingArchive /\
  Forall (sortedLogs sampleUnmarshal) overlappingArchive /\
  sortedLogs sampleUnmarshal
    (map (fun i => flat_map (fun logs => nth i logs []) overlappingArchive)
         (seq 0 2)) /\
  snd (RunSimulation sampleUnmarshal 4 bothSubscribed overlappingArchive)
  = Returned 5 /\
  map (envelopeKey sampleUnmarshal)
      (fst (RunSimulation sampleUnmarshal 4 bothSubscribed overlappingArchive))
  = [1; 4; 2; 5] /\
  ~ Sorted Z.le [1; 4; 2; 5].
Proof.
  split; [|split; [|split; [|split; [|split]]]].
  - sample_forall; split; solve [discriminate | vm_compute; discriminate].
  - sample_forall; repeat constructor.
  - sample_forall; repeat constructor; sample_le.
  - vm_compute. reflexivity.
  - vm_compute. reflexivity.
  - intros H. inv H. inv H2. inv H4. lia.
Qed.

Lemma RunSimulation_ordered_witness :
  (exists fuel,
     forall fuel', (fuel <= fuel')%nat ->
       RunSimulation sampleUnmarshal fuel' bothSubscribed orderedArchive
       = (postAll sampleUnmarshal bothSubscribed
            (archiveOrder sampleUnmarshal
               (initialSlot sampleUnmarshal orderedArchive) orderedArchive),
          Returned (endSlot sampleUnmarshal
                      (initialSlot sampleUnmarshal orderedArchive)
                      orderedArchive)))
  /\ StronglySorted Z.le
       (map (envelopeKey sampleUnmarshal)
            (postAll sampleUnmarshal bothSubscribed
               (archiveOrder sampleUnmarshal
                  (initialSlot sampleUnmarshal orderedArchive) orderedArchive))).
Proof.
  apply (RunSimulation_ordered sampleUnmarshal bothSubscribed orderedArchive).
  - exact sampleUnmarshal_uint64.
  - exact orderedArchive_records.
  - exact orderedArchive_sorted.
  - sample_forall; vm_compute; discriminate.
  - exact orderedArchive_temporal.
Defined.

Example orderedArchive_keys :
  map (envelopeKey sampleUnmarshal)
      (fst (RunSimulation sampleUnmarshal 5 bothSubscribed orderedArchive))
  = [1; 2; 2; 3; 4; 4; 5].
Proof. vm_compute. reflexivity. Qed.

(** With a stream that sends nothing and is never closed, the merge loop
    still ends, on the decode error of the stream in front of it, without
    any done flag set. *)
Lemma decode_error_ends_stalled_merge :
  neverYields stalledStream /\
  allDone [corruptStream; stalledStream] = false /\
  (forall fuel,
     mergeLoop sampleUnmarshal (S fuel) NewSimulateTask 0
               [corruptStream; stalledStream]
     = ([], CantUnmarshal 0)).
Proof.
  split; [|split].
  - unfold neverYields, stalledStream, rowsOf. simpl. auto.
  - reflexivity.
  - intros fuel. rewrite mergeLoop_S. vm_compute. reflexivity.
Qed.

Lemma mergeLoop_ends_witness :
  (exists fuel out r,
     (forall fuel', (fuel <= fuel')%nat ->
        mergeLoop sampleUnmarshal fuel' bothSubscribed 1
                  (openStreams (hd [] orderedArchive)) = (out, r)) /\
     ((exists c' streams', r = Returned (c', streams')) \/
      (exists k, r = CantUnmarshal k /\
                 holdsMalformed sampleUnmarshal
                   (flat_map rowsOf (openStreams (hd [] orderedArchive))))))
  /\
  ((forall fuel out c' streams',
      mergeLoop sampleUnmarshal fuel bothSubscribed 1 [stallingStream]
      <> (out, Returned (c', streams'))) /\
   exists fuel out r,
     (forall fuel', (fuel <= fuel')%nat ->
        mergeLoop sampleUnmarshal fuel' bothSubscribed 1 [stallingStream]
        = (out, r)) /\
     (r = Blocked \/
      (exists k, r = CantUnmarshal k /\
                 holdsMalformed sampleUnmarshal
                   (flat_map rowsOf [stallingStream])))).
Proof.
  split.
  - apply (mergeLoop_ends sampleUnmarshal bothSubscribed 1
             (openStreams (hd [] orderedArchive)) sampleUnmarshal_uint64);
      [lia | apply openStreams_closing].
  - apply (mergeLoop_ends sampleUnmarshal bothSubscribed 1 [stallingStream]
             sampleUnmarshal_uint64); [lia|].
    left. unfold neverYields, stallingStream, rowsOf. simpl.
    repeat split; auto. intros [H|[]]. discriminate.
Defined.



Example corruptArchive_run :
  RunSimulation sampleUnmarshal 1 bothSubscribed corruptArchive
  = ([ {| ID := 0; SubscriptionID := 1; Method := "newPairNotification";
          Params := json "{'slot':1,'pair':{}}" |} ],
     CantUnmarshal 1).
Proof. vm_compute. reflexivity. Qed.

(** C4 (the code at the failing input).  The first log of
    [zeroStartSegment] begins with key 0 and the second with key 5: the
    least first key is 0, and [getStartingSlot] returns 5. *)
Theorem getStartingSlot_zero_key :
  recordsOnly sampleUnmarshal zeroStartSegment /\
  map (key sampleUnmarshal) (firstRows zeroStartSegment) = [0; 5] /\
  leastKey sampleUnmarshal (firstRows zeroStartSegment) = 0 /\
  getStartingSlot sampleUnmarshal zeroStartSegment = Some 5.
Proof.
  split; [|split; [|split]]; try (vm_compute; reflexivity).
  sample_forall; split; solve [discriminate | vm_compute; discriminate].
Qed.

(** One record with both discriminators set, both categories subscribed:
    two envelopes. *)
Lemma both_discriminators_two_envelopes :
  sampleUnmarshal bothLine
  = Some {| Slot := 7; Pair := Some tt; Swap := Some tt |} /\
  RunSimulation sampleUnmarshal 1 bothSubscribed [ [ [ bothLine ] ] ]
  = ([ {| ID := 0; SubscriptionID := 1; Method := "newPairNotification";
          Params := bothLine |};
       {| ID := 0; SubscriptionID := 2; Method := "swapNotification";
          Params := bothLine |} ],
     Returned 7).
Proof. split; vm_compute; reflexivity. Qed.

Lemma post_one_category_witness :
  let data := {| Slot := 5; Pair := None; Swap := Some tt |} in
  let dataRow := json "{'slot':5,'swap':{}}" in
  sampleUnmarshal dataRow = Some data /\
  (length (post bothSubscribed dataRow data) <= 1)%nat /\
  post bothSubscribed dataRow data
  = [ {| ID := 0; SubscriptionID := 2; Method := "swapNotification";
         Params := dataRow |} ].
Proof.
  intros data dataRow. split; [reflexivity|].
  destruct (post_one_category sampleUnmarshal bothSubscribed dataRow data)
    as (Hone & _).
  destruct (Hone (or_introl eq_refl)) as (Hlen & _).
  split; [exact Hlen | reflexivity].
Defined.

Lemma tick_advances_witness :
  let streams := openStreams [ [ json "{'slot':3,'pair':{}}" ]; [] ] in
  let streams' :=
    [ {| dataChan := streamFromFile []; buffer := json "{'slot':3,'pair':{}}";
         done := false |};
      {| dataChan := streamFromFile []; buffer := []; done := true |} ] in
  tick sampleUnmarshal bothSubscribed 1 streams = ([], Returned streams') /\
  (forall fuel,
     mergeLoop sampleUnmarshal (S fuel) bothSubscribed 1 streams
     = send [] (mergeLoop sampleUnmarshal fuel bothSubscribed (1 + 1) streams'))
  /\ tick sampleUnmarshal bothSubscribed 2 streams' = ([], Returned streams').
Proof.
  intros streams streams'.
  assert (T : tick sampleUnmarshal bothSubscribed 1 streams = ([], Returned streams'))
    by reflexivity.
  destruct (tick_advances sampleUnmarshal bothSubscribed 1 streams [] streams'
              sampleUnmarshal_uint64 ltac:(lia) T eq_refl) as (Hnext & _).
  split; [exact T|]. split; [exact Hnext | reflexivity].
Defined.



Example no_subscription_run :
  RunSimulation sampleUnmarshal 5 NewSimulateTask orderedArchive
  = ([], Returned 5).
Proof. vm_compute. reflexivity. Qed.

Lemma cursor_continues_witness :
  RunSimulation sampleUnmarshal 5 bothSubscribed orderedArchive
  = (slot <- RunSimulation sampleUnmarshal 5 bothSubscribed
               [ hd [] orderedArchive ] ;;
     r <- mergeLoop sampleUnmarshal 5 bothSubscribed slot
            (openStreams (hd [] (tl orderedArchive))) ;;
     runSegments sampleUnmarshal 5 bothSubscribed 3 (fst r) [])%run
  /\ snd (RunSimulation sampleUnmarshal 5 bothSubscribed [ hd [] orderedArchive ])
     = Returned 4.
Proof.
  split; [|vm_compute; reflexivity].
  apply (cursor_continues sampleUnmarshal 5 bothSubscribed
           [ hd [] orderedArchive ] (hd [] (tl orderedArchive)) []
           sampleUnmarshal_uint64).
  discriminate.
Defined.

Lemma subscriber_ids_witness :
  let request id method :=
    ({| ID := id; SubscriptionID := 0; Method := method; Params := [] |}, true) in
  let connections :=
    [ [ request 10 MethodNewPairSubscribe; request 11 "ping"%string;
        request 12 MethodNewPairSubscribe; request 13 MethodStartSimulation;
        request 14 MethodSwapSubscribe ];
      [ request 20 MethodSwapSubscribe ] ] in
  let served := Execute sampleUnmarshal 5 orderedArchive connections in
  map fst served
  = [ [ {| replyID := 10; subscription_id := 1 |};
        {| replyID := 12; subscription_id := 2 |} ];
      [ {| replyID := 20; subscription_id := 3 |} ] ] /\
  StronglySorted Z.lt
    (concat (map (fun s => map subscription_id (fst s)) served)) /\
  NoDup (concat (map (fun s => map subscription_id (fst s)) served)).
Proof.
  intros request connections served. split; [reflexivity|].
  destruct (subscriber_ids sampleUnmarshal 5 orderedArchive connections)
    as (_ & _ & Hs & Hn & _).
  - vm_compute. reflexivity.
  - split; [exact Hs | exact Hn].
Defined.

(** A subscribe request behind [startSimulation] is never read, and one
    whose reply cannot be written gets no id: neither is answered. *)
Lemma subscribe_request_unanswered :
  let request id method written :=
    ({| ID := id; SubscriptionID := 0; Method := method; Params := [] |},
     written) in
  map fst (Execute sampleUnmarshal 5 orderedArchive
             [ [ request 10 MethodStartSimulation true;
                 request 11 MethodNewPairSubscribe true ] ])
  = [ [] ] /\
  map fst (Execute sampleUnmarshal 5 orderedArchive
             [ [ request 10 MethodNewPairSubscribe false;
                 request 11 MethodSwapSubscribe true ] ])
  = [ [ {| replyID := 11; subscription_id := 1 |} ] ].
Proof. split; vm_compute; reflexivity. Qed.

(** The record of key 3 behind the empty line of the first log of
    [emptyLineSegment] is posted, two ticks after the empty line was
    read. *)
Lemma rows_after_empty_line_posted :
  nth_error (hd [] emptyLineSegment) 1 = Some [] /\
  nth_error (hd [] emptyLineSegment) 2 = Some (json "{'slot':3,'pair':{}}") /\
  RunSimulation sampleUnmarshal 3 bothSubscribed [ emptyLineSegment ]
  = ([ {| ID := 0; SubscriptionID := 1; Method := "newPairNotification";
          Params := json "{'slot':1,'pair':{}}" |};
       {| ID := 0; SubscriptionID := 2; Method := "swapNotification";
          Params := json "{'slot':1,'swap':{}}" |};
       {| ID := 0; SubscriptionID := 1; Method := "newPairNotification";
          Params := json "{'slot':3,'pair':{}}" |};
       {| ID := 0; SubscriptionID := 2; Method := "swapNotification";
          Params := json "{'slot':3,'swap':{}}" |} ],
     Returned 3).
Proof. repeat split; vm_compute; reflexivity. Qed.

Lemma empty_line_is_sentinel_witness :
  let s := {| dataChan := streamFromFile (hd [] emptyLineSegment);
              buffer := []; done := false |} in
  let s1 := {| dataChan := streamFromFile [ json "{'slot':3,'pair':{}}" ];
               buffer := []; done := true |} in
  drain sampleUnmarshal bothSubscribed 1 s
  = (postAll sampleUnmarshal bothSubscribed [ json "{'slot':1,'pair':{}}" ],
     Returned s1)
  /\ mergeLoop sampleUnmarshal 1 bothSubscribed 1 [ s ]
     = (postAll sampleUnmarshal bothSubscribed [ json "{'slot':1,'pair':{}}" ],
        Returned (1, [ s1 ])).
Proof.
  intros s s1.
  destruct (empty_line_is_sentinel sampleUnmarshal bothSubscribed 1 s
              [ json "{'slot':1,'pair':{}}" ] [ json "{'slot':3,'pair':{}}" ])
    as (Hd & _ & Hm).
  - reflexivity.
  - constructor; [|constructor]. split; [discriminate|].
    exists {| Slot := 1; Pair := Some tt; Swap := None |}.
    split; [reflexivity | simpl; lia].
  - split; [exact Hd|].
    destruct (Hm 0%nat [] [] (postAll sampleUnmarshal bothSubscribed
                                [ json "{'slot':1,'pair':{}}" ]) [ s1 ])
      as [Hrun _]; [reflexivity | reflexivity | exact Hrun].
Defined.

(** ** Directory listings and the download task *)

Lemma string_length_append a b :
  String.length (a ++ b)%string = (String.length a + String.length b)%nat.
Proof. induction a as [|c a IH]; simpl; [reflexivity | now rewrite IH]. Qed.

Lemma substring_whole s : substring 0 (String.length s) s = s.
Proof. induction s as [|c s IH]; simpl; [reflexivity | now rewrite IH]. Qed.

Lemma substring_append_suffix a b :
  substring (String.length a) (String.length b) (a ++ b)%string = b.
Proof. induction a as [|c a IH]; simpl; [apply substring_whole | assumption]. Qed.

Lemma substring_append_prefix a b :
  substring 0 (String.length a) (a ++ b)%string = a.
Proof.
  induction a as [|c a IH]; simpl; [now destruct b | now rewrite IH].
Qed.

Lemma substring_split s : forall k,
  (k <= String.length s)%nat ->
  s = (substring 0 k s ++ substring k (String.length s - k) s)%string.
Proof.
  induction s as [|c s IH]; intros k Hk.
  - simpl in Hk. assert (k = 0)%nat by lia. now subst.
  - destruct k as [|k].
    + simpl. now rewrite substring_whole.
    + simpl in *. rewrite <- (IH k) by lia. reflexivity.
Qed.

(** The test on the extension holds exactly for the names that end in
    [.zip]. *)
Lemma notZip_false name :
  notZip name = false <-> exists stem, name = (stem ++ ".zip")%string.
Proof.
  unfold notZip. rewrite orb_false_iff, negb_false_iff, Nat.ltb_ge, String.eqb_eq.
  split.
  - intros [Hlen Hs]. exists (substring 0 (String.length name - 4) name).
    rewrite (substring_split name (String.length name - 4)) at 1 by lia.
    replace (String.length name - (String.length name - 4))%nat with 4%nat by lia.
    now rewrite Hs.
  - intros (stem & ->). rewrite string_length_append. simpl String.length.
    split; [lia|].
    replace (String.length stem + 4 - 4)%nat with (String.length stem) by lia.
    apply (substring_append_suffix stem ".zip").
Qed.

Lemma zip_stem stem :
  substring 0 (String.length (stem ++ ".zip")%string - 4) (stem ++ ".zip")%string
  = stem.
Proof.
  rewrite string_length_append. simpl String.length.
  replace (String.length stem + 4 - 4)%nat with (String.length stem) by lia.
  apply substring_append_prefix.
Qed.

Lemma string_append_inj_r a b c : (a ++ c)%string = (b ++ c)%string -> a = b.
Proof.
  intros H.
  assert (L : String.length a = String.length b).
  { apply (f_equal String.length) in H. rewrite !string_length_append in H. lia. }
  rewrite <- (substring_append_prefix a c), H, L.
  apply substring_append_prefix.
Qed.

(** X5.  [getDataFiles] returns the names of the entries that are not
    directories and whose name ends in [.zip], and no other, in the order
    of the directory listing: a listing sorted by name, as [os.ReadDir]
    gives it, yields the archives sorted by name. *)
Theorem getDataFiles_zip_archives files :
  (forall name,
     In name (getDataFiles files) <->
     exists v, In v files /\ IsDir v = false /\ Name v = name /\
               exists stem, name = (stem ++ ".zip")%string)
  /\
  (forall R : string -> string -> Prop,
     StronglySorted R (map Name files) -> StronglySorted R (getDataFiles files)).
Proof.
  split.
  - intros name. induction files as [|v rest IH]; simpl.
    + split; [intros [] | intros (v & [] & _)].
    + destruct (IsDir v) eqn:D; [|destruct (notZip (Name v)) eqn:Z].
      * rewrite IH. split; intros (w & Hin & Hw); exists w.
        -- split; [now right | assumption].
        -- destruct Hin as [<-|Hin]; [|auto]. destruct Hw as [Hd _]. congruence.
      * rewrite IH. split; intros (w & Hin & Hw); exists w.
        -- split; [now right | assumption].
        -- destruct Hin as [<-|Hin]; [|auto].
           destruct Hw as (_ & <- & Hs). apply notZip_false in Hs. congruence.
      * simpl. rewrite IH. split.
        -- intros [<-|(w & Hin & Hw)].
           ++ exists v. split; [now left|]. split; [assumption|].
              split; [reflexivity|]. now apply notZip_false.
           ++ exists w. split; [now right | assumption].
        -- intros (w & [<-|Hin] & Hw).
           ++ left. now destruct Hw as (_ & <- & _).
           ++ right. exists w. auto.
  - intros R. induction files as [|v rest IH]; simpl; intros H; [constructor|].
    apply StronglySorted_inv in H. destruct H as [H Hv].
    assert (Hsub : forall n, In n (getDataFiles rest) -> In n (map Name rest)).
    { clear. induction rest as [|w rest IH]; simpl; [auto|]. intros n.
      destruct (IsDir w); [auto|]. destruct (notZip (Name w)); [auto|].
      intros [<-|Hn]; auto. }
    destruct (IsDir v); [auto|]. destruct (notZip (Name v)); [auto|].
    constructor; [auto|]. rewrite Forall_forall in *. auto.
Qed.

Lemma inSlice_In slice item : Download.inSlice slice item = true <-> In item slice.
Proof.
  induction slice as [|v rest IH]; simpl; [split; [discriminate | intros []]|].
  destruct (String.eqb_spec v item) as [->|Hne].
  - split; auto.
  - rewrite IH. split; [now right | intros [?|?]; [congruence | assumption]].
Qed.

Lemma getCurrentFiles_In files fileName :
  In fileName (Download.getCurrentFiles files) <->
  exists v, In v files /\ IsDir v = false /\
            Name v = Download.downloadedName fileName.
Proof.
  unfold Download.downloadedName. induction files as [|v rest IH]; simpl.
  - split; [intros [] | intros (v & [] & _)].
  - destruct (IsDir v) eqn:D; [|destruct (notZip (Name v)) eqn:Z].
    + rewrite IH. split; intros (w & Hin & Hw); exists w.
      * split; [now right | assumption].
      * destruct Hin as [<-|Hin]; [|auto]. destruct Hw as [Hd _]. congruence.
    + rewrite IH. split; intros (w & Hin & Hw); exists w.
      * split; [now right | assumption].
      * destruct Hin as [<-|Hin]; [|auto]. destruct Hw as [_ Hn].
        assert (notZip (Name v) = false) by (apply notZip_false; eauto).
        congruence.
    + apply notZip_false in Z. destruct Z as (stem & Hs).
      simpl. rewrite IH, Hs, zip_stem. split.
      * intros [<-|(w & Hin & Hw)].
        -- exists v. split; [now left|]. split; assumption.
        -- exists w. split; [now right | assumption].
      * intros (w & [<-|Hin] & Hw).
        -- left. destruct Hw as [_ Hn]. rewrite Hs in Hn.
           now apply string_append_inj_r in Hn.
        -- right. exists w. auto.
Qed.

(** X6.  A download is resumed where it stopped: a file of the order is
    downloaded again exactly when the output directory holds no file of
    its name with the extension [.zip], which is the name [downloadFile]
    saves it under; the files left keep the order of the list, and when
    every file of the order is there none is left. *)
Theorem download_resumes files entries :
  (forall fileName,
     In fileName
        (Download.filesToDownload (Download.getCurrentFiles entries) files)
     <->
     In fileName files /\
     ~ exists v, In v entries /\ IsDir v = false /\
                 Name v = Download.downloadedName fileName)
  /\
  Download.filesToDownload (Download.getCurrentFiles entries) files
  = filter (fun fileName =>
              negb (Download.inSlice (Download.getCurrentFiles entries) fileName))
           files
  /\
  ((forall fileName, In fileName files ->
      In {| Name := Download.downloadedName fileName; IsDir := false |} entries) ->
   Download.filesToDownload (Download.getCurrentFiles entries) files = []).
Proof.
  assert (E : Download.filesToDownload (Download.getCurrentFiles entries) files
              = filter (fun fileName =>
                          negb (Download.inSlice (Download.getCurrentFiles entries)
                                                 fileName)) files).
  { induction files as [|f rest IH]; simpl; [reflexivity|].
    destruct (Download.inSlice _ f); simpl; now rewrite IH. }
  assert (M : forall fileName,
             In fileName
                (Download.filesToDownload (Download.getCurrentFiles entries) files)
             <-> In fileName files /\
                 ~ exists v, In v entries /\ IsDir v = false /\
                             Name v = Download.downloadedName fileName).
  { intros fileName. rewrite E, filter_In, negb_true_iff.
    split; intros [Hin H]; (split; [assumption|]).
    - intros Hex. apply getCurrentFiles_In, inSlice_In in Hex. congruence.
    - destruct (Download.inSlice (Download.getCurrentFiles entries) fileName)
        eqn:I; [|reflexivity].
      exfalso. apply H. now apply getCurrentFiles_In, inSlice_In. }
  split; [assumption|]. split; [assumption|].
  intros Hall.
  destruct (Download.filesToDownload (Download.getCurrentFiles entries) files)
    as [|f l] eqn:F; [reflexivity|].
  exfalso. destruct (M f) as [[Hin Hno] _]; [now left|].
  apply Hno. eexists. split; [apply (Hall f Hin)|]. auto.
Qed.

Lemma Hour_pos : 0 < Download.Hour.
Proof. reflexivity. Qed.

Lemma hoursBegun_none t to : to <= t -> Download.hoursBegun t to = 0%nat.
Proof.
  intros H. unfold Download.hoursBegun. pose proof Hour_pos.
  assert ((to - t + Download.Hour - 1) / Download.Hour <= 0).
  { apply Z.lt_succ_r. apply Z.div_lt_upper_bound; lia. }
  lia.
Qed.

Lemma hoursBegun_some t to :
  t < to ->
  Download.hoursBegun t to = S (Download.hoursBegun (t + Download.Hour) to).
Proof.
  intros H. unfold Download.hoursBegun. pose proof Hour_pos.
  replace (to - t + Download.Hour - 1)
    with (to - (t + Download.Hour) + Download.Hour - 1 + 1 * Download.Hour) by lia.
  rewrite Z.div_add by lia.
  assert (0 <= (to - (t + Download.Hour) + Download.Hour - 1) / Download.Hour)
    by (apply Z.div_pos; lia).
  lia.
Qed.

Lemma generateLoop_hours format to fuel : forall t,
  (Download.hoursBegun t to <= fuel)%nat ->
  Download.generateLoop fuel format t to
  = map (fun k => format (t + Z.of_nat k * Download.Hour))
        (seq 0 (Download.hoursBegun t to)).
Proof.
  induction fuel as [|fuel IH]; intros t Hf.
  - assert (Download.hoursBegun t to = 0)%nat by lia. now rewrite H.
  - cbn [Download.generateLoop]. destruct (Z.ltb_spec t to) as [Hlt|Hge].
    + rewrite (hoursBegun_some _ _ Hlt) in *. cbn [seq map].
      rewrite IH by lia. rewrite <- seq_shift, map_map. f_equal.
      * f_equal. lia.
      * apply map_ext. intros k. f_equal. lia.
    + now rewrite hoursBegun_none.
Qed.

(** X7.  [generateListOfArchiveFiles] names one archive for every hour
    begun between [from] and [to]: the instants [from], [from] plus one
    hour, and so on, as long as they are before [to], in that order; none
    when [to] is not after [from].  The loop ends by itself. *)
Theorem archive_files_cover_hours format from to :
  Download.generateListOfArchiveFiles format from to
  = map (fun k => format (from + Z.of_nat k * Download.Hour))
        (seq 0 (Download.hoursBegun from to))
  /\
  (forall k, (k < Download.hoursBegun from to)%nat ->
             from <= from + Z.of_nat k * Download.Hour < to)
  /\
  (from + Z.of_nat (Download.hoursBegun from to) * Download.Hour < to -> False)
  /\
  (forall fuel, (Download.hoursBegun from to <= fuel)%nat ->
                Download.generateLoop fuel format from to
                = Download.generateListOfArchiveFiles format from to).
Proof.
  pose proof Hour_pos as HH.
  set (x := to - from + Download.Hour - 1).
  assert (Hx : x = Download.Hour * (x / Download.Hour) + x mod Download.Hour)
    by (apply Z.div_mod; lia).
  pose proof (Z.mod_pos_bound x Download.Hour HH) as Hm.
  assert (Hn : Download.hoursBegun from to = Z.to_nat (x / Download.Hour))
    by reflexivity.
  assert (Hfuel : (Download.hoursBegun from to
                   <= Z.to_nat ((to - from) / Download.Hour + 1))%nat).
  { assert (x / Download.Hour <= (to - from) / Download.Hour + 1).
    { rewrite <- (Z.div_add _ 1) by lia. apply Z.div_le_mono; lia. }
    lia. }
  assert (E : forall fuel, (Download.hoursBegun from to <= fuel)%nat ->
                Download.generateLoop fuel format from to
                = map (fun k => format (from + Z.of_nat k * Download.Hour))
                      (seq 0 (Download.hoursBegun from to)))
    by (intros fuel Hf; now apply generateLoop_hours).
  split; [now apply E|]. split; [|split].
  - intros k Hk. rewrite Hn in Hk. nia.
  - rewrite Hn. intros Hlt.
    destruct (Z.le_gt_cases 0 (x / Download.Hour)) as [Hq|Hq].
    + rewrite Z2Nat.id in Hlt by assumption. nia.
    + replace (Z.to_nat (x / Download.Hour)) with 0%nat in Hlt by lia. nia.
  - intros fuel Hf. unfold Download.generateListOfArchiveFiles.
    now rewrite !E.
Qed.

(** X8.  When [validateParams] of the download task accepts its
    parameters it leaves them complete: an API key, an order id or a file
    name, an output directory (["."] by default), one of the two
    endpoints, and a concurrency between 1 and 10 (1 by default);
    validating them again changes nothing.  It rejects them exactly when
    the key is missing, or both the order id and the file name, or the
    concurrency exceeds 10. *)
Theorem validateParams_completes p p' :
  0 <= Download.concurrency p ->
  Download.validateParams p = (p', None) ->
  (Download.apiKey p' <> EmptyString /\
   (Download.orderID p' <> 0 \/ Download.fileName p' <> EmptyString) /\
   Download.outputDir p' <> EmptyString /\
   1 <= Download.concurrency p' <= 10 /\
   (Download.apiEndpoint p' = "https://api.solanastreaming.com"%string \/
    Download.apiEndpoint p' = "http://localhost:8000"%string))
  /\ Download.validateParams p' = (p', None)
  /\ (forall q,
        snd (Download.validateParams q) <> None <->
        Download.apiKey q = EmptyString \/
        (Download.orderID q = 0 /\ Download.fileName q = EmptyString) \/
        10 < Download.concurrency q).
Proof.
  intros Hc H.
  assert (Herr : forall q,
             snd (Download.validateParams q) <> None <->
             Download.apiKey q = EmptyString \/
             (Download.orderID q = 0 /\ Download.fileName q = EmptyString) \/
             10 < Download.concurrency q).
  { intros q. unfold Download.validateParams.
    destruct (String.eqb_spec (Download.apiKey q) EmptyString) as [Hk|Hk];
      [simpl; split; [auto | discriminate]|].
    destruct (Z.eqb_spec (Download.orderID q) 0) as [Ho|Ho];
      destruct (String.eqb_spec (Download.fileName q) EmptyString) as [Hf|Hf];
      cbn [andb]; try (simpl; split; [auto | discriminate]);
      destruct (Z.eqb_spec (Download.concurrency q) 0) as [Hz|Hz];
      match goal with
      | |- context [10 <? ?c] => destruct (Z.ltb_spec 10 c)
      end; simpl; split; try discriminate; try congruence;
      try (intros _; right; right; lia);
      intros [?|[[? ?]|?]]; try congruence; lia. }
  split; [|split; [|assumption]].
  - unfold Download.validateParams in H.
    destruct (String.eqb_spec (Download.apiKey p) EmptyString) as [Hk|Hk];
      [discriminate|].
    destruct (Z.eqb_spec (Download.orderID p) 0) as [Ho|Ho];
      destruct (String.eqb_spec (Download.fileName p) EmptyString) as [Hf|Hf];
      cbn [andb] in H; try discriminate;
      destruct (Z.eqb_spec (Download.concurrency p) 0) as [Hz|Hz];
      match type of H with
      | context [10 <? ?c] => destruct (Z.ltb_spec 10 c)
      end; try discriminate; inv H; simpl;
      destruct (String.eqb_spec (Download.outputDir p) EmptyString);
      destruct (Download.isLocalEndpoint p);
      repeat split; auto; try discriminate; try lia.
  - unfold Download.validateParams in *.
    destruct (String.eqb_spec (Download.apiKey p) EmptyString) as [Hk|Hk];
      [discriminate|].
    destruct ((Download.orderID p =? 0)
              && String.eqb (Download.fileName p) EmptyString) eqn:HO;
      [discriminate|].
    destruct (Z.eqb_spec (Download.concurrency p) 0) as [Hz|Hz];
      match type of H with
      | context [10 <? ?c] => destruct (Z.ltb_spec 10 c)
      end; try discriminate; inv H; cbn -[String.eqb Z.ltb Z.eqb];
      destruct (String.eqb_spec (Download.apiKey p) EmptyString);
      try congruence; rewrite HO;
      destruct (String.eqb_spec (Download.outputDir p) EmptyString) as [Hd|Hd];
      destruct (Download.isLocalEndpoint p); simpl;
      try (destruct (String.eqb_spec (Download.outputDir p) EmptyString);
           [congruence|]);
      try (destruct (Z.eqb_spec (Download.concurrency p) 0); [congruence|]);
      try (destruct (Z.ltb_spec 10 (Download.concurrency p)); [lia|]);
      reflexivity.
Qed.

(** ** The reduce task *)

Section ReduceProperties.

Variable PublicKeyFromBase58 : string -> Reduce.PublicKey.
Variable MustPublicKeyFromBase58 : string -> option Reduce.PublicKey.
Variable unmarshalEvent : row -> option Reduce.EventRow.

Local Abbreviation filterFunc := (Reduce.filterFunc PublicKeyFromBase58).
Local Abbreviation keeps := (Reduce.keeps PublicKeyFromBase58 unmarshalEvent).
Local Abbreviation filterLines :=
  (Reduce.filterLines PublicKeyFromBase58 unmarshalEvent).
Local Abbreviation processFile :=
  (Reduce.processFile PublicKeyFromBase58 unmarshalEvent).
Local Abbreviation processParams := (Reduce.processParams MustPublicKeyFromBase58).

Lemma Equals_eq a : forall b, Reduce.Equals a b = true <-> a = b.
Proof.
  induction a as [|x a IH]; intros [|y b]; simpl;
    try (split; [discriminate | congruence]); [tauto|].
  rewrite andb_true_iff, IH. split.
  - intros [H ->]. apply byte_dec_bl in H. now subst.
  - intros H. inv H. split; [now apply byte_dec_lb | reflexivity].
Qed.

Lemma anyEquals_In keys k : Reduce.anyEquals keys k = true <-> In k keys.
Proof.
  induction keys as [|v rest IH]; simpl; [split; [discriminate | intros []]|].
  destruct (Reduce.Equals v k) eqn:E.
  - apply Equals_eq in E. subst. split; auto.
  - rewrite IH. split; [now right|]. intros [->|H]; [|assumption].
    assert (Reduce.Equals k k = true) by now apply Equals_eq. congruence.
Qed.

Lemma anyEquals_guard keys k :
  negb (Nat.eqb (length keys) 0) && Reduce.anyEquals keys k =
  Reduce.anyEquals keys k.
Proof. destruct keys; reflexivity. Qed.

Lemma filterFunc_In o eventRow :
  filterFunc o eventRow = true <->
  In (fst (fst (Reduce.rowKeys PublicKeyFromBase58 eventRow))) (Reduce.amms o) \/
  In (snd (Reduce.rowKeys PublicKeyFromBase58 eventRow)) (Reduce.baseTokenMints o) \/
  In (snd (fst (Reduce.rowKeys PublicKeyFromBase58 eventRow))) (Reduce.wallets o).
Proof.
  unfold Reduce.filterFunc.
  destruct (Reduce.rowKeys PublicKeyFromBase58 eventRow) as [[amm wallet] mint].
  cbn [fst snd]. rewrite <- !anyEquals_In, !anyEquals_guard.
  destruct (Reduce.anyEquals (Reduce.amms o) amm);
    destruct (Reduce.anyEquals (Reduce.baseTokenMints o) mint);
    destruct (Reduce.anyEquals (Reduce.wallets o) wallet);
    intuition congruence.
Qed.

(** X9.  The filter of the reduce task keeps a row when one of the keys
    read off it is in the list given for that kind of key.  A row with a
    pair is judged on the pair alone, with the zero key for its wallet,
    even if it also has a swap; a row with neither a pair nor a swap is
    judged on the zero key. *)
Theorem filter_matches_addresses o eventRow :
  (forall pairRow,
     Reduce.Pair eventRow = Some pairRow ->
     (filterFunc o eventRow = true <->
      In (PublicKeyFromBase58 (Reduce.pairAmmAccount pairRow)) (Reduce.amms o) \/
      In (PublicKeyFromBase58 (Reduce.pairBaseTokenAccount pairRow))
         (Reduce.baseTokenMints o) \/
      In Reduce.zeroKey (Reduce.wallets o)))
  /\
  (forall swapRow,
     Reduce.Pair eventRow = None -> Reduce.Swap eventRow = Some swapRow ->
     (filterFunc o eventRow = true <->
      In (PublicKeyFromBase58 (Reduce.swapAmmAccount swapRow)) (Reduce.amms o) \/
      In (PublicKeyFromBase58 (Reduce.swapBaseTokenMint swapRow))
         (Reduce.baseTokenMints o) \/
      In (PublicKeyFromBase58 (Reduce.swapWalletAccount swapRow))
         (Reduce.wallets o)))
  /\
  (Reduce.Pair eventRow = None -> Reduce.Swap eventRow = None ->
   (filterFunc o eventRow = true <->
    In Reduce.zeroKey (Reduce.amms o) \/
    In Reduce.zeroKey (Reduce.baseTokenMints o) \/
    In Reduce.zeroKey (Reduce.wallets o))).
Proof.
  split; [|split].
  - intros pairRow Hp. rewrite filterFunc_In. unfold Reduce.rowKeys.
    now rewrite Hp.
  - intros swapRow Hp Hs. rewrite filterFunc_In. unfold Reduce.rowKeys.
    now rewrite Hp, Hs.
  - intros Hp Hs. rewrite filterFunc_In. unfold Reduce.rowKeys.
    now rewrite Hp, Hs.
Qed.

Lemma filterLines_keeps o lines : forall kept,
  filterLines o lines = Some kept -> kept = filter (keeps o) lines.
Proof.
  induction lines as [|r rest IH]; intros kept H; [now inv H|].
  simpl in H. unfold Reduce.keeps. simpl.
  destruct (unmarshalEvent r) as [e|]; [|discriminate].
  destruct (filterLines o rest) as [k|]; [|discriminate].
  inv H. rewrite (IH k eq_refl). reflexivity.
Qed.

Lemma filterLines_error o lines :
  filterLines o lines = None <->
  exists dataRow, In dataRow lines /\ unmarshalEvent dataRow = None.
Proof.
  induction lines as [|r rest IH]; simpl.
  - split; [discriminate | intros (x & [] & _)].
  - destruct (unmarshalEvent r) as [e|] eqn:U.
    + destruct (filterLines o rest) as [k|].
      * split; [discriminate|]. intros (x & [<-|Hin] & Hx); [congruence|].
        destruct IH as [_ IH]. discriminate IH. eauto.
      * split; [|reflexivity]. intros _.
        destruct IH as [IH _]. destruct (IH eq_refl) as (x & Hin & Hx). eauto.
    + split; [|reflexivity]. intros _. exists r. auto.
Qed.

Lemma reduce_lines_error o unzippedFiles :
  processFile o unzippedFiles = None <->
  exists dataRow, In dataRow (concat unzippedFiles) /\
                  unmarshalEvent dataRow = None.
Proof.
  induction unzippedFiles as [|lines rest IH]; simpl.
  - split; [discriminate | intros (x & [] & _)].
  - pose proof (filterLines_error o lines) as HE.
    destruct (filterLines o lines) as [kept|].
    + destruct (processFile o rest) as [more|].
      * split; [discriminate|]. intros (x & Hin & Hx).
        apply in_app_or in Hin. destruct Hin as [Hin|Hin].
        -- destruct HE as [_ HE]. discriminate HE. eauto.
        -- destruct IH as [_ IH]. discriminate IH. eauto.
      * split; [|reflexivity]. intros _.
        destruct IH as [IH _]. destruct (IH eq_refl) as (x & Hin & Hx).
        exists x. split; [apply in_or_app; now right | assumption].
    + split; [|reflexivity]. intros _.
      destruct HE as [HE _]. destruct (HE eq_refl) as (x & Hin & Hx).
      exists x. split; [apply in_or_app; now left | assumption].
Qed.

Lemma reduce_lines_kept o unzippedFiles : forall filtered,
  processFile o unzippedFiles = Some filtered ->
  filtered = map (filter (keeps o)) unzippedFiles.
Proof.
  induction unzippedFiles as [|lines rest IH]; simpl; intros f H; [now inv H|].
  pose proof (filterLines_keeps o lines) as HK.
  destruct (filterLines o lines) as [kept|]; [|discriminate].
  destruct (processFile o rest) as [more|]; [|discriminate].
  inv H. now rewrite (HK kept eq_refl), (IH more eq_refl).
Qed.


Lemma processFile_decoded o unzippedFiles :
  Forall (fun dataRow => unmarshalEvent dataRow <> None) (concat unzippedFiles) ->
  processFile o unzippedFiles = Some (map (filter (keeps o)) unzippedFiles).
Proof.
  intros H. destruct (processFile o unzippedFiles) as [filtered|] eqn:E.
  - f_equal. now apply (reduce_lines_kept o unzippedFiles).
  - apply (reduce_lines_error o unzippedFiles) in E.
    destruct E as (r & Hin & Hr). rewrite Forall_forall in H.
    now destruct (H _ Hin).
Qed.

Lemma filter_idempotent {A} (p : A -> bool) l : filter p (filter p l) = filter p l.
Proof.
  induction l as [|x l IH]; simpl; [reflexivity|].
  destruct (p x) eqn:P; simpl; rewrite ?P, IH; reflexivity.
Qed.

Lemma keeps_decoded o dataRow : keeps o dataRow = true -> unmarshalEvent dataRow <> None.
Proof. unfold Reduce.keeps. now destruct (unmarshalEvent dataRow). Qed.

(** X11.  Reducing is idempotent: the files [processFile] writes are
    accepted by [processFile] under the same addresses and come out
    unchanged, although the files it read need not. *)
Theorem reduce_idempotent o unzippedFiles filtered :
  processFile o unzippedFiles = Some filtered ->
  processFile o filtered = Some filtered.
Proof.
  intros H. apply reduce_lines_kept in H. subst filtered.
  rewrite processFile_decoded.
  - f_equal. rewrite map_map. apply map_ext. intros l. apply filter_idempotent.
  - apply Forall_forall. intros r Hr. apply in_concat in Hr.
    destruct Hr as (l & Hl & Hr). apply in_map_iff in Hl.
    destruct Hl as (l0 & <- & _). apply filter_In in Hr.
    now apply (keeps_decoded o).
Qed.

(** X12.  Without addresses the reduce task keeps nothing.  When the three
    parameters are empty [processParams] leaves the task as
    [NewReduceTask] made it, its filter rejects every row, and every file
    [processFile] writes is empty. *)
Theorem reduce_without_addresses :
  processParams (Reduce.mkParams EmptyString EmptyString EmptyString)
                Reduce.NewReduceTask = Some Reduce.NewReduceTask
  /\ (forall eventRow, filterFunc Reduce.NewReduceTask eventRow = false)
  /\ (forall unzippedFiles filtered,
        processFile Reduce.NewReduceTask unzippedFiles = Some filtered ->
        filtered = map (fun _ => []) unzippedFiles).
Proof.
  assert (F : forall eventRow, filterFunc Reduce.NewReduceTask eventRow = false).
  { intros e. unfold Reduce.filterFunc.
    now destruct (Reduce.rowKeys PublicKeyFromBase58 e) as [[amm wallet] mint]. }
  split; [reflexivity|]. split; [exact F|].
  intros unzippedFiles filtered H. apply reduce_lines_kept in H. subst filtered.
  apply map_ext. intros l. induction l as [|r l IH]; [reflexivity|].
  simpl. rewrite IH. unfold Reduce.keeps.
  destruct (unmarshalEvent r); [now rewrite F | reflexivity].
Qed.

Lemma appendKeys_fields fields : forall keys,
  (Reduce.appendKeys MustPublicKeyFromBase58 keys fields = None <->
   exists v, In v fields /\ v <> EmptyString /\ MustPublicKeyFromBase58 v = None)
  /\
  (forall keys',
     Reduce.appendKeys MustPublicKeyFromBase58 keys fields = Some keys' ->
     map Some keys' =
     map Some keys ++
     map MustPublicKeyFromBase58
         (filter (fun v => negb (String.eqb v EmptyString)) fields)).
Proof.
  induction fields as [|v rest IH]; intros keys; simpl.
  - split; [split; [discriminate | intros (x & [] & _)]|].
    intros keys' H. inv H. now rewrite app_nil_r.
  - destruct (String.eqb v EmptyString) eqn:E; simpl.
    + destruct (IH keys) as [IH1 IH2]. split; [|exact IH2].
      rewrite IH1. split.
      * intros (x & Hin & Hx). exists x. auto.
      * intros (x & [<-|Hin] & Hne & Hx); [|eauto].
        apply String.eqb_eq in E. contradiction.
    + apply String.eqb_neq in E.
      destruct (MustPublicKeyFromBase58 v) as [k|] eqn:M.
      * destruct (IH (keys ++ [k])) as [IH1 IH2]. split.
        -- rewrite IH1. split.
           ++ intros (x & Hin & Hx). exists x. auto.
           ++ intros (x & [<-|Hin] & Hne & Hx); [congruence | eauto].
        -- intros keys' H. rewrite (IH2 _ H), map_app, <- app_assoc.
           reflexivity.
      * split; [|discriminate]. split; [|reflexivity]. intros _.
        exists v. auto.
Qed.

(** X14.  [processParams] reads each of its three parameters as a
    comma-separated list and skips the empty fields (so a trailing comma or
    an empty parameter adds nothing).  It panics exactly when some
    non-empty field is not a public key; otherwise the keys of the
    non-empty fields are appended, in their order, to the list of their
    kind, and what the lists held before is kept. *)
Theorem processParams_reads_lists p o :
  (processParams p o = None <->
   exists v,
     In v (Reduce.splitComma (Reduce.paramAmms p) ++
           Reduce.splitComma (Reduce.paramBaseTokenMints p) ++
           Reduce.splitComma (Reduce.paramWallets p)) /\
     v <> EmptyString /\ MustPublicKeyFromBase58 v = None)
  /\
  (forall o',
     processParams p o = Some o' ->
     map Some (Reduce.amms o') =
     map Some (Reduce.amms o) ++
     map MustPublicKeyFromBase58
         (filter (fun v => negb (String.eqb v EmptyString))
                 (Reduce.splitComma (Reduce.paramAmms p)))
     /\
     map Some (Reduce.baseTokenMints o') =
     map Some (Reduce.baseTokenMints o) ++
     map MustPublicKeyFromBase58
         (filter (fun v => negb (String.eqb v EmptyString))
                 (Reduce.splitComma (Reduce.paramBaseTokenMints p)))
     /\
     map Some (Reduce.wallets o') =
     map Some (Reduce.wallets o) ++
     map MustPublicKeyFromBase58
         (filter (fun v => negb (String.eqb v EmptyString))
                 (Reduce.splitComma (Reduce.paramWallets p)))).
Proof.
  unfold Reduce.processParams.
  destruct (appendKeys_fields (Reduce.splitComma (Reduce.paramAmms p))
                              (Reduce.amms o)) as [A1 A2].
  destruct (appendKeys_fields (Reduce.splitComma (Reduce.paramBaseTokenMints p))
                              (Reduce.baseTokenMints o)) as [B1 B2].
  destruct (appendKeys_fields (Reduce.splitComma (Reduce.paramWallets p))
                              (Reduce.wallets o)) as [C1 C2].
  destruct (Reduce.appendKeys MustPublicKeyFromBase58 (Reduce.amms o) _)
    as [amms1|].
  - destruct (Reduce.appendKeys MustPublicKeyFromBase58
                (Reduce.baseTokenMints o) _) as [mints1|].
    + destruct (Reduce.appendKeys MustPublicKeyFromBase58 (Reduce.wallets o) _)
        as [wallets1|].
      * split.
        -- split; [discriminate|]. intros (v & Hin & Hne & Hv).
           apply in_app_or in Hin. destruct Hin as [Hin|Hin].
           ++ destruct A1 as [_ A1]. discriminate A1. eauto.
           ++ apply in_app_or in Hin. destruct Hin as [Hin|Hin].
              ** destruct B1 as [_ B1]. discriminate B1. eauto.
              ** destruct C1 as [_ C1]. discriminate C1. eauto.
        -- intros o' H. inv H. cbn [Reduce.amms Reduce.baseTokenMints Reduce.wallets].
           auto.
      * split; [|discriminate]. split; [|reflexivity]. intros _.
        destruct C1 as [C1 _]. destruct (C1 eq_refl) as (v & Hin & Hv).
        exists v. split; [|assumption]. apply in_or_app. right.
        apply in_or_app. now right.
    + split; [|discriminate]. split; [|reflexivity]. intros _.
      destruct B1 as [B1 _]. destruct (B1 eq_refl) as (v & Hin & Hv).
      exists v. split; [|assumption]. apply in_or_app. right.
      apply in_or_app. now left.
  - split; [|discriminate]. split; [|reflexivity]. intros _.
    destruct A1 as [A1 _]. destruct (A1 eq_refl) as (v & Hin & Hv).
    exists v. split; [|assumption]. apply in_or_app. now left.
Qed.

Variable unmarshal : row -> option DataFormat.

(** X13.  Replaying a reduced archive.  When the archive is well formed
    for the replay (records only, every log in key order, no log of the
    first file beginning with key 0, files in temporal order) and
    [processFile] has reduced each of its files, the replay of the reduced
    archive returns, and it sends the envelopes the replay of the original
    archive sends for the kept lines, in the same order, and no others. *)
Theorem reduced_archive_replays o task dataFiles reduced :
  uint64Decoder unmarshal ->
  Forall (recordsOnly unmarshal) dataFiles ->
  Forall (sortedLogs unmarshal) dataFiles ->
  noZeroStart unmarshal (hd [] dataFiles) ->
  temporalOrder unmarshal dataFiles ->
  Forall2 (fun unzippedFiles filtered =>
             processFile task unzippedFiles = Some filtered)
          dataFiles reduced ->
  exists fuel out c c',
    forall fuel', (fuel <= fuel')%nat ->
      RunSimulation unmarshal fuel' o dataFiles = (out, Returned c) /\
      RunSimulation unmarshal fuel' o reduced =
      (filter (fun ev => keeps task (Params ev)) out, Returned c').
Proof.
  intros HU Hrec Hs Hnz Ht HR.
  assert (E : reduced = map (map (filter (keeps task))) dataFiles).
  { clear -HR. induction HR as [|logs out l l' H _ IH]; [reflexivity|].
    simpl. rewrite <- IH. f_equal. now apply (reduce_lines_kept task logs). }
  subst reduced.
  apply (RunSimulation_filter unmarshal o (keeps task) dataFiles); assumption.
Qed.

End ReduceProperties.

(** ** Subscriptions and the replay *)

Lemma handle_announced o jsonrpc seen o' replies :
  announced o seen -> nextSubID o + 1 < 2 ^ 64 ->
  handle o jsonrpc true = (o', replies) ->
  announced o' (seen ++ map subscription_id replies) /\
  nextSubID o' <= nextSubID o + 1.
Proof.
  intros (Hn & Hp & Hs & Hd & Hip & His) Hb Hh. unfold handle in Hh.
  assert (U : uint64 (nextSubID o + 1) = nextSubID o + 1)
    by (apply uint64_small; lia).
  destruct (String.eqb (Method jsonrpc) MethodNewPairSubscribe);
    [|destruct (String.eqb (Method jsonrpc) MethodSwapSubscribe)];
    inv Hh; unfold announced; cbn [nextSubID pairsSubID swapsSubID map
                                   subscription_id]; rewrite ?U.
  - repeat split; try lia.
    + intros _. apply in_or_app. right. now left.
    + intros H. apply in_or_app. left. auto.
  - repeat split; try lia.
    + intros H. apply in_or_app. left. auto.
    + intros _. apply in_or_app. right. now left.
  - rewrite app_nil_r. repeat split; auto; lia.
Qed.

Lemma session_announced messages : forall o seen,
  announced o seen ->
  nextSubID o + Z.of_nat (length messages) < 2 ^ 64 ->
  Forall (fun m => snd m = true) messages ->
  announced (snd (session o messages))
            (seen ++ map subscription_id (fst (fst (session o messages)))).
Proof.
  induction messages as [|[jsonrpc written] rest IH]; intros o seen Ha Hb Hw.
  - cbn. now rewrite app_nil_r.
  - cbn [length] in Hb.
    destruct (String.eqb (Method jsonrpc) MethodStartSimulation) eqn:St.
    + cbn [session]. rewrite St. cbn. now rewrite app_nil_r.
    + rewrite (session_cons _ _ _ _ St). cbn [fst snd].
      pose proof (Forall_inv Hw) as W. simpl in W. subst written.
      destruct (handle o jsonrpc true) as [o1 replies1] eqn:Hh.
      destruct (handle_announced o jsonrpc seen o1 replies1 Ha ltac:(lia) Hh)
        as [Ha1 Hn1].
      cbn [fst snd]. rewrite map_app, app_assoc.
      apply (IH o1 _ Ha1); [lia | exact (Forall_inv_tail Hw)].
Qed.

Lemma serve_announced unmarshal fuel dataFiles connections :
  forall o seen before replies out r after,
    announced o seen ->
    nextSubID o + Z.of_nat (length (concat connections)) < 2 ^ 64 ->
    Forall (Forall (fun m => snd m = true)) connections ->
    serve unmarshal fuel dataFiles o connections
    = before ++ (replies, Some (out, r)) :: after ->
    exists o',
      announced o'
        (seen ++ concat (map (fun s => map subscription_id (fst s)) before)
              ++ map subscription_id replies) /\
      (out, r) = RunSimulation unmarshal fuel o' dataFiles.
Proof.
  induction connections as [|messages rest IH];
    intros o seen before replies out r after Ha Hb Hw Hs.
  - destruct before; discriminate.
  - cbn [serve] in Hs. cbn [concat] in Hb. rewrite length_app in Hb.
    pose proof (session_announced messages o seen Ha ltac:(lia) (Forall_inv Hw))
      as Ha1.
    destruct (session_ids messages o) as (_ & N & L);
      [destruct Ha as (? & _); lia | lia |].
    destruct (session o messages) as [[replies1 started] o1].
    cbn [fst snd] in Ha1, N, L.
    destruct before as [|b before].
    + cbn [app] in Hs. inv Hs. destruct started; [|discriminate].
      inv H1. exists o1. split; [|reflexivity]. exact Ha1.
    + cbn [app] in Hs. inv Hs.
      destruct (IH o1 _ before replies out r after Ha1 ltac:(lia)
                   (Forall_inv_tail Hw) H1) as (o' & Ha' & R).
      exists o'. split; [|exact R]. cbn [map fst concat].
      now rewrite <- !app_assoc in *.
Qed.

(** X15.  When every write succeeds, a replay started by
    [startSimulation] sends an envelope only under a subscription id the
    server has handed out in a reply, on this connection or on one it
    served before (the subscriptions belong to the one task of the command
    and outlive the connection that made them), and envelopes under the
    same id have the same method: a newer subscription to a category
    replaces the older one, and the two categories never share an id. *)
Theorem envelopes_routed_by_id unmarshal fuel dataFiles connections
    before replies out r after :
  Z.of_nat (length (concat connections)) < 2 ^ 64 - 1 ->
  Forall (Forall (fun m => snd m = true)) connections ->
  Execute unmarshal fuel dataFiles connections
  = before ++ (replies, Some (out, r)) :: after ->
  (forall ev, In ev out ->
              In (SubscriptionID ev)
                 (concat (map (fun s => map subscription_id (fst s)) before)
                  ++ map subscription_id replies))
  /\
  (forall ev ev', In ev out -> In ev' out ->
                  SubscriptionID ev = SubscriptionID ev' ->
                  Method ev = Method ev').
Proof.
  intros Hb Hw He. unfold Execute in He.
  destruct (serve_announced unmarshal fuel dataFiles connections NewSimulateTask
              [] before replies out r after) as (o & Ha & R);
    [unfold announced, NewSimulateTask; simpl; intuition lia
    | unfold NewSimulateTask; cbn [nextSubID]; lia | assumption | assumption |].
  simpl in Ha. destruct Ha as (_ & _ & _ & Hd & Hip & His).
  assert (P : forall ev, In ev out ->
            (Method ev = "newPairNotification"%string /\
             SubscriptionID ev = pairsSubID o /\ pairsSubID o <> 0) \/
            (Method ev = "swapNotification"%string /\
             SubscriptionID ev = swapsSubID o /\ swapsSubID o <> 0)).
  { intros ev Hev.
    destruct (RunSimulation_posts unmarshal o fuel dataFiles ev) as (data & _ & _ & Hp).
    - now rewrite <- R.
    - apply In_post in Hp. tauto. }
  split.
  - intros ev Hev. destruct (P ev Hev) as [(_ & -> & H)|(_ & -> & H)]; auto.
  - intros ev ev' Hev Hev' E.
    destruct (P ev Hev) as [(M & I & H)|(M & I & H)];
      destruct (P ev' Hev') as [(M' & I' & H')|(M' & I' & H')];
      try congruence; exfalso; apply (Hd ltac:(assumption)); congruence.
Qed.

(** ** The reduce task on sample inputs *)

Example wrapped_sol_key :
  sampleMustPublicKeyFromBase58 wrappedSol
  = Some [ x06; x9b; x88; x57; xfe; xab; x81; x84; xfb; x68; x7f; x63; x46;
           x18; xc0; x35; xda; xc4; x39; xdc; x1a; xeb; x3b; x55; x98; xa0;
           xf0; x00; x00; x00; x00; x01 ].
Proof. vm_compute. reflexivity. Qed.

Example system_program_key :
  sampleMustPublicKeyFromBase58 systemProgram = Some Reduce.zeroKey.
Proof. vm_compute. reflexivity. Qed.

Example sample_keys_valid :
  Forall (fun s => sampleMustPublicKeyFromBase58 s <> None)
         [ raydiumAmm; otherAmm; wrappedSol; usdcMint; systemProgram ].
Proof. sample_forall; vm_compute; discriminate. Qed.

Example sample_event_pair :
  sampleEvent (pairLine "1" raydiumAmm wrappedSol)
  = Some (Reduce.mkEventRow 1 EmptyString
            (Some (Reduce.mkPair raydiumAmm wrappedSol)) None).
Proof. vm_compute. reflexivity. Qed.

Example sample_event_swap :
  sampleEvent (swapLine "2" otherAmm usdcMint systemProgram)
  = Some (Reduce.mkEventRow 2 EmptyString None
            (Some (Reduce.mkSwap otherAmm usdcMint systemProgram))).
Proof. vm_compute. reflexivity. Qed.

Lemma sampleEventFormat_uint64 : uint64Decoder sampleEventFormat.
Proof.
  intros dataRow data. unfold sampleEventFormat, sampleEvent, readSlot.
  destruct (stripPrefix _ dataRow) as [[|d more]|]; try discriminate.
  destruct (isDigit d && _); [|discriminate].
  pose proof (readDigits_nonneg (d :: more) 0 (Z.le_refl 0)) as Hn.
  destruct (readDigits 0 (d :: more)) as [n tail]. simpl in Hn.
  destruct (Z.leb_spec (2 ^ 64) n); [discriminate|].
  destruct (readPair tail); [|destruct (readSwap tail)];
    intros E; inv E; simpl; lia.
Qed.

Lemma accountArchive_records :
  Forall (recordsOnly sampleEventFormat) accountArchive.
Proof.
  sample_forall; split; solve [discriminate | vm_compute; discriminate].
Qed.

Lemma accountArchive_sorted : Forall (sortedLogs sampleEventFormat) accountArchive.
Proof.
  sample_forall; repeat constructor; sample_le.
Qed.

Lemma accountArchive_temporal : temporalOrder sampleEventFormat accountArchive.
Proof.
  split; [|split; [|exact I]]; intros a b Ha Hb; sample_in Ha; sample_in Hb;
    sample_le.
Qed.


Lemma envelopes_carry_archive_lines_witness :
  let ev := {| ID := 0; SubscriptionID := 1; Method := "newPairNotification";
               Params := json "{'slot':1,'pair':{}}" |} in
  In (Params ev) (concat (concat orderedArchive)) /\
  sampleUnmarshal (Params ev) <> None /\
  ID ev = 0 /\
  (Method ev = "newPairNotification"%string \/
   Method ev = "swapNotification"%string).
Proof.
  intros ev.
  apply (envelopes_carry_archive_lines sampleUnmarshal bothSubscribed 5
           orderedArchive ev).
  vm_compute. left. reflexivity.
Defined.

Lemma merge_ticks_span_keys_witness :
  let logs := hd [] orderedArchive in
  (snd (mergeLoop sampleUnmarshal 4 bothSubscribed 1 (openStreams logs))
   = OutOfFuel <->
   (4 < S (Z.to_nat (lastSlot sampleUnmarshal 1 (concat logs) - 1)))%nat)
  /\
  ((S (Z.to_nat (lastSlot sampleUnmarshal 1 (concat logs) - 1)) <= 4)%nat ->
   exists out streams',
     mergeLoop sampleUnmarshal 4 bothSubscribed 1 (openStreams logs)
     = (out, Returned (lastSlot sampleUnmarshal 1 (concat logs), streams'))).
Proof.
  intros logs.
  apply (merge_ticks_span_keys sampleUnmarshal bothSubscribed 1 logs 4).
  - exact sampleUnmarshal_uint64.
  - lia.
  - exact (Forall_inv orderedArchive_records).
  - exact (Forall_inv orderedArchive_sorted).
  - intros r Hr. sample_in Hr; sample_le.
Defined.

Example first_segment_ticks :
  lastSlot sampleUnmarshal 1 (concat (hd [] orderedArchive)) = 4 /\
  snd (mergeLoop sampleUnmarshal 3 bothSubscribed 1
         (openStreams (hd [] orderedArchive))) = OutOfFuel.
Proof. split; vm_compute; reflexivity. Qed.

Lemma validateParams_completes_witness :
  let p := {| Download.apiKey := "key"; Download.apiEndpoint := EmptyString;
              Download.orderID := 7; Download.fileName := EmptyString;
              Download.concurrency := 0; Download.outputDir := EmptyString;
              Download.isLocalEndpoint := false |} in
  let p' := {| Download.apiKey := "key";
               Download.apiEndpoint := "https://api.solanastreaming.com";
               Download.orderID := 7; Download.fileName := EmptyString;
               Download.concurrency := 1; Download.outputDir := ".";
               Download.isLocalEndpoint := false |} in
  (Download.apiKey p' <> EmptyString /\
   (Download.orderID p' <> 0 \/ Download.fileName p' <> EmptyString) /\
   Download.outputDir p' <> EmptyString /\
   1 <= Download.concurrency p' <= 10 /\
   (Download.apiEndpoint p' = "https://api.solanastreaming.com"%string \/
    Download.apiEndpoint p' = "http://localhost:8000"%string))
  /\ Download.validateParams p' = (p', None)
  /\ (forall q,
        snd (Download.validateParams q) <> None <->
        Download.apiKey q = EmptyString \/
        (Download.orderID q = 0 /\ Download.fileName q = EmptyString) \/
        10 < Download.concurrency q).
Proof.
  intros p p'. apply (validateParams_completes p p').
  - simpl. lia.
  - reflexivity.
Defined.

Lemma reduce_idempotent_witness :
  Reduce.processFile samplePublicKeyFromBase58 sampleEvent raydiumOnly
    (hd [] raydiumArchive)
  = Some (hd [] raydiumArchive).
Proof.
  apply (reduce_idempotent samplePublicKeyFromBase58 sampleEvent raydiumOnly
           (hd [] accountArchive)).
  vm_compute. reflexivity.
Defined.

Lemma reduced_archive_replays_witness :
  exists fuel out c c',
    forall fuel', (fuel <= fuel')%nat ->
      RunSimulation sampleEventFormat fuel' bothSubscribed accountArchive
      = (out, Returned c) /\
      RunSimulation sampleEventFormat fuel' bothSubscribed raydiumArchive
      = (filter (fun ev => Reduce.keeps samplePublicKeyFromBase58 sampleEvent
                             raydiumOnly (Params ev)) out,
         Returned c').
Proof.
  apply (reduced_archive_replays samplePublicKeyFromBase58 sampleEvent
           sampleEventFormat bothSubscribed raydiumOnly accountArchive
           raydiumArchive).
  - exact sampleEventFormat_uint64.
  - exact accountArchive_records.
  - exact accountArchive_sorted.
  - sample_forall; vm_compute; discriminate.
  - exact accountArchive_temporal.
  - repeat constructor; vm_compute; reflexivity.
Defined.

Example reduced_replay_keys :
  map (envelopeKey sampleEventFormat)
      (fst (RunSimulation sampleEventFormat 6 bothSubscribed accountArchive))
  = [1; 2; 2; 3; 4; 4; 5; 6] /\
  map (envelopeKey sampleEventFormat)
      (fst (RunSimulation sampleEventFormat 6 bothSubscribed raydiumArchive))
  = [1; 2; 4; 4] /\
  snd (RunSimulation sampleEventFormat 6 bothSubscribed raydiumArchive)
  = Returned 4.
Proof. repeat split; vm_compute; reflexivity. Qed.

Lemma envelopes_routed_by_id_witness :
  let request id method :=
    ({| ID := id; SubscriptionID := 0; Method := method; Params := [] |}, true) in
  let connections :=
    [ [ request 10 MethodNewPairSubscribe ];
      [ request 20 MethodSwapSubscribe; request 21 MethodStartSimulation ] ] in
  let out :=
    fst (RunSimulation sampleUnmarshal 5
           {| nextSubID := 3; pairsSubID := 1; swapsSubID := 2 |}
           orderedArchive) in
  (forall ev, In ev out -> In (SubscriptionID ev) ([1] ++ [2]))
  /\
  (forall ev ev', In ev out -> In ev' out ->
                  SubscriptionID ev = SubscriptionID ev' ->
                  Method ev = Method ev').
Proof.
  intros request connections out.
  apply (envelopes_routed_by_id sampleUnmarshal 5 orderedArchive connections
           [ ([ {| replyID := 10; subscription_id := 1 |} ], None) ]
           [ {| replyID := 20; subscription_id := 2 |} ]
           out (Returned 5) []).
  - vm_compute. reflexivity.
  - sample_forall; reflexivity.
  - vm_compute. reflexivity.
Defined.

(** A second connection that subscribes to swaps only and starts the
    simulation is sent the pairs as well, under the id the first
    connection was given; and a newer subscription to a category replaces
    the older one. *)
Example subscriptions_outlive_connections :
  let request id method :=
    ({| ID := id; SubscriptionID := 0; Method := method; Params := [] |}, true) in
  let connections :=
    [ [ request 10 MethodNewPairSubscribe ];
      [ request 20 MethodSwapSubscribe; request 21 MethodStartSimulation ] ] in
  match Execute sampleUnmarshal 5 orderedArchive connections with
  | [ (replies1, None); (replies2, Some (out, _)) ] =>
      map subscription_id replies1 = [1] /\
      map subscription_id replies2 = [2] /\
      map (fun ev => (Method ev, SubscriptionID ev)) out
      = [ ("newPairNotification"%string, 1); ("swapNotification"%string, 2);
          ("swapNotification"%string, 2); ("newPairNotification"%string, 1);
          ("swapNotification"%string, 2); ("swapNotification"%string, 2);
          ("newPairNotification"%string, 1) ]
  | _ => False
  end.
Proof. vm_compute. repeat split. Qed.

Example resubscription_replaces :
  let request id method :=
    ({| ID := id; SubscriptionID := 0; Method := method; Params := [] |}, true) in
  let messages :=
    [ request 10 MethodNewPairSubscribe; request 11 MethodSwapSubscribe;
      request 12 MethodNewPairSubscribe; request 13 MethodStartSimulation ] in
  match Execute sampleUnmarshal 5 orderedArchive [ messages ] with
  | [ (replies, Some (out, _)) ] =>
      map subscription_id replies = [1; 2; 3] /\
      map SubscriptionID out = [3; 2; 2; 3; 2; 2; 3]
  | _ => False
  end.
Proof. vm_compute. repeat split. Qed.

(** A first line of 64 KiB stops [getStartingSlot] with the error of the
    scanner, whatever it holds; one byte less and the line is read, and
    here rejected by the decoder. *)
Example long_first_line :
  scanStartingSlot sampleUnmarshal
    [ [ json "{'slot':1,'pair':{}}" ]; [ repeat x20 (Z.to_nat 65536) ];
      [ json "{'slot':" ] ]
  = StartScanError /\
  scanStartingSlot sampleUnmarshal
    [ [ json "{'slot':1,'pair':{}}" ]; [ repeat x20 (Z.to_nat 65535) ] ]
  = StartCantUnmarshal /\
  scanStartingSlot sampleUnmarshal
    [ [ json "{'slot':4,'pair':{}}" ++ [ x0d ] ]; [];
      [ json "{'slot':2,'swap':{}}" ] ]
  = StartAt 2.
Proof. repeat split; vm_compute; reflexivity. Qed.
